(** * The canvas panner/stitcher (antirizz.js) and the town scraper's
      [computeDays] (scraper.js), embedded and verified.

    The script of antirizz.js is one sequential async body.  It talks to
    three collaborators it cannot see into: the page (canvas evaluation and
    mouse drags), the file system under [CAP_DIR], and node-canvas.  The
    embedding threads an explicit [World] through a state-and-exception
    monad; the page's answers come from a [Host] record, indexed by how many
    times the page has been asked so far.  Since the script is sequential and
    deterministic, every run against any page is the run against the
    sequence of answers that page happened to give, so indexing by call
    number loses no behaviour.

    [console.log] calls are dropped.  [page.waitForTimeout] and
    [fs.writeFile] are recorded as events and always complete: the runs
    embedded are those in which no wait and no file write rejects.  The
    script awaits both outside any [try], so in the script a rejection of
    either is one more way for a loop to stop than the embedding has. *)

From Stdlib Require Import Ascii ZArith QArith Qpower Qround Floats Lqa.
From stdpp Require Import gmap strings list pretty.

Local Open Scope Z_scope.
Local Open Scope string_scope.
Local Open Scope list_scope.

(** ** Configuration constants (antirizz.js, lines 29-36) *)

Definition VIEWPORT_width : Z := 1280.
Definition VIEWPORT_height : Z := 800.
(** 0.75, which binary64 represents exactly; the products below are exact. *)
Definition STEP_FRACTION : Q := 3 # 4.
Definition DELAY_MS : Z := 700.
Definition MAX_IDENTICAL_TO_EDGE : nat := 3.
Definition RETRY_ATTEMPTS : nat := 3.

(** [Math.round]: nearest integer, ties towards +infinity. *)
Definition Math_round (q : Q) : Z := Qfloor (q + (1 # 2)).

(** ** Data *)

(** A Node [Buffer] is a byte string; an md5 hex digest is a string. *)
Abbreviation Buffer := string (only parsing).
Abbreviation Hash := string (only parsing).

(** What one [page.evaluate(() => canvas.toDataURL(...))] can do. *)
Inductive Rendered :=
| EvalRejects                (* the evaluation itself rejects *)
| EvalNull                   (* no canvas, or toDataURL blocked: null *)
| EvalUrl (dataUrl : string).

(** The opaque collaborators.  [md5] and the two halves of
    [dataURLToBuffer] are library calls (crypto, RegExp, Buffer.from);
    [loadImage_ok] says whether node-canvas can decode a file's bytes;
    [CAP_DIR] is [path.resolve(__dirname, "captures")], wherever the
    script lives. *)
Record Host := mkHost {
  md5 : Buffer -> Hash;
  dataurl_match : string -> option string;  (* the RegExp match, group 1 *)
  base64_decode : string -> Buffer;
  page_toDataURL : nat -> Rendered;         (* answer to the k-th evaluation *)
  page_drag_ok : nat -> bool;               (* does the k-th drag complete? *)
  loadImage_ok : Buffer -> bool;
  CAP_DIR : string
}.

Inductive Event :=
| Evaluate
| Drag (dx dy : Z)
| Wait (ms : Z)
| WriteFile (path : string) (buf : Buffer).

Record World := mkWorld {
  evals : nat;                  (* canvas evaluations so far *)
  drags : nat;                  (* dragPan calls so far *)
  files : gmap string string;   (* file path -> contents *)
  trace : list Event            (* oldest first *)
}.

Inductive Error :=
| NullDataUrl          (* "canvas.toDataURL returned null" *)
| InvalidDataUrl       (* "Invalid data URL" *)
| EvaluateRejected
| CaptureFailed        (* "Failed to capture canvas after retries" *)
| DragRejected
| HorizCapReached      (* "Horizontal edge scan reached iteration cap" *)
| VertCapReached       (* "Vertical edge scan reached iteration cap" *)
| LoadImageFailed (path : string).

Inductive Outcome (A : Type) :=
| Ok (a : A)
| Throw (e : Error).
Arguments Ok {A} a.
Arguments Throw {A} e.

(** ** The monad: state that survives a throw *)

Definition M (A : Type) : Type := World -> Outcome A * World.

#[global] Instance M_ret : MRet M := fun A a w => (Ok a, w).
#[global] Instance M_bind : MBind M := fun A B f m w =>
  match m w with
  | (Ok a, w') => f a w'
  | (Throw e, w') => (Throw e, w')
  end.
#[global] Instance M_throw : MThrow Error M := fun A e w => (Throw e, w).

(** [try { m } catch (e) { h e }] *)
Definition try_catch {A} (m : M A) (h : Error -> M A) : M A := fun w =>
  match m w with
  | (Ok a, w') => (Ok a, w')
  | (Throw e, w') => h e w'
  end.

(** [for (let i = start; i < start + n; i++) s = body i s] *)
Fixpoint for_range {St} (n start : nat) (body : nat -> St -> M St) (s : St) : M St :=
  match n with
  | O => mret s
  | S n' => s' ← body start s; for_range n' (S start) body s'
  end.

Definition log_event (e : Event) (w : World) : World :=
  mkWorld (evals w) (drags w) (files w) (trace w ++ [e]).

(** [await page.waitForTimeout(ms)], taken to resolve.  The script has it
    outside any [try] (in the catch block of the capture loop and in every
    pan loop), so a rejection, of a closed page say, would end the run
    there with that error; such runs are not among those embedded. *)
Definition waitForTimeout (ms : Z) : M unit := fun w => (Ok tt, log_event (Wait ms) w).

(** [await fs.writeFile(path, buf)], taken to resolve, with the whole
    buffer stored.  It is unguarded in the script as well. *)
Definition writeFile (path : string) (buf : Buffer) : M unit := fun w =>
  (Ok tt, mkWorld (evals w) (drags w) (<[path := buf]> (files w))
                  (trace w ++ [WriteFile path buf])).

(** [path.join(dir, name)] for a normalised [dir] and a plain file name. *)
Definition path_join (dir name : string) : string := dir +:+ "/" +:+ name.

Section Script.
Variable H : Host.

(** ** Helpers (lines 38-113) *)

Definition dataURLToBuffer (dataUrl : string) : M Buffer :=
  match dataurl_match H dataUrl with
  | None => mthrow InvalidDataUrl
  | Some payload => mret (base64_decode H payload)
  end.

Definition page_evaluate : M (option string) := fun w =>
  let w' := mkWorld (S (evals w)) (drags w) (files w) (trace w ++ [Evaluate]) in
  match page_toDataURL H (evals w) with
  | EvalRejects => (Throw EvaluateRejected, w')
  | EvalNull => (Ok None, w')
  | EvalUrl u => (Ok (Some u), w')
  end.

(** The body of the [try] in [captureCanvasBuffer]; [!dataUrl] holds for
    [null] and for the empty string. *)
Definition captureAttempt : M Buffer :=
  dataUrl ← page_evaluate;
  match dataUrl with
  | None => mthrow NullDataUrl
  | Some u => if String.eqb u "" then mthrow NullDataUrl else dataURLToBuffer u
  end.

Fixpoint captureLoop (retries : nat) : M Buffer :=
  match retries with
  | O => mthrow CaptureFailed
  | S n => try_catch captureAttempt (fun _ => waitForTimeout 300 ;; captureLoop n)
  end.

Definition captureCanvasBuffer (retries : nat) : M Buffer := captureLoop retries.

(** [dragPan]: the mouse gesture (move, down, eight interpolated moves
    ending at the start point plus the delta, up) is recorded as the
    delta it was asked for. *)
Definition dragPan (deltaX deltaY : Z) : M unit := fun w =>
  if page_drag_ok H (drags w)
  then (Ok tt, mkWorld (evals w) (S (drags w)) (files w) (trace w ++ [Drag deltaX deltaY]))
  else (Throw DragRejected, mkWorld (evals w) (S (drags w)) (files w) (trace w)).

(** ** Edge scans (lines 115-204) *)

Record EdgeMeta := mkEdgeMeta { steps : nat; lastHash : Hash }.

(** The loop shared, word for word, by [findEdgeHoriz] and [findEdgeVert];
    they differ in the drag vector, the file-name prefix and the message
    thrown at the cap.  [fuel] is the number of iterations left before the
    cap, [i] the loop index. *)
Fixpoint edgeLoop (dx dy : Z) (prefix : string) (atCap : Error)
    (fuel i identicalCount : nat) (lastHash : Hash) : M EdgeMeta :=
  match fuel with
  | O => mthrow atCap
  | S fuel' =>
      dragPan dx dy ;;
      waitForTimeout DELAY_MS ;;
      buf ← captureCanvasBuffer RETRY_ATTEMPTS;
      let h := md5 H buf in
      let identicalCount' := if String.eqb h lastHash then S identicalCount else O in
      let lastHash' := if String.eqb h lastHash then lastHash else h in
      writeFile (path_join (CAP_DIR H) (prefix +:+ pretty i +:+ ".png")) buf ;;
      if (MAX_IDENTICAL_TO_EDGE <=? identicalCount')%nat
      then mret (mkEdgeMeta (i + 1) lastHash')
      else edgeLoop dx dy prefix atCap fuel' (S i) identicalCount' lastHash'
  end.

Definition findEdgeHoriz (initialHash : Hash) (direction : string) : M EdgeMeta :=
  let stepX := Math_round (inject_Z VIEWPORT_width * STEP_FRACTION)
               * (if String.eqb direction "right" then -1 else 1) in
  edgeLoop stepX 0 ("h_" +:+ direction +:+ "_") HorizCapReached 2000 0 0 initialHash.

Definition findEdgeVert (initialHash : Hash) (direction : string) : M EdgeMeta :=
  let stepY := Math_round (inject_Z VIEWPORT_height * STEP_FRACTION)
               * (if String.eqb direction "down" then -1 else 1) in
  edgeLoop 0 stepY ("v_" +:+ direction +:+ "_") VertCapReached 2000 0 0 initialHash.

Definition horizMeta (initialHash : Hash) : M EdgeMeta :=
  try_catch (findEdgeHoriz initialHash "right") (fun _ => findEdgeHoriz initialHash "left").

Definition vertMeta (initialHash : Hash) : M EdgeMeta :=
  try_catch (findEdgeVert initialHash "down") (fun _ => findEdgeVert initialHash "up").

(** ** Re-homing (lines 206-222) *)

(** [meta ? (meta.lastHash ? 1 : 1) : 1]: an object is truthy, a string is
    truthy unless empty, and both branches are 1. *)
Definition reverseSign (meta : EdgeMeta) : Z :=
  if String.eqb (lastHash meta) "" then 1 else 1.

Definition rehome (hMeta vMeta : EdgeMeta) : M unit :=
  let revV := - Math_round (inject_Z VIEWPORT_height * STEP_FRACTION) * reverseSign vMeta in
  for_range (steps vMeta) 0 (fun _ _ => dragPan 0 (- revV) ;; waitForTimeout 100) tt ;;
  let revH := - Math_round (inject_Z VIEWPORT_width * STEP_FRACTION) * reverseSign hMeta in
  for_range (steps hMeta) 0 (fun _ _ => dragPan (- revH) 0 ;; waitForTimeout 100) tt.

(** ** Grid and raster sweep (lines 224-282) *)

Definition cols (hMeta : EdgeMeta) : nat := steps hMeta + 1.
Definition rows (vMeta : EdgeMeta) : nat := steps vMeta + 1.

Definition stepX : Z := Math_round (inject_Z VIEWPORT_width * STEP_FRACTION).
Definition stepY : Z := Math_round (inject_Z VIEWPORT_height * STEP_FRACTION).

(** The four three-fold loops run just before the structured scan. *)
Definition presweepAlign : M unit :=
  for_range 3 0 (fun _ _ => dragPan stepX 0 ;; waitForTimeout 50) tt ;;
  for_range 3 0 (fun _ _ => dragPan 0 stepY ;; waitForTimeout 50) tt ;;
  for_range 3 0 (fun _ _ => dragPan (- stepX) 0 ;; waitForTimeout 50) tt ;;
  for_range 3 0 (fun _ _ => dragPan 0 (- stepY) ;; waitForTimeout 50) tt.

Definition tilePath (r c : nat) : string :=
  path_join (CAP_DIR H) ("tile_r" +:+ pretty r +:+ "_c" +:+ pretty c +:+ ".png").

(** One pass of the inner loop: [rowFiles] is threaded as the loop state. *)
Definition sweepCell (ncols r c : nat) (rowFiles : list string) : M (list string) :=
  waitForTimeout DELAY_MS ;;
  buf ← captureCanvasBuffer RETRY_ATTEMPTS;
  writeFile (tilePath r c) buf ;;
  let rowFiles' := rowFiles ++ [tilePath r c] in
  (if (Z.of_nat c <? Z.of_nat ncols - 1)%Z
   then dragPan (- stepX) 0 ;; waitForTimeout DELAY_MS
   else mret tt) ;;
  mret rowFiles'.

(** One pass of the outer loop: [saved] is threaded as the loop state.
    [c < cols - 1] bounds the return loop, so it runs [cols - 1] times
    (no time when [cols] is 0). *)
Definition sweepRow (nrows ncols r : nat) (saved : list (list string))
    : M (list (list string)) :=
  rowFiles ← for_range ncols 0 (sweepCell ncols r) [];
  let saved' := saved ++ [rowFiles] in
  for_range (Z.to_nat (Z.of_nat ncols - 1)) 0
    (fun _ _ => dragPan stepX 0 ;; waitForTimeout 50) tt ;;
  (if (Z.of_nat r <? Z.of_nat nrows - 1)%Z
   then dragPan 0 (- stepY) ;; waitForTimeout DELAY_MS
   else mret tt) ;;
  mret saved'.

Definition sweep (nrows ncols : nat) : M (list (list string)) :=
  for_range nrows 0 (sweepRow nrows ncols) [].

(** ** Stitching (lines 287-321) *)

Record DrawOp := mkDraw { img : Buffer; dx : Z; dy : Z; dw : Z; dh : Z }.
Record Canvas := mkCanvas { cwidth : Z; cheight : Z; drawn : list DrawOp }.

Definition tileW : Z := VIEWPORT_width.
Definition tileH : Z := VIEWPORT_height.
Definition effectiveStepX : Z := Math_round (inject_Z VIEWPORT_width * STEP_FRACTION).
Definition effectiveStepY : Z := Math_round (inject_Z VIEWPORT_height * STEP_FRACTION).

Definition stitchedWidth (ncols : nat) : Z := (Z.of_nat ncols - 1) * effectiveStepX + tileW.
Definition stitchedHeight (nrows : nat) : Z := (Z.of_nat nrows - 1) * effectiveStepY + tileH.

(** [fs.existsSync] then [loadImage] then [ctx.drawImage]: the draw list is
    the loop state. *)
Definition stitchCell (r c : nat) (imgPath : string) (ds : list DrawOp) : M (list DrawOp) :=
  fun w =>
    match files w !! imgPath with
    | None => (Ok ds, w)                               (* continue *)
    | Some bytes =>
        if loadImage_ok H bytes
        then (Ok (ds ++ [mkDraw bytes (Z.of_nat c * effectiveStepX)
                                      (Z.of_nat r * effectiveStepY) tileW tileH]), w)
        else (Throw (LoadImageFailed imgPath), w)
    end.

(** [for (c = 0; c < row.length; c++)] over the row's own entries. *)
Fixpoint stitchRow (r c : nat) (row : list string) (ds : list DrawOp) : M (list DrawOp) :=
  match row with
  | [] => mret ds
  | p :: row' => ds' ← stitchCell r c p ds; stitchRow r (S c) row' ds'
  end.

Fixpoint stitchRows (r : nat) (saved : list (list string)) (ds : list DrawOp)
    : M (list DrawOp) :=
  match saved with
  | [] => mret ds
  | row :: saved' => ds' ← stitchRow r 0 row ds; stitchRows (S r) saved' ds'
  end.

Definition stitch (ncols nrows : nat) (saved : list (list string)) : M Canvas :=
  ds ← stitchRows 0 saved [];
  mret (mkCanvas (stitchedWidth ncols) (stitchedHeight nrows) ds).

(** ** The whole script

    [browser.close()] is not modelled.  The script ends by streaming the
    canvas to [nationsmap_stitched.png]; here the canvas is the result. *)

Record Run := mkRun {
  run_horiz : EdgeMeta; run_vert : EdgeMeta;
  run_saved : list (list string); run_canvas : Canvas }.

(** Lines 115-222: the initial capture, both edge scans, the re-homing. *)
Definition scanAndRehome : M (EdgeMeta * EdgeMeta) :=
  initialBuf ← captureCanvasBuffer RETRY_ATTEMPTS;
  let initialHash := md5 H initialBuf in
  hMeta ← horizMeta initialHash;
  vMeta ← vertMeta initialHash;
  rehome hMeta vMeta ;;
  mret (hMeta, vMeta).

Definition main : M Run :=
  metas ← scanAndRehome;
  let hMeta := fst metas in
  let vMeta := snd metas in
  presweepAlign ;;
  saved ← sweep (rows vMeta) (cols hMeta);
  canvas ← stitch (cols hMeta) (rows vMeta) saved;
  mret (mkRun hMeta vMeta saved canvas).

End Script.

(** * scraper.js: [computeDays] (lines 31-39) *)

(** The values [computeDays] is called with: [obj.bank] and [obj.upkeep]
    hold a number from [parseNumRaw] or [null]; [undefined] is included
    because [== null] accepts it.  Numbers are IEEE binary64. *)
Inductive JsValue :=
| JsNull
| JsUndefined
| JsNumber (x : float).

(** [v == null] *)
Definition looseNull (v : JsValue) : bool :=
  match v with
  | JsNull | JsUndefined => true
  | JsNumber _ => false
  end.

(** [Number(v)] *)
Definition Number (v : JsValue) : float :=
  match v with
  | JsNull => 0%float
  | JsUndefined => nan
  | JsNumber x => x
  end.

(** A signed integer back into a float; a zero keeps the sign of the
    number it was rounded from, as ECMAScript prescribes.  The integer
    [p * 2^0] is aligned to the exponent binary64 gives a number of its
    size ([shl_align], the first step of IEEE rounding), which makes the
    mantissa one of 53 bits when [p] has no more than that. *)
Definition floatOfInt (negative : bool) (n : Z) : float :=
  match n with
  | Z0 => if negative then neg_zero else zero
  | Zpos p =>
      let '(m, e) := shl_align p 0 (fexp prec emax (Zpos (digits2_pos p))) in
      SF2Prim (S754_finite false m e)
  | Zneg p =>
      let '(m, e) := shl_align p 0 (fexp prec emax (Zpos (digits2_pos p))) in
      SF2Prim (S754_finite true m e)
  end.

(** The rational a finite non-zero binary64 stands for: (+/-) m * 2^e. *)
Definition finiteValue (s : bool) (m : positive) (e : Z) : Q :=
  inject_Z (if s then Zneg m else Zpos m) * Qpower 2 e.

(** [Math.ceil] on binary64.  NaN, the infinities and the zeros are
    returned as they are, and so is a float with [e >= 0], an integer
    already. *)
Definition Math_ceil (x : float) : float :=
  match Prim2SF x with
  | S754_finite s m e =>
      if (0 <=? e)%Z then x else floatOfInt s (Qceiling (finiteValue s m e))
  | _ => x
  end.

(** [Math.round] on binary64: [Math_round] of the exact value, so ties go
    towards +infinity. *)
Definition Math_round_float (x : float) : float :=
  match Prim2SF x with
  | S754_finite s m e =>
      if (0 <=? e)%Z then x else floatOfInt s (Math_round (finiteValue s m e))
  | _ => x
  end.

Definition computeDays (bank upkeep : JsValue) : JsValue :=
  if looseNull bank || looseNull upkeep then JsNull
  else
    let up := Number upkeep in
    if negb (is_finite up) || (up =? 0)%float then JsNull
    else
      let days := (Number bank / up)%float in
      (* rule: if days > 1 => ceil, else round *)
      if (1 <? days)%float then JsNumber (Math_ceil days)
      else JsNumber (Math_round_float days).

(** * antirizz.js: the mouse gesture of [dragPan] (lines 87-113)

    [dragPan] above records a drag as the delta it was asked for.  The
    gesture itself is modelled here from the point where the canvas
    centre has been rounded to [startX], [startY]: the press, the
    interpolated moves and the release.  Numbers are the rationals they
    stand for ([i / STEPS] is a multiple of 1/8, so the products are
    exact in binary64 for any delta a screen can hold). *)

Definition DRAG_PAUSE : Z := 200.
Definition STEPS : nat := 8.

Inductive MouseEvent :=
| MouseMove (x y : Z)
| MouseDown
| MouseUp
| MousePause (ms : Z).

(** [start + Math.round((stop - start) * (i / STEPS))] *)
Definition interpolate (start stop : Z) (i : nat) : Z :=
  start + Math_round (inject_Z (stop - start)
                      * (inject_Z (Z.of_nat i) / inject_Z (Z.of_nat STEPS))).

Definition dragGesture (startX startY deltaX deltaY : Z) : list MouseEvent :=
  let endX := Math_round (inject_Z startX + inject_Z deltaX) in
  let endY := Math_round (inject_Z startY + inject_Z deltaY) in
  [MouseMove startX startY; MouseDown; MousePause DRAG_PAUSE]
  ++ (seq 1 STEPS ≫= (fun i =>
        [MouseMove (interpolate startX endX i) (interpolate startY endY i);
         MousePause 10]))
  ++ [MouseUp].

(** * scraper.js: merging the parsed entries by town (lines 231-255) *)

(** What [parseAreaOrMarker] returns: [nation] is a string or [null];
    [bank] and [upkeep] are what [parseNumRaw] gave, a number or [null]. *)
Module Entry.
Record t := mk {
  key : string; town : string; nation : option string;
  bank : JsValue; upkeep : JsValue }.
End Entry.

(** The objects the [byTown] map holds. *)
Module Town.
Record t := mk {
  town : string; nation : option string; bank : JsValue; upkeep : JsValue }.
End Town.

(** The objects of the [towns] array that is written out. *)
Module Final.
Record t := mk {
  town : string; nation : option string; bank : JsValue; upkeep : JsValue;
  days_rounded : JsValue }.
End Final.

(** ToBoolean: a number is falsy when it is a zero or NaN, a string when
    it is empty; [null] and [undefined] are falsy. *)
Definition truthy (v : JsValue) : bool :=
  match v with
  | JsNumber x => negb ((x =? 0)%float || is_nan x)
  | JsNull | JsUndefined => false
  end.

Definition truthyString (s : option string) : bool :=
  match s with
  | Some s => negb (String.eqb s "")
  | None => false
  end.

(** [v || null] *)
Definition orNull (v : JsValue) : JsValue := if truthy v then v else JsNull.
Definition stringOrNull (s : option string) : option string :=
  if truthyString s then s else None.

(** [v === undefined ? null : v] *)
Definition undefinedToNull (v : JsValue) : JsValue :=
  match v with
  | JsUndefined => JsNull
  | _ => v
  end.

(** The [else] branch of the loop: [cur] is the object already in the
    map.  [cur.bank === null || cur.bank === undefined] is the test
    [looseNull] makes. *)
Definition mergeEntry (cur : Town.t) (e : Entry.t) : Town.t :=
  let bank1 :=
    if looseNull (Town.bank cur) && truthy (Entry.bank e)
    then Entry.bank e else Town.bank cur in
  let upkeep1 :=
    if looseNull (Town.upkeep cur) && truthy (Entry.upkeep e)
    then Entry.upkeep e else Town.upkeep cur in
  let nation1 :=
    if (negb (truthyString (Town.nation cur))
        || match Town.nation cur with None => true | Some _ => false end)
       && truthyString (Entry.nation e)
    then Entry.nation e else Town.nation cur in
  Town.mk (Town.town cur) nation1 bank1 upkeep1.

(** The [Map]: its entries in insertion order, which is the order
    [byTown.entries()] yields. *)
Definition TownMap := list (string * Town.t).

Definition has (lc : string) (m : TownMap) : bool :=
  existsb (fun kv => String.eqb (fst kv) lc) m.

(** [const cur = byTown.get(lc); cur.f = ...]: the object under [lc] is
    changed in place. *)
Fixpoint mutate (lc : string) (f : Town.t -> Town.t) (m : TownMap) : TownMap :=
  match m with
  | [] => []
  | (k, obj) :: m' =>
      if String.eqb k lc then (k, f obj) :: m' else (k, obj) :: mutate lc f m'
  end.

Section Dedupe.
(** [String.prototype.trim] and [String.prototype.toLowerCase]. *)
Variables trim toLowerCase : string -> string.

(** One pass of [for (const e of entries)]. *)
Definition dedupeStep (m : TownMap) (e : Entry.t) : TownMap :=
  let townKey := trim (Entry.town e) in
  let lc := toLowerCase townKey in
  if negb (has lc m)
  then m ++ [(lc, Town.mk townKey (stringOrNull (Entry.nation e))
                          (orNull (Entry.bank e)) (orNull (Entry.upkeep e)))]
  else mutate lc (fun cur => mergeEntry cur e) m.

Definition byTown (entries : list Entry.t) : TownMap := foldl dedupeStep [] entries.

(** [nation] is a string or [null] here, never [undefined]. *)
Definition finalTown (obj : Town.t) : Final.t :=
  Final.mk (Town.town obj) (Town.nation obj)
           (undefinedToNull (Town.bank obj)) (undefinedToNull (Town.upkeep obj))
           (computeDays (Town.bank obj) (Town.upkeep obj)).

Definition final (entries : list Entry.t) : list Final.t :=
  (fun kv => finalTown (snd kv)) <$> byTown entries.

End Dedupe.

(** * scraper.js: [isExcludedLabelOrDesc] (lines 10-21, 93-111) *)

Definition EXCLUDED_SUBSTRINGS : list string :=
  ["WORLD BORDER"; "CAPTURE POINT"; "MEDITERRANEAN"; "SAHARA"; "SCANDINAVIA";
   "SOUTH ATLANTIC"; "NORTH ATLANTIC"; "PACIFIC"; "INDIAN OCEAN"; "AMERICA"].

(** [s.includes(t)] *)
Fixpoint includes (s t : string) : bool :=
  String.prefix t s
  || match s with
     | EmptyString => false
     | String _ s' => includes s' t
     end.

(** [{excluded: true, reason}] or [{excluded: false}]. *)
Record Exclusion := mkExclusion { excluded : bool; reason : option string }.

Section Exclusion.
(** [String.prototype.toUpperCase]. *)
Variable toUpperCase : string -> string.

(** The arguments are strings or [null]; [(label || "")] turns [null]
    into the empty string. *)
Definition isExcludedLabelOrDesc (label descHtml descText key : option string)
    : Exclusion :=
  let l := toUpperCase (default "" label) in
  let dHtml := toUpperCase (default "" descHtml) in
  let dText := toUpperCase (default "" descText) in
  let k := toUpperCase (default "" key) in
  (* exclude shops *)
  if includes l "SHOP" || includes k "SHOP" || includes dHtml "SHOP" || includes dText "SHOP"
  then mkExclusion true (Some "shop")
  else
    (* exclude explicitly listed region names *)
    match List.find (fun ex => includes l ex || includes dHtml ex
                               || includes dText ex || includes k ex)
                    EXCLUDED_SUBSTRINGS with
    | Some ex => mkExclusion true (Some ("assault_region:" +:+ ex))
    | None =>
        (* world border / capture point *)
        if includes l "WORLD BORDER" || includes dHtml "WORLD BORDER"
           || includes k "WORLD BORDER"
        then mkExclusion true (Some "world_border")
        else if includes l "CAPTURE POINT" || includes dHtml "CAPTURE POINT"
                || includes k "CAPTURE POINT"
        then mkExclusion true (Some "capture_point")
        else mkExclusion false None
    end.

End Exclusion.

(** * scraper.js: [parseNumRaw] (lines 23-29)

    A string is a sequence of code units; a character of [string] stands
    for the code unit of the same number, so the texts covered are those
    whose code units are below 256. *)

(** [\d] and [[\d,]] *)
Definition isDigit (c : ascii) : bool :=
  (48 <=? nat_of_ascii c)%nat && (nat_of_ascii c <=? 57)%nat.

Definition isNumChar (c : ascii) : bool := isDigit c || Ascii.eqb c ",".

(** The white space and line terminators [trim] strips, below 256: TAB,
    LF, VT, FF, CR, SP and NBSP. *)
Definition isSpace (c : ascii) : bool :=
  existsb (Nat.eqb (nat_of_ascii c)) [9; 10; 11; 12; 13; 32; 160]%nat.

Fixpoint takeWhile (p : ascii -> bool) (s : string) : string :=
  match s with
  | EmptyString => EmptyString
  | String c s' => if p c then String c (takeWhile p s') else EmptyString
  end.

Fixpoint dropWhile (p : ascii -> bool) (s : string) : string :=
  match s with
  | EmptyString => EmptyString
  | String c s' => if p c then dropWhile p s' else s
  end.

(** [s.replace(/\u00A0/g, " ")] *)
Fixpoint replaceNbsp (s : string) : string :=
  match s with
  | EmptyString => EmptyString
  | String c s' => String (if Ascii.eqb c "160" then " "%char else c) (replaceNbsp s')
  end.

(** [s.replace(/,/g, "")] *)
Fixpoint removeCommas (s : string) : string :=
  match s with
  | EmptyString => EmptyString
  | String c s' => if Ascii.eqb c "," then removeCommas s' else String c (removeCommas s')
  end.

(** [s.trim()] *)
Fixpoint trimEnd (s : string) : string :=
  match s with
  | EmptyString => EmptyString
  | String c s' =>
      match trimEnd s' with
      | EmptyString => if isSpace c then EmptyString else String c EmptyString
      | t => String c t
      end
  end.

Definition trim (s : string) : string := trimEnd (dropWhile isSpace s).

(** What [(?:\.\d+)?] takes at the head of [s]: a dot and the digits
    after it, or nothing when no digit follows the dot. *)
Definition fraction (s : string) : string :=
  match s with
  | String c s' =>
      if Ascii.eqb c "."
      then match takeWhile isDigit s' with
           | EmptyString => EmptyString
           | ds => String "." ds
           end
      else EmptyString
  | EmptyString => EmptyString
  end.

(** [[\d,]+(?:\.\d+)?] at the head of [s]: both quantifiers are greedy and
    nothing follows them, so the longest runs are what is matched. *)
Definition unsignedHere (s : string) : option string :=
  match takeWhile isNumChar s with
  | EmptyString => None
  | body => Some (body +:+ fraction (dropWhile isNumChar s))
  end.

(** [-?[\d,]+(?:\.\d+)?] at the head of [s]: the minus is taken when there
    is one; if the rest then fails, the match is tried again without it. *)
Definition matchHere (s : string) : option string :=
  match s with
  | String c s' =>
      if Ascii.eqb c "-"
      then match unsignedHere s' with
           | Some m => Some (String "-" m)
           | None => unsignedHere s
           end
      else unsignedHere s
  | EmptyString => unsignedHere s
  end.

(** [txt.match(/-?[\d,]+(?:\.\d+)?/)]: the match at the leftmost position
    that has one; the result is [m[0]]. *)
Fixpoint regexMatch (s : string) : option string :=
  match matchHere s with
  | Some m => Some m
  | None =>
      match s with
      | EmptyString => None
      | String _ s' => regexMatch s'
      end
  end.

Section ParseNum.
(** [Number(text)] on a string: ECMAScript's StringToNumber. *)
Variable StringToNumber : string -> float.

(** The argument is a string, or [None] for [undefined] and [null]. *)
Definition parseNumRaw (s : option string) : JsValue :=
  match s with
  | None => JsNull
  | Some s =>
      let txt := trim (replaceNbsp s) in
      match regexMatch txt with
      | None => JsNull
      | Some m0 => JsNumber (StringToNumber (removeCommas m0))
      end
  end.

End ParseNum.

(** * Vocabulary for the statements *)

(** What the [k]-th evaluation is worth to [captureCanvasBuffer]: the
    decoded buffer, or nothing when the attempt ends in the [catch]. *)
Definition usable (H : Host) (k : nat) : option Buffer :=
  match page_toDataURL H k with
  | EvalUrl u => if String.eqb u "" then None else base64_decode H <$> dataurl_match H u
  | _ => None
  end.

(** The world after one evaluation. *)
Definition evaluated (w : World) : World :=
  mkWorld (S (evals w)) (drags w) (files w) (trace w ++ [Evaluate]).

(** The world after [j] failed attempts, each followed by its 300 ms wait. *)
Definition retried (j : nat) (w : World) : World :=
  mkWorld (evals w + j) (drags w) (files w)
          (trace w ++ concat (replicate j [Evaluate; Wait 300])).

(** From [w] on, every drag completes. *)
Definition pans_ok (H : Host) (w : World) : Prop :=
  forall k, page_drag_ok H (drags w + k) = true.

(** From [w] on, the [k]-th evaluation yields the buffer [frames k]. *)
Definition feeds (H : Host) (w : World) (frames : nat -> Buffer) : Prop :=
  forall k, usable H (evals w + k) = Some (frames k).

(** The world after one pass of an edge-scan loop body. *)
Definition scanned (dx dy : Z) (path : string) (buf : Buffer) (w : World) : World :=
  mkWorld (S (evals w)) (S (drags w)) (<[path := buf]> (files w))
          (trace w ++ [Drag dx dy; Wait DELAY_MS; Evaluate; WriteFile path buf]).

(** The world after [n] passes of a drag-then-wait loop. *)
Definition panned (n : nat) (dx dy ms : Z) (w : World) : World :=
  mkWorld (evals w) (drags w + n) (files w)
          (trace w ++ concat (replicate n [Drag dx dy; Wait ms])).

(** The pan deltas of a trace, in order, and their sum. *)
Definition pansOf (tr : list Event) : list (Z * Z) :=
  omap (fun e => match e with Drag dx dy => Some (dx, dy) | _ => None end) tr.

Definition panSum (tr : list Event) : Z * Z :=
  foldr (fun d acc => (fst d + fst acc, snd d + snd acc)) (0, 0) (pansOf tr).

(** The file writes of a trace, in order. *)
Definition writesOf (tr : list Event) : list (string * Buffer) :=
  omap (fun e => match e with WriteFile p b => Some (p, b) | _ => None end) tr.

(** Strings of decimal digits. *)
Fixpoint all_digits (s : string) : bool :=
  match s with
  | EmptyString => true
  | String a s' =>
      (48 <=? nat_of_ascii a)%nat && (nat_of_ascii a <=? 57)%nat && all_digits s'
  end.

(** ** The grid *)

(** The file system after a sequence of writes. *)
Definition applyWrites (ws : list (string * Buffer)) (fs : gmap string string)
    : gmap string string :=
  foldl (fun m pb => <[fst pb := snd pb]> m) fs ws.

(** [w'] is [w] after [n] more evaluations and the file writes [ws], and
    any number of drags and waits. *)
Definition captured (w w' : World) (n : nat) (ws : list (string * Buffer)) : Prop :=
  evals w' = (evals w + n)%nat
  /\ (drags w <= drags w')%nat
  /\ files w' = applyWrites ws (files w)
  /\ writesOf (trace w') = writesOf (trace w) ++ ws.

(** [w'] is [w] after writing, in this order, one file to each of the
    paths [ps], and anything else that leaves the files alone. *)
Definition wrote (w w' : World) (ps : list string) : Prop :=
  exists ws,
    fst <$> ws = ps
    /\ files w' = applyWrites ws (files w)
    /\ writesOf (trace w') = writesOf (trace w) ++ ws.

(** The tile files of a grid, row by row, columns ascending. *)
Definition gridPaths (H : Host) (nrows ncols : nat) : list (list string) :=
  (fun r => tilePath H r <$> seq 0 ncols) <$> seq 0 nrows.

(** The cells of a grid in row-major order. *)
Definition gridCells (nrows ncols : nat) : list (nat * nat) :=
  seq 0 nrows ≫= (fun r => (fun c => (r, c)) <$> seq 0 ncols).

(** Cell (r, c) receives the capture number [r * ncols + c]. *)
Definition gridWrites (H : Host) (nrows ncols : nat) (frames : nat -> Buffer)
    : list (string * Buffer) :=
  (fun rc => (tilePath H (fst rc) (snd rc), frames (fst rc * ncols + snd rc)%nat))
    <$> gridCells nrows ncols.

(** ** The composite *)

(** What the stitcher draws for one slot, one row from column [c] on, and
    a table of rows from row [r] on, when no image fails to decode: a
    slot whose file is absent contributes nothing. *)
Definition cellDraws (fs : gmap string string) (r c : nat) (imgPath : string)
    : list DrawOp :=
  match fs !! imgPath with
  | Some bytes => [mkDraw bytes (Z.of_nat c * effectiveStepX)
                          (Z.of_nat r * effectiveStepY) tileW tileH]
  | None => []
  end.

Fixpoint rowDraws (fs : gmap string string) (r c : nat) (row : list string)
    : list DrawOp :=
  match row with
  | [] => []
  | p :: row' => cellDraws fs r c p ++ rowDraws fs r (S c) row'
  end.

Fixpoint gridDraws (fs : gmap string string) (r : nat) (saved : list (list string))
    : list DrawOp :=
  match saved with
  | [] => []
  | row :: saved' => rowDraws fs r 0 row ++ gridDraws fs (S r) saved'
  end.

(** Every stored tile of the table is a PNG node-canvas can load. *)
Definition decodable (H : Host) (fs : gmap string string) (saved : list (list string))
    : Prop :=
  forall p bytes, p ∈ concat saved -> fs !! p = Some bytes -> loadImage_ok H bytes = true.

(** ** The value of a number *)

(** The rational a binary64 stands for; NaN and the infinities stand for
    none, and both zeros for 0. *)
Definition floatValue (x : float) : option Q :=
  match Prim2SF x with
  | S754_zero _ => Some 0%Q
  | S754_finite s m e => Some (finiteValue s m e)
  | S754_infinity _ | S754_nan => None
  end.

(** ** Concrete pages *)

Definition w0 : World := mkWorld 0 0 ∅ [].

(** A page that answers the [k]-th evaluation with the frame [frames k];
    the data URL, its payload and its hash are identified with the frame. *)
Definition syntheticHost (frames : nat -> string) : Host :=
  mkHost (fun b => b) Some (fun s => s) (fun k => EvalUrl (frames k))
         (fun _ => true) (fun _ => true) "/captures".

(** Two distinct frames, then the second one for ever. *)
Definition twoFrames : Host :=
  syntheticHost (fun k => match k with O => "a" | _ => "b" end).

(** 2001 frames that all differ, then a still picture. *)
Definition changingFrames (k : nat) : string :=
  if (k <=? 2000)%nat then "f" +:+ pretty k else "z".

Definition capThenEdge : Host := syntheticHost changingFrames.

(** Null, then a URL the RegExp rejects, then a good frame. *)
Definition flakyCanvas : Host :=
  mkHost (fun b => b)
         (fun u => if String.eqb u "garbage" then None else Some u)
         (fun s => s)
         (fun k => match k with
                   | O => EvalNull
                   | 1%nat => EvalUrl "garbage"
                   | _ => EvalUrl "frame"
                   end)
         (fun _ => true) (fun _ => true) "/captures".

(** A canvas that never renders. *)
Definition deadCanvas : Host :=
  mkHost (fun b => b) Some (fun s => s) (fun _ => EvalNull)
         (fun _ => true) (fun _ => true) "/captures".

(** A page that shows the same picture whatever is done to it. *)
Definition stillPage : Host := syntheticHost (fun _ => "z").

(** A capture directory holding the first tile of a one-by-two grid only. *)
Definition oneTileStored : World :=
  mkWorld 0 0 {[ "/captures/tile_r0_c0.png" := "a" ]} [].

(** * Vocabulary for the further properties of the panner *)

(** The diagnostic file an edge scan writes on pass [i]. *)
Definition scanFile (H : Host) (prefix : string) (i : nat) : string :=
  path_join (CAP_DIR H) (prefix +:+ pretty i +:+ ".png").

(** [w4] is [w] after one completed pass of a scan loop that captured [buf]. *)
Definition passed (dx dy : Z) (path : string) (buf : Buffer) (w w4 : World) : Prop :=
  pansOf (trace w4) = pansOf (trace w) ++ [(dx, dy)]
  /\ writesOf (trace w4) = writesOf (trace w) ++ [(path, buf)]
  /\ files w4 = <[path := buf]> (files w).

(** [w'] is [w] after a pass that broke off: at most the drag happened. *)
Definition brokeOff (dx dy : Z) (w w' : World) : Prop :=
  (pansOf (trace w') = pansOf (trace w) \/ pansOf (trace w') = pansOf (trace w) ++ [(dx, dy)])
  /\ writesOf (trace w') = writesOf (trace w)
  /\ files w' = files w.

(** The diagnostic files of the first [n] passes, each paired with the
    frame captured on that pass. *)
Definition scanWrites (H : Host) (prefix : string) (i : nat) (bufs : list Buffer)
    : list (string * Buffer) :=
  zip (scanFile H prefix <$> seq i (length bufs)) bufs.

(** [w'] is [w] after a scan made [n] drags by [(dx, dy)] and stored the
    frames [bufs], one per completed pass, under [prefix]. *)
Definition scanRan (H : Host) (dx dy : Z) (prefix : string) (i n : nat)
    (bufs : list Buffer) (w w' : World) : Prop :=
  pansOf (trace w') = pansOf (trace w) ++ replicate n (dx, dy)
  /\ writesOf (trace w') = writesOf (trace w) ++ scanWrites H prefix i bufs
  /\ files w' = applyWrites (scanWrites H prefix i bufs) (files w).

(** What tells the two scans apart: the function, the prefix of its
    diagnostic files, its drag vector and the error it throws at the cap. *)
Record Scan := mkScan {
  scan_run : Hash -> string -> M EdgeMeta;
  scan_prefix : string -> string;
  scan_vector : string -> Z * Z;
  scan_cap : Error }.

Definition horizontal (H : Host) : Scan :=
  mkScan (findEdgeHoriz H)
         (fun direction => "h_" +:+ direction +:+ "_")
         (fun direction => (stepX * (if String.eqb direction "right" then -1 else 1), 0))
         HorizCapReached.

Definition vertical (H : Host) : Scan :=
  mkScan (findEdgeVert H)
         (fun direction => "v_" +:+ direction +:+ "_")
         (fun direction => (0, stepY * (if String.eqb direction "down" then -1 else 1)))
         VertCapReached.

(** By how many steps [z] the re-homing misses its starting point on one
    axis: nothing when the first-direction scan [first] (run from [w])
    found the edge; otherwise the re-homing repeats the [steps meta] pans
    of the second scan instead of undoing them, and the [n] pans of the
    failed first scan are never undone. *)
Definition missedBy (first : Outcome EdgeMeta * World) (cap : Error) (w : World)
    (meta : EdgeMeta) (z : Z) : Prop :=
  match fst first with
  | Ok _ => z = 0
  | Throw e =>
      exists n : nat,
        length (pansOf (trace (snd first))) = (length (pansOf (trace w)) + n)%nat
        /\ (n <= 2000)%nat
        /\ (e = cap -> n = 2000%nat)
        /\ z = 2 * Z.of_nat (steps meta) - Z.of_nat n
  end.

(** ** Where the view is when a file is written *)

(** The files written during the events [evs], each with the sum of the
    drags issued before it, the view starting displaced by [pos]. *)
Fixpoint viewsAt (pos : Z * Z) (evs : list Event) : list (string * (Z * Z)) :=
  match evs with
  | [] => []
  | Drag dx dy :: evs' => viewsAt (fst pos + dx, snd pos + dy) evs'
  | WriteFile p _ :: evs' => (p, pos) :: viewsAt pos evs'
  | _ :: evs' => viewsAt pos evs'
  end.

(** The displacement after the events [evs]. *)
Definition movedBy (pos : Z * Z) (evs : list Event) : Z * Z :=
  (fst pos + fst (panSum evs), snd pos + snd (panSum evs)).

(** From [w] to [w'] the run wrote the files of [vs] at the displacements
    given with them, and took the view from [pos] to [pos']. *)
Definition toured (pos : Z * Z) (w w' : World) (vs : list (string * (Z * Z)))
    (pos' : Z * Z) : Prop :=
  exists evs, trace w' = trace w ++ evs /\ viewsAt pos evs = vs /\ movedBy pos evs = pos'.

(** Where the raster sweep expects the view to be for cell [(r, c)],
    relative to the first cell: [c] steps to the right, [r] steps down;
    a drag by [-step] pans by [step]. *)
Definition cellView (rc : nat * nat) : Z * Z :=
  (- (Z.of_nat (snd rc) * stepX), - (Z.of_nat (fst rc) * stepY)).

(** The view at the [c]-th pass of a row's capture loop and at the [r]-th
    pass of the row loop, the loop starting at [(x, y)]: the last column
    and the last row are not followed by a drag. *)
Definition colView (ncols : nat) (x y : Z) (c : nat) : Z * Z :=
  (x - Z.of_nat (Nat.min c (ncols - 1)) * stepX, y).

Definition rowView (nrows : nat) (x y : Z) (r : nat) : Z * Z :=
  (x, y - Z.of_nat (Nat.min r (nrows - 1)) * stepY).


(** ** Tiles the stitcher can and cannot use *)

(** A slot the stitcher gets past: its file is absent, or stored and
    decodable. *)
Definition passable (H : Host) (w : World) (p : string) : Prop :=
  forall bytes, files w !! p = Some bytes -> loadImage_ok H bytes = true.

Definition undecodable (H : Host) (w : World) (p : string) : Prop :=
  exists bytes, files w !! p = Some bytes /\ loadImage_ok H bytes = false.

(** ** The files of a run *)

(** The five kinds of file the script writes, in the order in which it
    gets to them: the diagnostics of the four scans, then the tiles. *)
Definition fileClass (H : Host) (k : nat) (p : string) : Prop :=
  match k with
  | 0%nat => exists i, p = scanFile H "h_right_" i
  | 1%nat => exists i, p = scanFile H "h_left_" i
  | 2%nat => exists i, p = scanFile H "v_down_" i
  | 3%nat => exists i, p = scanFile H "v_up_" i
  | 4%nat => exists r c, p = tilePath H r c
  | _ => False
  end.

(** However [m] ends, it has written no path twice, and only files of the
    kinds [lo] to [hi - 1]. *)
Definition writesInClasses {A} (H : Host) (m : M A) (lo hi : nat) : Prop :=
  forall w r w',
    m w = (r, w') ->
    exists ps,
      wrote w w' ps /\ NoDup ps
      /\ Forall (fun p => exists k, (lo <= k < hi)%nat /\ fileClass H k p) ps.


(** * Vocabulary for the scraper *)

(** ** Towns grouped by name *)

(** The first truthy value of a list, [null] when there is none. *)
Definition firstTruthy (vs : list JsValue) : JsValue :=
  match filter (fun v => truthy v = true) vs with
  | v :: _ => v
  | [] => JsNull
  end.

Definition firstTruthyString (ss : list (option string)) : option string :=
  match filter (fun s => truthyString s = true) ss with
  | s :: _ => s
  | [] => None
  end.

(** The keys of a list in the order of their first occurrence. *)
Fixpoint firstSeen (seen ks : list string) : list string :=
  match ks with
  | [] => []
  | k :: ks' =>
      if existsb (String.eqb k) seen then firstSeen seen ks'
      else k :: firstSeen (k :: seen) ks'
  end.

Section Grouping.
Variables trim toLowerCase : string -> string.

(** The map key of an entry: its town name, trimmed and lower-cased. *)
Definition keyOf (e : Entry.t) : string := toLowerCase (trim (Entry.town e)).

(** The entries filed under [k], in the order they were parsed. *)
Definition group (k : string) (entries : list Entry.t) : list Entry.t :=
  filter (fun e => keyOf e = k) entries.

(** The town a group stands for: the spelling of its first entry, and for
    each figure the first truthy one in the group. *)
Definition townOfGroup (g : list Entry.t) : option Town.t :=
  match g with
  | [] => None
  | e :: _ =>
      Some (Town.mk (trim (Entry.town e))
                    (firstTruthyString (Entry.nation <$> g))
                    (firstTruthy (Entry.bank <$> g))
                    (firstTruthy (Entry.upkeep <$> g)))
  end.

Definition grouped (entries : list Entry.t) : list Final.t :=
  omap (fun k => finalTown <$> townOfGroup (group k entries))
       (firstSeen [] (keyOf <$> entries)).

End Grouping.

(** Three parsed entries, two of them for the same town: the first has a
    zero bank and no upkeep, the second brings both figures. *)
Definition sampleEntries : list Entry.t :=
  [Entry.mk "a.markers.1" "Paris" None (JsNumber 0) JsNull;
   Entry.mk "a.areas.7" "Paris" (Some "France") (JsNumber 100) (JsNumber 30);
   Entry.mk "a.markers.2" "Rome" (Some "") JsNull (JsNumber 5)].

(** ** Numbers in text *)

Fixpoint allChars (p : ascii -> bool) (s : string) : bool :=
  match s with
  | EmptyString => true
  | String c s' => p c && allChars p s'
  end.

(** Nothing, or a dot followed by at least one digit. *)
Definition fractionShape (f : string) : Prop :=
  f = "" \/ exists ds, f = String "." ds /\ ds <> "" /\ allChars isDigit ds = true.

(** An amount as the extractors capture it: digits and commas, then
    possibly a fraction. *)
Definition amountShape (s : string) : Prop :=
  exists body f,
    s = body +:+ f /\ body <> "" /\ allChars isNumChar body = true /\ fractionShape f.

(** What reaches [Number]: an optional minus, digits (possibly none), then
    possibly a fraction. *)
Definition decimalShape (t : string) : Prop :=
  exists sign ints f,
    t = sign +:+ ints +:+ f /\ (sign = "" \/ sign = "-")
    /\ allChars isDigit ints = true /\ fractionShape f.

(** A run stops where the next character is not of its class. *)
Definition stopsAt (p : ascii -> bool) (s : string) : Prop :=
  match s with
  | EmptyString => True
  | String c _ => p c = false
  end.


(** An amount with its thousands separators and cents. *)
Definition sampleAmount : string := "1,234.50".

(** * Reasoning about runs *)

Lemma run_bind {A B} (m : M A) (f : A -> M B) (w : World) :
  (m ≫= f) w = match m w with (Ok a, w') => f a w' | (Throw e, w') => (Throw e, w') end.
Proof. reflexivity. Qed.

Lemma run_bind_ok {A B} (m : M A) (f : A -> M B) w a w' :
  m w = (Ok a, w') -> (m ≫= f) w = f a w'.
Proof. intros E. rewrite run_bind, E. reflexivity. Qed.

Lemma run_bind_throw {A B} (m : M A) (f : A -> M B) w e w' :
  m w = (Throw e, w') -> (m ≫= f) w = (Throw e, w').
Proof. intros E. rewrite run_bind, E. reflexivity. Qed.


Lemma bind_ok_inv {A B} (m : M A) (f : A -> M B) w b w' :
  (m ≫= f) w = (Ok b, w') ->
  exists a w1, m w = (Ok a, w1) /\ f a w1 = (Ok b, w').
Proof.
  rewrite run_bind. destruct (m w) as [[a|e] w1]; [eauto|discriminate].
Qed.

Lemma bind_throw_inv {A B} (m : M A) (f : A -> M B) w e w' :
  (m ≫= f) w = (Throw e, w') ->
  m w = (Throw e, w') \/ exists a w1, m w = (Ok a, w1) /\ f a w1 = (Throw e, w').
Proof.
  rewrite run_bind. destruct (m w) as [[a|e1] w1]; [eauto|]. intros [= -> ->]. auto.
Qed.

Lemma try_catch_ok {A} (m : M A) h w a :
  fst (m w) = Ok a -> try_catch m h w = m w.
Proof. unfold try_catch. destruct (m w) as [[a'|e] w']; simpl; [reflexivity|discriminate]. Qed.

Lemma try_catch_throw {A} (m : M A) h w e :
  fst (m w) = Throw e -> try_catch m h w = h e (snd (m w)).
Proof. unfold try_catch. destruct (m w) as [[a'|e'] w']; simpl; [discriminate|]. intros [= ->]. reflexivity. Qed.

Lemma try_catch_fatal {A} (m : M A) (m2 : M A) w e :
  fst (try_catch m (fun _ => m2) w) = Throw e ->
  (exists e1, fst (m w) = Throw e1) /\ fst (m2 (snd (m w))) = Throw e.
Proof.
  unfold try_catch. destruct (m w) as [[a'|e'] w']; simpl; [discriminate|]. eauto.
Qed.

(** * Frame capture *)

Section CaptureFacts.
Variable H : Host.

Lemma captureAttempt_usable w b :
  usable H (evals w) = Some b -> captureAttempt H w = (Ok b, evaluated w).
Proof.
  unfold usable, captureAttempt, page_evaluate. rewrite run_bind.
  destruct (page_toDataURL H (evals w)) as [| |u]; try discriminate.
  destruct (String.eqb u ""); try discriminate.
  unfold dataURLToBuffer. destruct (dataurl_match H u); simpl; [|discriminate].
  intros [= <-]. reflexivity.
Qed.

Lemma captureAttempt_unusable w :
  usable H (evals w) = None -> exists e, captureAttempt H w = (Throw e, evaluated w).
Proof.
  unfold usable, captureAttempt, page_evaluate. rewrite run_bind.
  destruct (page_toDataURL H (evals w)) as [| |u]; eauto.
  destruct (String.eqb u ""); eauto.
  unfold dataURLToBuffer. destruct (dataurl_match H u); simpl; [discriminate|eauto].
Qed.

Lemma retried_S j w :
  retried j (log_event (Wait 300) (evaluated w)) = retried (S j) w.
Proof.
  unfold retried, log_event, evaluated; simpl. f_equal; [lia|].
  rewrite <- !app_assoc. reflexivity.
Qed.

Lemma captureLoop_first_usable n : forall j w b,
  (j < n)%nat ->
  usable H (evals w + j) = Some b ->
  (forall i, (i < j)%nat -> usable H (evals w + i) = None) ->
  captureLoop H n w = (Ok b, evaluated (retried j w)).
Proof.
  induction n as [|n IH]; intros j w b Hj Hb Hnone; [lia|].
  simpl. unfold try_catch.
  destruct j as [|j].
  - rewrite Nat.add_0_r in Hb. rewrite (captureAttempt_usable _ _ Hb).
    unfold evaluated, retried; simpl. rewrite Nat.add_0_r, app_nil_r. reflexivity.
  - destruct (captureAttempt_unusable w) as [e He].
    { rewrite <- (Nat.add_0_r (evals w)). apply Hnone. lia. }
    rewrite He. rewrite run_bind. unfold waitForTimeout at 1.
    rewrite (IH j _ b); [ rewrite retried_S; reflexivity | lia | |].
    + simpl. rewrite <- Hb. f_equal. lia.
    + intros i Hi. simpl. rewrite <- (Hnone (S i)) by lia. f_equal. lia.
Qed.

Lemma captureLoop_none_usable n : forall w,
  (forall i, (i < n)%nat -> usable H (evals w + i) = None) ->
  captureLoop H n w = (Throw CaptureFailed, retried n w).
Proof.
  induction n as [|n IH]; intros w Hnone.
  - simpl. unfold retried; simpl. rewrite Nat.add_0_r, app_nil_r. destruct w; reflexivity.
  - simpl. unfold try_catch.
    destruct (captureAttempt_unusable w) as [e He].
    { rewrite <- (Nat.add_0_r (evals w)). apply Hnone. lia. }
    rewrite He, run_bind. unfold waitForTimeout at 1.
    rewrite IH; [rewrite retried_S; reflexivity|].
    intros i Hi. simpl. rewrite <- (Hnone (S i)) by lia. f_equal. lia.
Qed.

Lemma captureLoop_bound n : forall w,
  (evals (snd (captureLoop H n w)) <= evals w + n)%nat.
Proof.
  induction n as [|n IH]; intros w; simpl; [lia|].
  unfold try_catch.
  destruct (usable H (evals w)) as [b|] eqn:E.
  - rewrite (captureAttempt_usable _ _ E). simpl. lia.
  - destruct (captureAttempt_unusable _ E) as [e ->].
    rewrite run_bind. unfold waitForTimeout at 1.
    etrans; [apply IH|]. simpl. lia.
Qed.

End CaptureFacts.

(** C6.  [captureCanvasBuffer] evaluates the canvas at most [retries] times
    (3 by default); every failed attempt is followed by the fixed 300 ms
    wait; it returns the buffer of the first usable evaluation, and when
    none of the [retries] evaluations is usable it throws
    "Failed to capture canvas after retries". *)
Theorem captureCanvasBuffer_retry_contract (H : Host) (retries : nat) (w : World) :
  RETRY_ATTEMPTS = 3%nat
  /\ (evals (snd (captureCanvasBuffer H retries w)) <= evals w + retries)%nat
  /\ (forall j b,
        (j < retries)%nat ->
        usable H (evals w + j) = Some b ->
        (forall i, (i < j)%nat -> usable H (evals w + i) = None) ->
        captureCanvasBuffer H retries w = (Ok b, evaluated (retried j w)))
  /\ ((forall i, (i < retries)%nat -> usable H (evals w + i) = None) ->
        captureCanvasBuffer H retries w = (Throw CaptureFailed, retried retries w)).
Proof.
  split; [reflexivity|]. split; [apply captureLoop_bound|]. split.
  - intros j b. apply captureLoop_first_usable.
  - apply captureLoop_none_usable.
Qed.

Lemma captureCanvasBuffer_retry_contract_witness :
  captureCanvasBuffer flakyCanvas RETRY_ATTEMPTS w0
  = (Ok "frame",
     mkWorld 3 0 ∅ [Evaluate; Wait 300; Evaluate; Wait 300; Evaluate])
  /\ captureCanvasBuffer deadCanvas RETRY_ATTEMPTS w0
     = (Throw CaptureFailed,
        mkWorld 3 0 ∅ [Evaluate; Wait 300; Evaluate; Wait 300; Evaluate; Wait 300]).
Proof.
  split.
  - apply (proj1 (proj2 (proj2 (captureCanvasBuffer_retry_contract flakyCanvas 3 w0))) 2%nat).
    + vm_compute. lia.
    + reflexivity.
    + intros [|[|i]] Hi; [reflexivity | reflexivity | lia].
  - apply (proj2 (proj2 (proj2 (captureCanvasBuffer_retry_contract deadCanvas 3 w0)))).
    intros i _. reflexivity.
Defined.

(** * Edge scans *)

Section ScanFacts.
Variable H : Host.

Lemma capture_fed w b :
  usable H (evals w) = Some b ->
  captureCanvasBuffer H RETRY_ATTEMPTS w = (Ok b, evaluated w).
Proof.
  intros Hb. unfold captureCanvasBuffer, RETRY_ATTEMPTS. simpl. unfold try_catch.
  rewrite (captureAttempt_usable _ _ _ Hb). reflexivity.
Qed.

Lemma dragPan_ok dx dy w :
  page_drag_ok H (drags w) = true ->
  dragPan H dx dy w
  = (Ok tt, mkWorld (evals w) (S (drags w)) (files w) (trace w ++ [Drag dx dy])).
Proof. intros E. unfold dragPan. rewrite E. reflexivity. Qed.

Lemma edgeLoop_step dx dy prefix atCap fuel i c last w buf :
  page_drag_ok H (drags w) = true ->
  usable H (evals w) = Some buf ->
  edgeLoop H dx dy prefix atCap (S fuel) i c last w
  = let h := md5 H buf in
    let c' := if String.eqb h last then S c else O in
    let last' := if String.eqb h last then last else h in
    let w1 := scanned dx dy (path_join (CAP_DIR H) (prefix +:+ pretty i +:+ ".png")) buf w in
    if (MAX_IDENTICAL_TO_EDGE <=? c')%nat
    then (Ok (mkEdgeMeta (i + 1) last'), w1)
    else edgeLoop H dx dy prefix atCap fuel (S i) c' last' w1.
Proof.
  intros Hd Hu. cbn [edgeLoop].
  rewrite (run_bind_ok _ _ _ _ _ (dragPan_ok dx dy w Hd)).
  rewrite run_bind. unfold waitForTimeout at 1.
  erewrite run_bind_ok; [|apply capture_fed; exact Hu].
  cbv zeta. rewrite run_bind. unfold writeFile at 1.
  unfold scanned, evaluated, log_event; cbn [evals drags files trace].
  rewrite <- !app_assoc. cbn [app].
  destruct (MAX_IDENTICAL_TO_EDGE <=? _)%nat; reflexivity.
Qed.

Lemma pans_ok_scanned dx dy p b w : pans_ok H w -> pans_ok H (scanned dx dy p b w).
Proof. intros Hp k. simpl. rewrite <- (Hp (S k)). f_equal. lia. Qed.

Lemma feeds_scanned dx dy p b w frames :
  feeds H w frames -> feeds H (scanned dx dy p b w) (fun k => frames (S k)).
Proof. intros Hf k. simpl. rewrite <- (Hf (S k)). f_equal. lia. Qed.

Lemma pans_ok_now w : pans_ok H w -> page_drag_ok H (drags w) = true.
Proof. intros Hp. rewrite <- (Hp 0%nat). f_equal. lia. Qed.

Lemma feeds_now w frames : feeds H w frames -> usable H (evals w) = Some (frames 0%nat).
Proof. intros Hf. rewrite <- (Hf 0%nat). f_equal. lia. Qed.

(** Once the page keeps showing the frame whose hash is [last], the scan
    stops after the pans that bring the run length up to the threshold. *)
Lemma edgeLoop_identical_run dx dy prefix atCap todo : forall fuel i c last w frames,
  pans_ok H w -> feeds H w frames ->
  (forall k, md5 H (frames k) = last) ->
  (c + todo = MAX_IDENTICAL_TO_EDGE)%nat -> (0 < todo)%nat -> (todo <= fuel)%nat ->
  exists w',
    edgeLoop H dx dy prefix atCap fuel i c last w = (Ok (mkEdgeMeta (i + todo) last), w')
    /\ evals w' = (evals w + todo)%nat /\ drags w' = (drags w + todo)%nat.
Proof.
  induction todo as [|todo IH]; intros fuel i c last w frames Hp Hf Hh Hc Hpos Hfuel; [lia|].
  destruct fuel as [|fuel]; [lia|].
  rewrite (edgeLoop_step _ _ _ _ _ _ _ _ _ _ (pans_ok_now _ Hp) (feeds_now _ _ Hf)).
  cbv zeta. rewrite Hh, String.eqb_refl.
  destruct todo as [|todo].
  - replace (MAX_IDENTICAL_TO_EDGE <=? S c)%nat with true
      by (symmetry; apply Nat.leb_le; lia).
    eexists; split; [reflexivity|]. unfold scanned; simpl. lia.
  - replace (MAX_IDENTICAL_TO_EDGE <=? S c)%nat with false
      by (symmetry; apply Nat.leb_gt; lia).
    edestruct (IH fuel (S i) (S c) last) as (w' & E & Hev & Hdr);
      [apply pans_ok_scanned; exact Hp | apply feeds_scanned; exact Hf
      | intros k; apply Hh | lia | lia | lia |].
    exists w'. split; [rewrite E; do 3 f_equal; lia|]. unfold scanned in Hev, Hdr; simpl in Hev, Hdr. lia.
Qed.

Lemma last_cons_default {A} (x d : A) (l : list A) :
  List.last (x :: l) d = List.last l x.
Proof.
  revert x d. induction l as [|y l IH]; intros x d; [reflexivity|].
  change (List.last (y :: l) d = List.last (y :: l) x).
  rewrite (IH y d), (IH y x). reflexivity.
Qed.

(** [hs] distinct hashes, none equal to [last], then the final one for
    ever: the scan performs one pan per hash and three more. *)
Lemma edgeLoop_distinct_then_repeat dx dy prefix atCap (hs : list Hash) :
  forall fuel i last w frames,
  pans_ok H w -> feeds H w frames ->
  (forall k, md5 H (frames k) = nth k hs (List.last hs last)) ->
  NoDup (last :: hs) ->
  (length hs + 3 <= fuel)%nat ->
  exists w',
    edgeLoop H dx dy prefix atCap fuel i 0 last w
    = (Ok (mkEdgeMeta (i + (length hs + 3)) (List.last hs last)), w')
    /\ evals w' = (evals w + (length hs + 3))%nat
    /\ drags w' = (drags w + (length hs + 3))%nat.
Proof.
  induction hs as [|h hs IH]; intros fuel i last w frames Hp Hf Hh Hnd Hfuel.
  - edestruct (edgeLoop_identical_run dx dy prefix atCap 3 fuel i 0%nat last w frames)
      as (w' & E & Hev & Hdr);
      [exact Hp | exact Hf | | reflexivity | lia | simpl in Hfuel; lia |].
    { intros k. rewrite Hh. destruct k; reflexivity. }
    exists w'. simpl. auto.
  - destruct fuel as [|fuel]; [simpl in Hfuel; lia|].
    rewrite (edgeLoop_step _ _ _ _ _ _ _ _ _ _ (pans_ok_now _ Hp) (feeds_now _ _ Hf)).
    cbv zeta. rewrite (Hh 0%nat). cbn [nth].
    apply NoDup_cons in Hnd as [Hnotin Hnd].
    assert (h <> last) as Hne by (intros ->; apply Hnotin; left).
    apply String.eqb_neq in Hne. rewrite Hne. cbn [Nat.leb MAX_IDENTICAL_TO_EDGE].
    edestruct (IH fuel (S i) h) as (w' & E & Hev & Hdr);
      [apply pans_ok_scanned; exact Hp | apply feeds_scanned; exact Hf
      | | exact Hnd | simpl in Hfuel; lia |].
    { intros k. cbv beta. rewrite (Hh (S k)). cbn [nth].
      rewrite last_cons_default. reflexivity. }
    exists w'. rewrite last_cons_default. split; [rewrite E; do 3 f_equal; simpl; lia|].
    unfold scanned in Hev, Hdr; simpl in Hev, Hdr. simpl. lia.
Qed.

End ScanFacts.

(** C1 (as the code has it).  Against a page whose drags all complete and
    whose captures show [length hs] frames with pairwise distinct hashes,
    none equal to the initial hash, and then the final frame for ever,
    both edge scans return [steps = length hs + 3]: the count is that of
    the pan iterations performed, which includes the three pans that
    confirm the identical run.  The scan performed exactly that many
    drags and evaluations. *)
Theorem edge_scan_counts_confirming_pans (H : Host) (w : World)
    (initialHash : Hash) (hs : list Hash) (frames : nat -> Buffer) (direction : string) :
  pans_ok H w ->
  feeds H w frames ->
  (forall k, md5 H (frames k) = nth k hs (List.last hs initialHash)) ->
  NoDup (initialHash :: hs) ->
  (length hs + 3 <= 2000)%nat ->
  fst (findEdgeHoriz H initialHash direction w)
    = Ok (mkEdgeMeta (length hs + 3) (List.last hs initialHash))
  /\ drags (snd (findEdgeHoriz H initialHash direction w)) = (drags w + (length hs + 3))%nat
  /\ fst (findEdgeVert H initialHash direction w)
    = Ok (mkEdgeMeta (length hs + 3) (List.last hs initialHash))
  /\ drags (snd (findEdgeVert H initialHash direction w)) = (drags w + (length hs + 3))%nat.
Proof.
  intros Hp Hf Hh Hnd Hcap. unfold findEdgeHoriz, findEdgeVert. cbv zeta.
  match goal with |- context [edgeLoop H ?dx 0 ?p HorizCapReached _ _ _ _ _] =>
    destruct (edgeLoop_distinct_then_repeat H dx 0 p HorizCapReached hs
                2000 0 initialHash w frames Hp Hf Hh Hnd Hcap) as (wh & Eh & _ & Hdh)
  end.
  match goal with |- context [edgeLoop H 0 ?dy ?p VertCapReached _ _ _ _ _] =>
    destruct (edgeLoop_distinct_then_repeat H 0 dy p VertCapReached hs
                2000 0 initialHash w frames Hp Hf Hh Hnd Hcap) as (wv & Ev & _ & Hdv)
  end.
  rewrite Eh, Ev. simpl. auto.
Qed.

Lemma edge_scan_counts_confirming_pans_witness :
  fst (findEdgeHoriz twoFrames "i" "right" w0) = Ok (mkEdgeMeta 5 "b")
  /\ drags (snd (findEdgeHoriz twoFrames "i" "right" w0)) = 5%nat
  /\ fst (findEdgeVert twoFrames "i" "right" w0) = Ok (mkEdgeMeta 5 "b")
  /\ drags (snd (findEdgeVert twoFrames "i" "right" w0)) = 5%nat.
Proof.
  apply (edge_scan_counts_confirming_pans twoFrames w0 "i" ["a"; "b"]
           (fun k => match k with O => "a" | _ => "b" end) "right").
  - intros k. reflexivity.
  - intros k. destruct k; reflexivity.
  - intros [|[|[|k]]]; reflexivity.
  - refine (bool_decide_unpack _ _). vm_compute. exact I.
  - simpl. lia.
Defined.

(** C1 as stated fails: two distinct frames and then a still picture make
    the scan return 5 steps, not 2. *)
Lemma edge_scan_two_frames_counterexample :
  NoDup ["i"; "a"; "b"]
  /\ fst (findEdgeHoriz twoFrames "i" "right" w0) = Ok (mkEdgeMeta 5 "b")
  /\ fst (findEdgeVert twoFrames "i" "down" w0) = Ok (mkEdgeMeta 5 "b")
  /\ 5%nat <> length ["a"; "b"].
Proof.
  split; [refine (bool_decide_unpack _ _); vm_compute; exact I|].
  split; [vm_compute; reflexivity|]. split; [vm_compute; reflexivity|]. simpl. lia.
Qed.

(** * Pans *)

Lemma pansOf_app tr1 tr2 : pansOf (tr1 ++ tr2) = pansOf tr1 ++ pansOf tr2.
Proof. unfold pansOf. apply omap_app. Qed.

Lemma panSum_app tr1 tr2 :
  panSum (tr1 ++ tr2)
  = (fst (panSum tr1) + fst (panSum tr2), snd (panSum tr1) + snd (panSum tr2)).
Proof.
  unfold panSum. rewrite pansOf_app.
  induction (pansOf tr1) as [|d ds IH]; simpl.
  - destruct (foldr _ _ _); reflexivity.
  - rewrite IH. simpl. f_equal; lia.
Qed.

Section PanFacts.
Variable H : Host.

Lemma pans_ok_panned n dx dy ms w : pans_ok H w -> pans_ok H (panned n dx dy ms w).
Proof. intros Hp k. simpl. rewrite <- (Hp (n + k)%nat). f_equal. lia. Qed.

Lemma panned_S n dx dy ms w :
  panned n dx dy ms
    (log_event (Wait ms)
       (mkWorld (evals w) (S (drags w)) (files w) (trace w ++ [Drag dx dy])))
  = panned (S n) dx dy ms w.
Proof.
  unfold panned, log_event; simpl. f_equal; [lia|].
  rewrite <- !app_assoc. reflexivity.
Qed.

(** A loop of [n] drag-then-wait passes, when the drags complete. *)
Lemma drag_wait_loop n dx dy ms : forall start w,
  pans_ok H w ->
  for_range n start (fun _ _ => dragPan H dx dy ;; waitForTimeout ms) tt w
  = (Ok tt, panned n dx dy ms w).
Proof.
  induction n as [|n IH]; intros start w Hp.
  - simpl. unfold panned. rewrite Nat.add_0_r, app_nil_r. destruct w; reflexivity.
  - cbn [for_range]. rewrite run_bind, run_bind.
    rewrite (dragPan_ok H dx dy w (pans_ok_now H w Hp)).
    unfold waitForTimeout at 1.
    rewrite IH; [rewrite panned_S; reflexivity|].
    intros k. simpl. rewrite <- (Hp (S k)). f_equal. lia.
Qed.

End PanFacts.

(** C10.  When its drags complete, the alignment sequence run just before
    the raster scan issues three pans of [+stepX], three of [+stepY],
    three of [-stepX] and three of [-stepY] and nothing else but waits:
    on the horizontal axis three pans out and three back, likewise on the
    vertical axis, so its pan deltas sum to zero on both axes and the
    script's accumulated displacement is what it was before. *)
Theorem presweep_alignment_is_neutral (H : Host) (w : World) :
  pans_ok H w ->
  exists evs,
    presweepAlign H w
      = (Ok tt, mkWorld (evals w) (drags w + 12) (files w) (trace w ++ evs))
    /\ pansOf evs
       = replicate 3 (stepX, 0) ++ replicate 3 (0, stepY)
         ++ replicate 3 (- stepX, 0) ++ replicate 3 (0, - stepY)
    /\ filter (fun d => fst d <> 0) (pansOf evs)
       = replicate 3 (stepX, 0) ++ replicate 3 (- stepX, 0)
    /\ filter (fun d => snd d <> 0) (pansOf evs)
       = replicate 3 (0, stepY) ++ replicate 3 (0, - stepY)
    /\ panSum evs = (0, 0)
    /\ panSum (trace w ++ evs) = panSum (trace w).
Proof.
  intros Hp.
  exists (concat (replicate 3 [Drag stepX 0; Wait 50])
          ++ concat (replicate 3 [Drag 0 stepY; Wait 50])
          ++ concat (replicate 3 [Drag (- stepX) 0; Wait 50])
          ++ concat (replicate 3 [Drag 0 (- stepY); Wait 50])).
  split.
  - unfold presweepAlign.
    rewrite (run_bind_ok _ _ _ _ _ (drag_wait_loop H 3 stepX 0 50 0%nat w Hp)).
    pose proof (pans_ok_panned H 3 stepX 0 50 w Hp) as Hp1.
    rewrite (run_bind_ok _ _ _ _ _ (drag_wait_loop H 3 0 stepY 50 0%nat _ Hp1)).
    pose proof (pans_ok_panned H 3 0 stepY 50 _ Hp1) as Hp2.
    rewrite (run_bind_ok _ _ _ _ _ (drag_wait_loop H 3 (- stepX) 0 50 0%nat _ Hp2)).
    pose proof (pans_ok_panned H 3 (- stepX) 0 50 _ Hp2) as Hp3.
    rewrite (drag_wait_loop H 3 0 (- stepY) 50 0%nat _ Hp3).
    unfold panned; cbn [evals drags files trace].
    f_equal. f_equal; [lia|]. rewrite <- !app_assoc. reflexivity.
  - split; [reflexivity|]. split; [reflexivity|]. split; [reflexivity|].
    split; [reflexivity|]. rewrite panSum_app.
    destruct (panSum (trace w)) as [x y]. simpl. f_equal; lia.
Qed.

Lemma presweep_alignment_is_neutral_witness :
  exists evs,
    presweepAlign twoFrames w0 = (Ok tt, mkWorld 0 12 ∅ ([] ++ evs))
    /\ pansOf evs
       = replicate 3 (stepX, 0) ++ replicate 3 (0, stepY)
         ++ replicate 3 (- stepX, 0) ++ replicate 3 (0, - stepY)
    /\ filter (fun d => fst d <> 0) (pansOf evs)
       = replicate 3 (stepX, 0) ++ replicate 3 (- stepX, 0)
    /\ filter (fun d => snd d <> 0) (pansOf evs)
       = replicate 3 (0, stepY) ++ replicate 3 (0, - stepY)
    /\ panSum evs = (0, 0)
    /\ panSum ([] ++ evs) = panSum [].
Proof.
  apply (presweep_alignment_is_neutral twoFrames w0). intros k. reflexivity.
Defined.

(** * Re-homing *)

(** ** When neither axis fell back *)

Lemma panSum_same_pans tr1 tr2 : pansOf tr1 = pansOf tr2 -> panSum tr1 = panSum tr2.
Proof. unfold panSum. intros ->. reflexivity. Qed.

Lemma pansOf_drag_waits n dx dy ms :
  pansOf (concat (replicate n [Drag dx dy; Wait ms])) = replicate n (dx, dy).
Proof. induction n as [|n IH]; [reflexivity|]. cbn [replicate concat]. cbn. f_equal. exact IH. Qed.

Lemma panSum_replicate n dx dy acc :
  foldr (fun d acc => (fst d + fst acc, snd d + snd acc)) acc (replicate n (dx, dy))
  = (Z.of_nat n * dx + fst acc, Z.of_nat n * dy + snd acc).
Proof.
  induction n as [|n IH]; [destruct acc; reflexivity|].
  cbn [replicate foldr]. rewrite IH. cbn [fst snd]. f_equal; lia.
Qed.

Section RehomeFacts.
Variable H : Host.

Lemma captureAttempt_world w : snd (captureAttempt H w) = evaluated w.
Proof.
  destruct (usable H (evals w)) as [b|] eqn:E.
  - rewrite (captureAttempt_usable H w b E). reflexivity.
  - destruct (captureAttempt_unusable H w E) as [e ->]. reflexivity.
Qed.

(** Capturing moves nothing. *)
Lemma captureLoop_pans n : forall w,
  pansOf (trace (snd (captureLoop H n w))) = pansOf (trace w).
Proof.
  induction n as [|n IH]; intros w; [reflexivity|].
  cbn [captureLoop]. unfold try_catch.
  pose proof (captureAttempt_world w) as Ew.
  destruct (captureAttempt H w) as [[b|e] w1]; cbn [snd] in Ew; subst w1.
  - cbn. rewrite pansOf_app. cbn. apply app_nil_r.
  - rewrite run_bind. unfold waitForTimeout at 1. rewrite IH.
    cbn. rewrite !pansOf_app. cbn. rewrite !app_nil_r. reflexivity.
Qed.

(** A scan that finds its edge has dragged once per step, always by the
    same vector, and has done nothing else that moves the view. *)
Lemma edgeLoop_pans dx dy prefix atCap fuel : forall i c last w meta w',
  edgeLoop H dx dy prefix atCap fuel i c last w = (Ok meta, w') ->
  (i < steps meta)%nat
  /\ pansOf (trace w') = pansOf (trace w) ++ replicate (steps meta - i) (dx, dy).
Proof.
  induction fuel as [|fuel IH]; intros i c last w meta w' E; [discriminate|].
  cbn [edgeLoop] in E.
  apply bind_ok_inv in E as ([] & w1 & E1 & E).
  apply bind_ok_inv in E as ([] & w2 & E2 & E).
  apply bind_ok_inv in E as (buf & w3 & E3 & E). cbv zeta in E.
  apply bind_ok_inv in E as ([] & w4 & E4 & E).
  assert (pansOf (trace w4) = pansOf (trace w) ++ [(dx, dy)]) as Hw4.
  { unfold writeFile in E4. injection E4 as <-. cbn [trace]. rewrite pansOf_app.
    cbn. rewrite app_nil_r.
    pose proof (captureLoop_pans RETRY_ATTEMPTS w2) as Hc.
    unfold captureCanvasBuffer in E3. rewrite E3 in Hc. cbn [snd] in Hc. rewrite Hc.
    unfold waitForTimeout in E2. injection E2 as <-. cbn [trace log_event].
    rewrite pansOf_app. cbn. rewrite app_nil_r.
    unfold dragPan in E1. destruct (page_drag_ok H (drags w)); [|discriminate].
    injection E1 as <-. cbn [trace]. rewrite pansOf_app. reflexivity. }
  destruct (MAX_IDENTICAL_TO_EDGE <=? _)%nat.
  - injection E as <- <-. cbn [steps]. split; [lia|].
    rewrite Hw4. replace (i + 1 - i)%nat with 1%nat by lia. reflexivity.
  - apply IH in E as [Hlt E]. split; [lia|]. rewrite E, Hw4, <- app_assoc.
    f_equal. replace (steps meta - i)%nat with (S (steps meta - S i)) by lia.
    reflexivity.
Qed.

Lemma scanAndRehome_first_directions w buf w1 hMeta w2 vMeta w3 :
  captureCanvasBuffer H RETRY_ATTEMPTS w = (Ok buf, w1) ->
  findEdgeHoriz H (md5 H buf) "right" w1 = (Ok hMeta, w2) ->
  findEdgeVert H (md5 H buf) "down" w2 = (Ok vMeta, w3) ->
  pans_ok H w3 ->
  scanAndRehome H w
  = (Ok (hMeta, vMeta),
     panned (steps hMeta) (- (- stepX * reverseSign hMeta)) 0 100
       (panned (steps vMeta) 0 (- (- stepY * reverseSign vMeta)) 100 w3)).
Proof.
  intros Ec Eh Ev Hp. unfold scanAndRehome.
  rewrite (run_bind_ok _ _ _ _ _ Ec). cbv zeta.
  assert (horizMeta H (md5 H buf) w1 = (Ok hMeta, w2)) as Ehm.
  { unfold horizMeta. rewrite try_catch_ok with (a := hMeta); rewrite Eh; reflexivity. }
  assert (vertMeta H (md5 H buf) w2 = (Ok vMeta, w3)) as Evm.
  { unfold vertMeta. rewrite try_catch_ok with (a := vMeta); rewrite Ev; reflexivity. }
  rewrite (run_bind_ok _ _ _ _ _ Ehm), (run_bind_ok _ _ _ _ _ Evm).
  unfold rehome. cbv zeta.
  rewrite run_bind, run_bind.
  rewrite (drag_wait_loop H (steps vMeta) _ _ 100 0%nat w3 Hp).
  rewrite (drag_wait_loop H (steps hMeta) _ _ 100 0%nat _
             (pans_ok_panned H _ _ _ _ _ Hp)).
  reflexivity.
Qed.

Lemma findEdgeHoriz_pans initialHash direction w meta w' :
  findEdgeHoriz H initialHash direction w = (Ok meta, w') ->
  pansOf (trace w')
  = pansOf (trace w)
    ++ replicate (steps meta)
         (stepX * (if String.eqb direction "right" then -1 else 1), 0).
Proof.
  unfold findEdgeHoriz. intros E.
  apply edgeLoop_pans in E as [_ E]. rewrite Nat.sub_0_r in E. exact E.
Qed.

Lemma findEdgeVert_pans initialHash direction w meta w' :
  findEdgeVert H initialHash direction w = (Ok meta, w') ->
  pansOf (trace w')
  = pansOf (trace w)
    ++ replicate (steps meta)
         (0, stepY * (if String.eqb direction "down" then -1 else 1)).
Proof.
  unfold findEdgeVert. intros E.
  apply edgeLoop_pans in E as [_ E]. rewrite Nat.sub_0_r in E. exact E.
Qed.

Lemma rehome_cancels_first_direction_scans w buf w1 hMeta w2 vMeta w3 :
  captureCanvasBuffer H RETRY_ATTEMPTS w = (Ok buf, w1) ->
  findEdgeHoriz H (md5 H buf) "right" w1 = (Ok hMeta, w2) ->
  findEdgeVert H (md5 H buf) "down" w2 = (Ok vMeta, w3) ->
  pans_ok H w3 ->
  exists w4,
    scanAndRehome H w = (Ok (hMeta, vMeta), w4)
    /\ panSum (trace w4) = panSum (trace w).
Proof.
  intros Ec Eh Ev Hp. eexists. split.
  { apply (scanAndRehome_first_directions w buf w1 hMeta w2 vMeta w3); assumption. }
  apply findEdgeHoriz_pans in Eh. apply findEdgeVert_pans in Ev.
  pose proof (captureLoop_pans RETRY_ATTEMPTS w) as Hc.
  unfold captureCanvasBuffer in Ec. rewrite Ec in Hc. cbn [snd] in Hc.
  unfold panSum, panned. cbn [trace].
  rewrite !pansOf_app, !pansOf_drag_waits, Ev, Eh, Hc.
  rewrite !foldr_app, !panSum_replicate. cbn [fst snd].
  match goal with |- foldr _ ?acc _ = _ => replace acc with (0, 0) end; [reflexivity|].
  cbn [String.eqb Ascii.eqb Bool.eqb]. unfold reverseSign.
  change stepX with 960. change stepY with 600.
  destruct (lastHash vMeta =? "")%string, (lastHash hMeta =? "")%string; f_equal; lia.
Qed.

End RehomeFacts.

(** ** Scans that stop at the cap *)

Section CapFacts.
Variable H : Host.

Lemma captureLoop_throws n : forall w e w',
  captureLoop H n w = (Throw e, w') -> e = CaptureFailed.
Proof.
  induction n as [|n IH]; intros w e w' E.
  - cbn in E. injection E as <- _. reflexivity.
  - cbn [captureLoop] in E. unfold try_catch in E.
    destruct (captureAttempt H w) as [[b|e1] w1]; [discriminate|].
    rewrite run_bind in E. unfold waitForTimeout at 1 in E. apply IH in E. exact E.
Qed.

(** A scan that gives up at the cap has dragged [fuel] times. *)
Lemma edgeLoop_cap_pans dx dy prefix atCap fuel : forall i c last w w',
  atCap <> DragRejected -> atCap <> CaptureFailed ->
  edgeLoop H dx dy prefix atCap fuel i c last w = (Throw atCap, w') ->
  pansOf (trace w') = pansOf (trace w) ++ replicate fuel (dx, dy).
Proof.
  induction fuel as [|fuel IH]; intros i c last w w' Hnd Hnc E.
  - cbn in E. injection E as <-. cbn. rewrite app_nil_r. reflexivity.
  - cbn [edgeLoop] in E.
    apply bind_throw_inv in E as [E|([] & w1 & E1 & E)].
    { unfold dragPan in E. destruct (page_drag_ok H (drags w)); [discriminate|].
      injection E as E _. congruence. }
    apply bind_throw_inv in E as [E|([] & w2 & E2 & E)]; [discriminate|].
    apply bind_throw_inv in E as [E|(buf & w3 & E3 & E)].
    { apply captureLoop_throws in E. congruence. }
    cbv zeta in E.
    apply bind_throw_inv in E as [E|([] & w4 & E4 & E)]; [discriminate|].
    assert (pansOf (trace w4) = pansOf (trace w) ++ [(dx, dy)]) as Hw4.
    { unfold writeFile in E4. injection E4 as <-. cbn [trace]. rewrite pansOf_app.
      cbn. rewrite app_nil_r.
      pose proof (captureLoop_pans H RETRY_ATTEMPTS w2) as Hc.
      unfold captureCanvasBuffer in E3. rewrite E3 in Hc. cbn [snd] in Hc. rewrite Hc.
      unfold waitForTimeout in E2. injection E2 as <-. cbn [trace log_event].
      rewrite pansOf_app. cbn. rewrite app_nil_r.
      unfold dragPan in E1. destruct (page_drag_ok H (drags w)); [|discriminate].
      injection E1 as <-. cbn [trace]. rewrite pansOf_app. reflexivity. }
    destruct (MAX_IDENTICAL_TO_EDGE <=? _)%nat; [discriminate|].
    apply IH in E; [|assumption..]. rewrite E, Hw4, <- app_assoc. reflexivity.
Qed.

(** Against a page whose successive frames always differ, the scan runs
    into the cap. *)
Lemma edgeLoop_never_settles dx dy prefix atCap fuel : forall i last w frames,
  pans_ok H w -> feeds H w frames ->
  ((0 < fuel)%nat -> md5 H (frames 0%nat) <> last) ->
  (forall k, (S k < fuel)%nat -> md5 H (frames (S k)) <> md5 H (frames k)) ->
  exists w',
    edgeLoop H dx dy prefix atCap fuel i 0 last w = (Throw atCap, w')
    /\ evals w' = (evals w + fuel)%nat /\ drags w' = (drags w + fuel)%nat.
Proof.
  induction fuel as [|fuel IH]; intros i last w frames Hp Hf H0 Hk.
  - exists w. cbn. split; [reflexivity|]. lia.
  - rewrite (edgeLoop_step _ _ _ _ _ _ _ _ _ _ _ (pans_ok_now _ _ Hp) (feeds_now _ _ _ Hf)).
    cbv zeta. assert (md5 H (frames 0%nat) <> last) as Hne by (apply H0; lia).
    apply String.eqb_neq in Hne. rewrite Hne. cbn [Nat.leb MAX_IDENTICAL_TO_EDGE].
    edestruct (IH (S i) (md5 H (frames 0%nat))) as (w' & E & Hev & Hdr);
      [apply pans_ok_scanned; exact Hp | apply feeds_scanned; exact Hf | | |].
    + intros Hpos. apply Hk. lia.
    + intros k Hlt. apply Hk. lia.
    + exists w'. split; [exact E|]. unfold scanned in Hev, Hdr; cbn in Hev, Hdr. lia.
Qed.

End CapFacts.

(** ** The page of 2001 changing frames *)

Lemma syntheticHost_pans_ok frames w : pans_ok (syntheticHost frames) w.
Proof. intros k. reflexivity. Qed.

Lemma syntheticHost_feeds frames w :
  (forall k, frames k <> "") ->
  feeds (syntheticHost frames) w (fun k => frames (evals w + k)%nat).
Proof.
  intros Hne k. unfold usable. cbn.
  destruct (String.eqb_spec (frames (evals w + k)%nat) ""); [|reflexivity].
  exfalso. eapply Hne. eassumption.
Qed.

Lemma changingFrames_nonempty k : changingFrames k <> "".
Proof. unfold changingFrames. destruct (k <=? 2000)%nat; discriminate. Qed.

Lemma changingFrames_early k : (k <= 2000)%nat -> changingFrames k = "f" +:+ pretty k.
Proof. intros Hk. unfold changingFrames. apply Nat.leb_le in Hk. rewrite Hk. reflexivity. Qed.

Lemma changingFrames_late k : (2000 < k)%nat -> changingFrames k = "z".
Proof. intros Hk. unfold changingFrames. apply Nat.leb_gt in Hk. rewrite Hk. reflexivity. Qed.

Lemma changingFrames_differ k :
  (S k <= 2000)%nat -> changingFrames (S k) <> changingFrames k.
Proof.
  intros Hk. rewrite !changingFrames_early by lia. intros E.
  apply (String.app_inj "f") in E. apply (inj (pretty (A := nat))) in E. lia.
Qed.

Lemma capThenEdge_feeds w :
  feeds capThenEdge w (fun k => changingFrames (evals w + k)%nat).
Proof. apply syntheticHost_feeds, changingFrames_nonempty. Qed.

(** Started within the changing frames, a scan of either axis stops at
    the cap, 2000 evaluations and drags later. *)
Lemma capThenEdge_scan_hits_cap dx dy prefix atCap last w :
  (evals w <= 1)%nat -> changingFrames (evals w) <> last ->
  exists w',
    edgeLoop capThenEdge dx dy prefix atCap 2000 0 0 last w = (Throw atCap, w')
    /\ evals w' = (evals w + 2000)%nat /\ drags w' = (drags w + 2000)%nat.
Proof.
  intros Hw Hlast.
  apply (edgeLoop_never_settles capThenEdge dx dy prefix atCap 2000 0%nat last w
           (fun k => changingFrames (evals w + k)%nat)).
  - apply syntheticHost_pans_ok.
  - apply capThenEdge_feeds.
  - intros _. cbn [md5 capThenEdge syntheticHost]. rewrite Nat.add_0_r. exact Hlast.
  - intros k Hk. cbn [md5 capThenEdge syntheticHost].
    replace (evals w + S k)%nat with (S (evals w + k)) by lia.
    apply changingFrames_differ. lia.
Qed.

(** Started on the still picture, a scan of either axis settles after
    four pans when the hash it starts from is not the picture's. *)
Lemma capThenEdge_scan_on_still dx dy prefix atCap last w :
  (2000 < evals w)%nat -> last <> "z" ->
  exists w',
    edgeLoop capThenEdge dx dy prefix atCap 2000 0 0 last w
    = (Ok (mkEdgeMeta 4 "z"), w')
    /\ evals w' = (evals w + 4)%nat /\ drags w' = (drags w + 4)%nat.
Proof.
  intros Hw Hlast.
  apply (edgeLoop_distinct_then_repeat capThenEdge dx dy prefix atCap ["z"] 2000 0%nat last w
           (fun k => changingFrames (evals w + k)%nat)).
  - apply syntheticHost_pans_ok.
  - apply capThenEdge_feeds.
  - intros k. cbn [md5 capThenEdge syntheticHost]. rewrite changingFrames_late by lia.
    destruct k as [|[|k]]; reflexivity.
  - apply NoDup_cons. split; [|apply NoDup_singleton].
    intros Hin. apply list_elem_of_singleton in Hin. contradiction.
  - cbn. lia.
Qed.

(** Started on the last changing frame, a scan settles after five pans. *)
Lemma capThenEdge_scan_last_change dx dy prefix atCap last w :
  evals w = 2000%nat -> last <> changingFrames 2000 -> last <> "z" ->
  exists w',
    edgeLoop capThenEdge dx dy prefix atCap 2000 0 0 last w
    = (Ok (mkEdgeMeta 5 "z"), w')
    /\ evals w' = (evals w + 5)%nat /\ drags w' = (drags w + 5)%nat.
Proof.
  intros Hw Hl1 Hl2.
  apply (edgeLoop_distinct_then_repeat capThenEdge dx dy prefix atCap
           [changingFrames 2000; "z"] 2000 0%nat last w
           (fun k => changingFrames (evals w + k)%nat)).
  - apply syntheticHost_pans_ok.
  - apply capThenEdge_feeds.
  - intros k. cbn [md5 capThenEdge syntheticHost]. rewrite Hw.
    destruct k as [|k]; [reflexivity|].
    rewrite changingFrames_late by lia. destruct k as [|[|k]]; reflexivity.
  - apply NoDup_cons. split.
    + rewrite !not_elem_of_cons. split; [exact Hl1|]. split; [exact Hl2|]. apply not_elem_of_nil.
    + apply NoDup_cons. split; [|apply NoDup_singleton].
      rewrite not_elem_of_cons. split; [|apply not_elem_of_nil].
      rewrite changingFrames_early by lia. discriminate.
  - cbn. lia.
Qed.

Section ChangingPage.
Variables (initialHash direction : string) (w : World).

Lemma capThenEdge_horiz_cap :
  (evals w <= 1)%nat -> changingFrames (evals w) <> initialHash ->
  exists w',
    findEdgeHoriz capThenEdge initialHash direction w = (Throw HorizCapReached, w')
    /\ evals w' = (evals w + 2000)%nat /\ drags w' = (drags w + 2000)%nat.
Proof. intros Hw Hi. unfold findEdgeHoriz. apply capThenEdge_scan_hits_cap; assumption. Qed.

Lemma capThenEdge_vert_cap :
  (evals w <= 1)%nat -> changingFrames (evals w) <> initialHash ->
  exists w',
    findEdgeVert capThenEdge initialHash direction w = (Throw VertCapReached, w')
    /\ evals w' = (evals w + 2000)%nat /\ drags w' = (drags w + 2000)%nat.
Proof. intros Hw Hi. unfold findEdgeVert. apply capThenEdge_scan_hits_cap; assumption. Qed.

Lemma capThenEdge_horiz_five :
  evals w = 2000%nat -> initialHash <> changingFrames 2000 -> initialHash <> "z" ->
  exists w',
    findEdgeHoriz capThenEdge initialHash direction w = (Ok (mkEdgeMeta 5 "z"), w').
Proof.
  intros Hw H1 H2. unfold findEdgeHoriz. cbv zeta.
  match goal with
  | |- exists _, edgeLoop _ ?dx ?dy ?p ?e _ _ _ _ _ = _ =>
      destruct (capThenEdge_scan_last_change dx dy p e initialHash w Hw H1 H2) as (w' & E & _)
  end.
  exists w'. exact E.
Qed.

Lemma capThenEdge_vert_five :
  evals w = 2000%nat -> initialHash <> changingFrames 2000 -> initialHash <> "z" ->
  exists w',
    findEdgeVert capThenEdge initialHash direction w = (Ok (mkEdgeMeta 5 "z"), w').
Proof.
  intros Hw H1 H2. unfold findEdgeVert. cbv zeta.
  match goal with
  | |- exists _, edgeLoop _ ?dx ?dy ?p ?e _ _ _ _ _ = _ =>
      destruct (capThenEdge_scan_last_change dx dy p e initialHash w Hw H1 H2) as (w' & E & _)
  end.
  exists w'. exact E.
Qed.

Lemma capThenEdge_horiz_four :
  (2000 < evals w)%nat -> initialHash <> "z" ->
  exists w',
    findEdgeHoriz capThenEdge initialHash direction w = (Ok (mkEdgeMeta 4 "z"), w')
    /\ evals w' = (evals w + 4)%nat.
Proof.
  intros Hw H2. unfold findEdgeHoriz. cbv zeta.
  match goal with
  | |- exists _, edgeLoop _ ?dx ?dy ?p ?e _ _ _ _ _ = _ /\ _ =>
      destruct (capThenEdge_scan_on_still dx dy p e initialHash w Hw H2) as (w' & E & Hev & _)
  end.
  exists w'. auto.
Qed.

Lemma capThenEdge_vert_four :
  (2000 < evals w)%nat -> initialHash <> "z" ->
  exists w',
    findEdgeVert capThenEdge initialHash direction w = (Ok (mkEdgeMeta 4 "z"), w')
    /\ evals w' = (evals w + 4)%nat.
Proof.
  intros Hw H2. unfold findEdgeVert. cbv zeta.
  match goal with
  | |- exists _, edgeLoop _ ?dx ?dy ?p ?e _ _ _ _ _ = _ /\ _ =>
      destruct (capThenEdge_scan_on_still dx dy p e initialHash w Hw H2) as (w' & E & Hev & _)
  end.
  exists w'. auto.
Qed.

End ChangingPage.

(** ** After a fallback *)

Section FallbackRehomeFacts.
Variable H : Host.

Lemma findEdgeHoriz_cap_pans initialHash direction w w' :
  findEdgeHoriz H initialHash direction w = (Throw HorizCapReached, w') ->
  pansOf (trace w')
  = pansOf (trace w)
    ++ replicate 2000 (stepX * (if String.eqb direction "right" then -1 else 1), 0).
Proof.
  unfold findEdgeHoriz. intros E. apply edgeLoop_cap_pans in E; [exact E|discriminate..].
Qed.

(** When the rightward scan stops at the cap, the leftward scan finds the
    edge and the downward scan finds it at once, the re-homing (its drags
    completing) leaves the pans issued so far summing to
    [960 * (2 * steps - 2000)] on the horizontal axis: the 2000 drags of
    the failed scan stay, and the successful scan's drags are doubled. *)
Lemma rehome_after_horizontal_fallback w buf w1 w1' hMeta w2 vMeta w3 :
  captureCanvasBuffer H RETRY_ATTEMPTS w = (Ok buf, w1) ->
  findEdgeHoriz H (md5 H buf) "right" w1 = (Throw HorizCapReached, w1') ->
  findEdgeHoriz H (md5 H buf) "left" w1' = (Ok hMeta, w2) ->
  findEdgeVert H (md5 H buf) "down" w2 = (Ok vMeta, w3) ->
  pans_ok H w3 ->
  exists w4,
    scanAndRehome H w = (Ok (hMeta, vMeta), w4)
    /\ panSum (trace w4)
       = (fst (panSum (trace w)) + 960 * (2 * Z.of_nat (steps hMeta) - 2000),
          snd (panSum (trace w))).
Proof.
  intros Ec Eh Eh' Ev Hp. eexists. split.
  { unfold scanAndRehome.
    rewrite (run_bind_ok _ _ _ _ _ Ec). cbv zeta.
    assert (horizMeta H (md5 H buf) w1 = (Ok hMeta, w2)) as Ehm.
    { unfold horizMeta. rewrite try_catch_throw with (e := HorizCapReached);
        rewrite Eh; [exact Eh'|reflexivity]. }
    assert (vertMeta H (md5 H buf) w2 = (Ok vMeta, w3)) as Evm.
    { unfold vertMeta. rewrite try_catch_ok with (a := vMeta); rewrite Ev; reflexivity. }
    rewrite (run_bind_ok _ _ _ _ _ Ehm), (run_bind_ok _ _ _ _ _ Evm).
    unfold rehome. cbv zeta. rewrite run_bind, run_bind.
    rewrite (drag_wait_loop H (steps vMeta) _ _ 100 0%nat w3 Hp).
    rewrite (drag_wait_loop H (steps hMeta) _ _ 100 0%nat _
               (pans_ok_panned H _ _ _ _ _ Hp)).
    reflexivity. }
  apply findEdgeHoriz_cap_pans in Eh. apply findEdgeHoriz_pans in Eh'.
  apply findEdgeVert_pans in Ev.
  pose proof (captureLoop_pans H RETRY_ATTEMPTS w) as Hc.
  unfold captureCanvasBuffer in Ec. rewrite Ec in Hc. cbn [snd] in Hc.
  unfold panSum, panned. cbn [trace].
  rewrite !pansOf_app, !pansOf_drag_waits, Ev, Eh', Eh, Hc.
  rewrite !foldr_app, !panSum_replicate. cbn [fst snd].
  generalize (pansOf (trace w)). intros l.
  match goal with |- foldr _ ?acc _ = _ =>
    replace acc with (960 * (2 * Z.of_nat (steps hMeta) - 2000), 0)
  end.
  - generalize (960 * (2 * Z.of_nat (steps hMeta) - 2000)). intros z.
    induction l as [|d l IH]; cbn [foldr fst snd]; [f_equal; lia|].
    rewrite IH. cbn [fst snd]. f_equal; lia.
  - cbn [String.eqb Ascii.eqb Bool.eqb]. unfold reverseSign.
    change stepX with 960. change stepY with 600.
    change (Math_round (inject_Z VIEWPORT_width * STEP_FRACTION)) with 960.
    change (Math_round (inject_Z VIEWPORT_height * STEP_FRACTION)) with 600.
    change (Z.of_nat 2000) with 2000.
    destruct (lastHash vMeta =? "")%string, (lastHash hMeta =? "")%string; f_equal; lia.
Qed.

End FallbackRehomeFacts.

(** C8, the failing run.  The page shows 2001 differing frames and then a
    still picture: the rightward scan stops at its cap after 2000 drags of
    -960, the leftward scan settles after 4 drags of +960, the downward
    scan after 4 drags of -600.  Re-homing then drags 4 times by +600
    (which undoes the vertical scan) and 4 times by +960 (which repeats
    the leftward scan instead of undoing it).  The pan deltas issued up to
    the end of re-homing sum to (-1912320, 0), not to zero. *)
Theorem rehome_after_fallback_does_not_cancel :
  fst (findEdgeHoriz capThenEdge "f0" "right" (evaluated w0)) = Throw HorizCapReached
  /\ fst (scanAndRehome capThenEdge w0) = Ok (mkEdgeMeta 4 "z", mkEdgeMeta 4 "z")
  /\ panSum (trace (snd (scanAndRehome capThenEdge w0))) = (-1912320, 0)
  /\ (-1912320 =? 0)%Z = false.
Proof.
  assert (captureCanvasBuffer capThenEdge RETRY_ATTEMPTS w0 = (Ok "f0", evaluated w0)) as Ec
    by reflexivity.
  destruct (capThenEdge_horiz_cap "f0" "right" (evaluated w0)) as (w1' & Eh & Hev1 & _);
    [cbn; lia | cbn [evals evaluated w0]; rewrite changingFrames_early by lia; discriminate |].
  destruct (capThenEdge_horiz_four "f0" "left" w1') as (w2 & Eh' & Hev2);
    [rewrite Hev1; cbn; lia | discriminate |].
  destruct (capThenEdge_vert_four "f0" "down" w2) as (w3 & Ev & _);
    [rewrite Hev2, Hev1; cbn; lia | discriminate |].
  destruct (rehome_after_horizontal_fallback capThenEdge w0 "f0" (evaluated w0) w1'
              (mkEdgeMeta 4 "z") w2 (mkEdgeMeta 4 "z") w3 Ec Eh Eh' Ev
              (syntheticHost_pans_ok _ _)) as (w4 & E & Hsum).
  rewrite Eh, E. cbn [fst snd]. rewrite Hsum. repeat split; reflexivity.
Qed.

(** * Direction fallback *)

(** C7.  On each axis: when the scan in the first direction stops at the
    iteration cap, the driver runs the opposite-direction scan once, from
    the world the failed scan left, and the axis result is that scan's
    result, so an edge found after [k] steps gives [steps = k]; when the
    first direction succeeds there is no second scan; and the axis is
    fatal only if both scans threw. *)
Theorem edge_direction_fallback (H : Host) (initialHash : Hash) (w : World) :
  (fst (findEdgeHoriz H initialHash "right" w) = Throw HorizCapReached ->
     horizMeta H initialHash w
     = findEdgeHoriz H initialHash "left" (snd (findEdgeHoriz H initialHash "right" w))
     /\ forall k h w',
          findEdgeHoriz H initialHash "left" (snd (findEdgeHoriz H initialHash "right" w))
            = (Ok (mkEdgeMeta k h), w') ->
          horizMeta H initialHash w = (Ok (mkEdgeMeta k h), w'))
  /\ (fst (findEdgeVert H initialHash "down" w) = Throw VertCapReached ->
     vertMeta H initialHash w
     = findEdgeVert H initialHash "up" (snd (findEdgeVert H initialHash "down" w))
     /\ forall k h w',
          findEdgeVert H initialHash "up" (snd (findEdgeVert H initialHash "down" w))
            = (Ok (mkEdgeMeta k h), w') ->
          vertMeta H initialHash w = (Ok (mkEdgeMeta k h), w'))
  /\ (forall m, fst (findEdgeHoriz H initialHash "right" w) = Ok m ->
        horizMeta H initialHash w = findEdgeHoriz H initialHash "right" w)
  /\ (forall m, fst (findEdgeVert H initialHash "down" w) = Ok m ->
        vertMeta H initialHash w = findEdgeVert H initialHash "down" w)
  /\ (forall e, fst (horizMeta H initialHash w) = Throw e ->
        (exists e1, fst (findEdgeHoriz H initialHash "right" w) = Throw e1)
        /\ fst (findEdgeHoriz H initialHash "left"
                  (snd (findEdgeHoriz H initialHash "right" w))) = Throw e)
  /\ (forall e, fst (vertMeta H initialHash w) = Throw e ->
        (exists e1, fst (findEdgeVert H initialHash "down" w) = Throw e1)
        /\ fst (findEdgeVert H initialHash "up"
                  (snd (findEdgeVert H initialHash "down" w))) = Throw e).
Proof.
  unfold horizMeta, vertMeta.
  split; [|split; [|split; [|split; [|split]]]].
  - intros E. rewrite (try_catch_throw _ _ _ _ E). split; [reflexivity|]. intros k h w' E2. exact E2.
  - intros E. rewrite (try_catch_throw _ _ _ _ E). split; [reflexivity|]. intros k h w' E2. exact E2.
  - intros m E. apply (try_catch_ok _ _ _ _ E).
  - intros m E. apply (try_catch_ok _ _ _ _ E).
  - intros e E. apply (try_catch_fatal _ _ _ _ E).
  - intros e E. apply (try_catch_fatal _ _ _ _ E).
Qed.

(** The fallback scenario of the specification: the first direction never
    settles within 2000 pans, the opposite one settles after 5. *)
Lemma edge_direction_fallback_witness :
  fst (findEdgeHoriz capThenEdge "i" "right" w0) = Throw HorizCapReached
  /\ fst (horizMeta capThenEdge "i" w0) = Ok (mkEdgeMeta 5 "z")
  /\ fst (findEdgeVert capThenEdge "i" "down" w0) = Throw VertCapReached
  /\ fst (vertMeta capThenEdge "i" w0) = Ok (mkEdgeMeta 5 "z").
Proof.
  assert (changingFrames (evals w0) <> "i") as H0
    by (rewrite changingFrames_early by (cbn; lia); discriminate).
  assert ("i" <> changingFrames 2000) as H1
    by (rewrite changingFrames_early by lia; discriminate).
  assert ("i" <> "z") as H2 by discriminate.
  assert (evals w0 <= 1)%nat as Hw0 by (cbn; lia).
  destruct (capThenEdge_horiz_cap "i" "right" w0 Hw0 H0) as (wh & Eh & Hevh & _).
  destruct (capThenEdge_vert_cap "i" "down" w0 Hw0 H0) as (wv & Ev & Hevv & _).
  destruct (capThenEdge_horiz_five "i" "left" wh Hevh H1 H2) as (wh' & Eh').
  destruct (capThenEdge_vert_five "i" "up" wv Hevv H1 H2) as (wv' & Ev').
  destruct (edge_direction_fallback capThenEdge "i" w0) as (Fh & Fv & _).
  rewrite Eh in Fh. rewrite Ev in Fv. rewrite Eh, Ev.
  destruct (Fh eq_refl) as [-> _]. destruct (Fv eq_refl) as [-> _].
  cbn [fst snd]. rewrite Eh', Ev'. cbn [fst]. auto.
Defined.

(** * File names *)

Lemma pretty_N_char_digit x s :
  all_digits s = true -> all_digits (String (pretty_N_char x) s) = true.
Proof.
  intros Hs. cbn [all_digits]. rewrite Hs.
  unfold pretty_N_char. repeat case_match; reflexivity.
Qed.

Lemma pretty_N_go_digits x : forall s,
  all_digits s = true -> all_digits (pretty_N_go x s) = true.
Proof.
  induction (N.lt_wf_0 x) as [x _ IH]; intros s Hs.
  destruct (decide (x = 0)%N) as [->|Hx].
  - rewrite pretty_N_go_0. exact Hs.
  - rewrite pretty_N_go_step by lia.
    apply IH; [apply N.div_lt; lia | apply pretty_N_char_digit; exact Hs].
Qed.

Lemma pretty_nat_digits (n : nat) : all_digits (pretty n) = true.
Proof.
  unfold pretty, pretty_nat, pretty, pretty_N.
  case_decide; [reflexivity|]. apply pretty_N_go_digits. reflexivity.
Qed.

(** Two digit strings, each followed by a character that is not a digit:
    equal wholes have equal parts. *)
Lemma digits_then_stop (a : ascii) : forall s1 s2 t1 t2,
  all_digits s1 = true -> all_digits s2 = true ->
  all_digits (String a EmptyString) = false ->
  s1 +:+ String a t1 = s2 +:+ String a t2 -> s1 = s2 /\ t1 = t2.
Proof.
  intros s1. induction s1 as [|c1 s1 IH]; intros [|c2 s2] t1 t2 H1 H2 Ha E.
  - injection E as ->. auto.
  - exfalso. cbn in E. injection E as <- _. cbn [all_digits] in H2, Ha.
    rewrite andb_true_r in Ha. rewrite Ha in H2. discriminate.
  - exfalso. cbn in E. injection E as -> _. cbn [all_digits] in H1, Ha.
    rewrite andb_true_r in Ha. rewrite Ha in H1. discriminate.
  - cbn in E. injection E as -> E. cbn [all_digits] in H1, H2.
    apply andb_true_iff in H1 as [_ H1]. apply andb_true_iff in H2 as [_ H2].
    destruct (IH s2 t1 t2 H1 H2 Ha E) as [-> ->]. auto.
Qed.

Lemma tilePath_inj (H : Host) r c r' c' :
  tilePath H r c = tilePath H r' c' -> r = r' /\ c = c'.
Proof.
  unfold tilePath, path_join. intros E.
  apply String.app_inj in E. apply (String.app_inj "/") in E.
  apply (String.app_inj "tile_r") in E.
  apply (digits_then_stop "_"%char (pretty r) (pretty r')
           (String "c"%char (pretty c +:+ ".png")) (String "c"%char (pretty c' +:+ ".png")))
    in E as [Er E]; try apply pretty_nat_digits; [|reflexivity].
  injection E as E.
  apply (digits_then_stop "."%char (pretty c) (pretty c') "png" "png")
    in E as [Ec _]; try apply pretty_nat_digits; [|reflexivity].
  split; eapply inj; try eassumption; apply _.
Qed.

(** * The raster sweep *)

Lemma writesOf_app tr1 tr2 : writesOf (tr1 ++ tr2) = writesOf tr1 ++ writesOf tr2.
Proof. unfold writesOf. apply omap_app. Qed.

Lemma applyWrites_app ws1 ws2 fs :
  applyWrites (ws1 ++ ws2) fs = applyWrites ws2 (applyWrites ws1 fs).
Proof. unfold applyWrites. apply foldl_app. Qed.

Lemma captured_refl w : captured w w 0 [].
Proof. unfold captured. rewrite Nat.add_0_r, app_nil_r. auto. Qed.

Lemma captured_trans w1 w2 w3 n1 n2 ws1 ws2 :
  captured w1 w2 n1 ws1 -> captured w2 w3 n2 ws2 ->
  captured w1 w3 (n1 + n2) (ws1 ++ ws2).
Proof.
  intros (E1 & D1 & F1 & T1) (E2 & D2 & F2 & T2). unfold captured.
  rewrite E2, E1, F2, F1, T2, T1, applyWrites_app, app_assoc.
  repeat split; lia.
Qed.

Lemma writesOf_drag_waits n dx dy ms :
  writesOf (concat (replicate n [Drag dx dy; Wait ms])) = [].
Proof. induction n as [|n IH]; [reflexivity|]. cbn [replicate concat]. exact IH. Qed.

Lemma captured_panned n dx dy ms w : captured w (panned n dx dy ms w) 0 [].
Proof.
  unfold captured, panned; cbn [evals drags files trace].
  rewrite writesOf_app, writesOf_drag_waits, Nat.add_0_r.
  repeat split; lia.
Qed.

Section SweepFacts.
Variable H : Host.

Lemma pans_ok_captured w w' n ws : captured w w' n ws -> pans_ok H w -> pans_ok H w'.
Proof.
  intros (_ & D & _) Hp k.
  replace (drags w' + k)%nat with (drags w + (drags w' - drags w + k))%nat by lia.
  apply Hp.
Qed.

Lemma feeds_captured w w' n ws frames :
  captured w w' n ws -> feeds H w frames -> feeds H w' (fun k => frames (n + k)%nat).
Proof.
  intros (E & _) Hf k. rewrite E, <- Hf. f_equal. lia.
Qed.

Lemma sweepCell_run ncols r c rowFiles w frames :
  pans_ok H w -> feeds H w frames ->
  exists w',
    sweepCell H ncols r c rowFiles w = (Ok (rowFiles ++ [tilePath H r c]), w')
    /\ captured w w' 1 [(tilePath H r c, frames 0%nat)].
Proof.
  intros Hp Hf. unfold sweepCell.
  rewrite run_bind. unfold waitForTimeout at 1.
  erewrite run_bind_ok; [|apply capture_fed; cbn; apply (feeds_now H w frames Hf)].
  rewrite run_bind. unfold writeFile at 1. cbv zeta.
  destruct (Z.of_nat c <? Z.of_nat ncols - 1)%Z.
  - rewrite run_bind, run_bind.
    rewrite dragPan_ok by (cbn; apply pans_ok_now, Hp).
    unfold waitForTimeout at 1. eexists. split; [reflexivity|].
    unfold captured, log_event, evaluated; cbn [evals drags files trace].
    rewrite !writesOf_app. cbn. rewrite !app_nil_r.
    repeat split; lia.
  - rewrite run_bind. eexists. split; [reflexivity|].
    unfold captured, log_event, evaluated; cbn [evals drags files trace].
    rewrite !writesOf_app. cbn. rewrite !app_nil_r.
    repeat split; lia.
Qed.

(** The inner loop, from column [start] on. *)
Lemma sweep_cells ncols r n : forall start rowFiles w frames,
  pans_ok H w -> feeds H w frames ->
  exists w',
    for_range n start (sweepCell H ncols r) rowFiles w
      = (Ok (rowFiles ++ (tilePath H r <$> seq start n)), w')
    /\ captured w w' n
         ((fun k => (tilePath H r (start + k), frames k)) <$> seq 0 n).
Proof.
  induction n as [|n IH]; intros start rowFiles w frames Hp Hf.
  - exists w. cbn. rewrite app_nil_r. split; [reflexivity|apply captured_refl].
  - cbn [for_range].
    destruct (sweepCell_run ncols r start rowFiles w frames Hp Hf) as (w1 & E1 & C1).
    rewrite (run_bind_ok _ _ _ _ _ E1).
    destruct (IH (S start) (rowFiles ++ [tilePath H r start]) w1 (fun k => frames (1 + k)%nat))
      as (w2 & E2 & C2);
      [eapply pans_ok_captured; eassumption | eapply feeds_captured; eassumption |].
    exists w2. split.
    + rewrite E2, <- app_assoc. reflexivity.
    + pose proof (captured_trans _ _ _ _ _ _ _ C1 C2) as C. cbn [app Nat.add] in C.
      cbn [seq fmap list_fmap]. rewrite <- fmap_S_seq, <- list_fmap_compose, Nat.add_0_r.
      erewrite (list_fmap_ext _ _ (seq 0 n)); [exact C|].
      intros i k _. cbn. f_equal. f_equal. lia.
Qed.

Lemma drag_then_wait_run dx dy ms w :
  pans_ok H w ->
  (dragPan H dx dy ;; waitForTimeout ms) w = (Ok tt, panned 1 dx dy ms w).
Proof.
  intros Hp. rewrite run_bind, (dragPan_ok H dx dy w (pans_ok_now H w Hp)).
  unfold waitForTimeout, panned, log_event; cbn [evals drags files trace concat replicate].
  rewrite <- app_assoc, app_nil_r. do 2 f_equal. lia.
Qed.

Lemma sweepRow_run nrows ncols r saved w frames :
  pans_ok H w -> feeds H w frames ->
  exists w',
    sweepRow H nrows ncols r saved w
      = (Ok (saved ++ [tilePath H r <$> seq 0 ncols]), w')
    /\ captured w w' ncols ((fun c => (tilePath H r c, frames c)) <$> seq 0 ncols).
Proof.
  intros Hp Hf. unfold sweepRow.
  destruct (sweep_cells ncols r ncols 0%nat [] w frames Hp Hf) as (w1 & E1 & C1).
  rewrite (run_bind_ok _ _ _ _ _ E1). cbv zeta. cbn [app].
  pose proof (pans_ok_captured _ _ _ _ C1 Hp) as Hp1.
  rewrite (run_bind_ok _ _ _ _ _ (drag_wait_loop H (Z.to_nat (Z.of_nat ncols - 1)) stepX 0 50 0%nat w1 Hp1)).
  pose proof (captured_trans _ _ _ _ _ _ _ C1 (captured_panned (Z.to_nat (Z.of_nat ncols - 1)) stepX 0 50 w1)) as C2.
  pose proof (pans_ok_panned H (Z.to_nat (Z.of_nat ncols - 1)) stepX 0 50 w1 Hp1) as Hp2.
  rewrite Nat.add_0_r, app_nil_r in C2.
  destruct (Z.of_nat r <? Z.of_nat nrows - 1)%Z.
  - rewrite run_bind, (drag_then_wait_run _ _ _ _ Hp2).
    eexists. split; [reflexivity|].
    pose proof (captured_trans _ _ _ _ _ _ _ C2 (captured_panned 1 0 (- stepY) DELAY_MS _)) as C3.
    rewrite Nat.add_0_r, app_nil_r in C3. exact C3.
  - rewrite run_bind. eexists. split; [reflexivity|]. exact C2.
Qed.

(** The outer loop, from row [start] on. *)
Lemma sweep_rows nrows ncols n : forall start saved w frames,
  pans_ok H w -> feeds H w frames ->
  exists w',
    for_range n start (sweepRow H nrows ncols) saved w
      = (Ok (saved ++ ((fun r => tilePath H r <$> seq 0 ncols) <$> seq start n)), w')
    /\ captured w w' (n * ncols)
         (seq 0 n ≫= (fun j => (fun c => (tilePath H (start + j) c,
                                          frames (j * ncols + c)%nat)) <$> seq 0 ncols)).
Proof.
  induction n as [|n IH]; intros start saved w frames Hp Hf.
  - exists w. cbn. rewrite app_nil_r. split; [reflexivity|apply captured_refl].
  - cbn [for_range].
    destruct (sweepRow_run nrows ncols start saved w frames Hp Hf) as (w1 & E1 & C1).
    rewrite (run_bind_ok _ _ _ _ _ E1).
    destruct (IH (S start) (saved ++ [tilePath H start <$> seq 0 ncols]) w1
                 (fun k => frames (ncols + k)%nat)) as (w2 & E2 & C2);
      [eapply pans_ok_captured; eassumption | eapply feeds_captured; eassumption |].
    exists w2. split.
    + rewrite E2, <- app_assoc. reflexivity.
    + pose proof (captured_trans _ _ _ _ _ _ _ C1 C2) as C.
      cbn [seq]. rewrite bind_cons, <- fmap_S_seq, list_fmap_bind.
      cbn [Nat.mul Nat.add]. rewrite Nat.add_0_r.
      erewrite (list_bind_ext _ _ (seq 0 n)); [exact C| |reflexivity].
      intros j. apply list_fmap_ext. intros i c _. cbn. f_equal; [f_equal; lia|f_equal; lia].
Qed.

End SweepFacts.

Lemma fmap_bind_list {A B C} (f : B -> C) (g : A -> list B) (l : list A) :
  f <$> (l ≫= g) = l ≫= (fun x => f <$> g x).
Proof.
  induction l as [|x l IH]; [reflexivity|].
  rewrite !bind_cons, fmap_app, IH. reflexivity.
Qed.

Lemma length_bind_const {A B} (g : A -> list B) (m : nat) (l : list A) :
  (forall x, length (g x) = m) -> length (l ≫= g) = (length l * m)%nat.
Proof.
  intros Hg. induction l as [|x l IH]; [reflexivity|].
  rewrite bind_cons, length_app, Hg, IH. reflexivity.
Qed.

Lemma gridCells_length nrows ncols : length (gridCells nrows ncols) = (nrows * ncols)%nat.
Proof.
  unfold gridCells. rewrite (length_bind_const _ ncols).
  - rewrite length_seq. reflexivity.
  - intros r. rewrite length_fmap, length_seq. reflexivity.
Qed.

Lemma gridCells_elem nrows ncols r c :
  (r, c) ∈ gridCells nrows ncols <-> (r < nrows)%nat /\ (c < ncols)%nat.
Proof.
  unfold gridCells. rewrite list_elem_of_bind. split.
  - intros (r' & Hin & Hr'). apply list_elem_of_fmap in Hin as (c' & [= -> ->] & Hc').
    apply elem_of_seq in Hr', Hc'. lia.
  - intros [Hr Hc]. exists r. split.
    + apply list_elem_of_fmap. exists c. split; [reflexivity|]. apply elem_of_seq. lia.
    + apply elem_of_seq. lia.
Qed.

Lemma gridCells_NoDup nrows ncols : NoDup (gridCells nrows ncols).
Proof.
  unfold gridCells. apply NoDup_bind.
  - intros r1 r2 [r c] _ _ H1 H2.
    apply list_elem_of_fmap in H1 as (c1 & [= -> ->] & _).
    apply list_elem_of_fmap in H2 as (c2 & [= -> _] & _). reflexivity.
  - intros r _. apply NoDup_fmap_2; [|apply NoDup_seq].
    intros c1 c2 [= ->]. reflexivity.
  - apply NoDup_seq.
Qed.

(** The (row, column) pairs in the order the sweep visits them. *)
Example gridCells_2_by_3 :
  gridCells 2 3 = [(0, 0); (0, 1); (0, 2); (1, 0); (1, 1); (1, 2)]%nat.
Proof. reflexivity. Qed.

Lemma gridWrites_keys H nrows ncols frames :
  fst <$> gridWrites H nrows ncols frames
  = (fun rc => tilePath H (fst rc) (snd rc)) <$> gridCells nrows ncols.
Proof. unfold gridWrites. rewrite <- list_fmap_compose. reflexivity. Qed.

Lemma gridWrites_keys_paths H nrows ncols frames :
  fst <$> gridWrites H nrows ncols frames = concat (gridPaths H nrows ncols).
Proof.
  rewrite gridWrites_keys. unfold gridCells, gridPaths.
  rewrite fmap_bind_list. induction (seq 0 nrows) as [|r l IH]; [reflexivity|].
  rewrite bind_cons, fmap_cons. cbn [concat]. rewrite IH, <- list_fmap_compose.
  reflexivity.
Qed.

Lemma gridWrites_NoDup H nrows ncols frames :
  NoDup (fst <$> gridWrites H nrows ncols frames).
Proof.
  rewrite gridWrites_keys. apply NoDup_fmap_2_strong; [|apply gridCells_NoDup].
  intros [r c] [r' c'] _ _ E. cbn in E. apply tilePath_inj in E as [-> ->]. reflexivity.
Qed.

Lemma applyWrites_other ws : forall fs p,
  p ∉ (fst <$> ws) -> applyWrites ws fs !! p = fs !! p.
Proof.
  induction ws as [|[q b] ws IH]; intros fs p Hp; [reflexivity|].
  rewrite fmap_cons in Hp. apply not_elem_of_cons in Hp as [Hne Hp].
  cbn. change (applyWrites ws (<[q := b]> fs) !! p = fs !! p).
  rewrite IH by exact Hp. apply lookup_insert_ne. cbn in Hne. congruence.
Qed.

Lemma applyWrites_lookup ws : forall fs p b,
  NoDup (fst <$> ws) -> (p, b) ∈ ws -> applyWrites ws fs !! p = Some b.
Proof.
  induction ws as [|[q c] ws IH]; intros fs p b Hnd Hin.
  - apply elem_of_nil in Hin. contradiction.
  - rewrite fmap_cons in Hnd. apply NoDup_cons in Hnd as [Hq Hnd].
    change (applyWrites ws (<[q := c]> fs) !! p = Some b).
    apply elem_of_cons in Hin as [[= -> ->]|Hin].
    + rewrite applyWrites_other by exact Hq. apply lookup_insert_eq.
    + apply IH; assumption.
Qed.

(** ** Whatever the page does *)

(** A loop whose body, whenever it completes, updates the loop state by a
    function of the index and the old state alone. *)
Lemma for_range_state {St} (g : nat -> St -> St) (body : nat -> St -> M St) :
  (forall i s w s' w', body i s w = (Ok s', w') -> s' = g i s) ->
  forall n start s w s' w',
    for_range n start body s w = (Ok s', w') ->
    s' = foldl (fun s i => g i s) s (seq start n).
Proof.
  intros Hbody. induction n as [|n IH]; intros start s w s' w' E.
  - cbn in E. injection E as <- _. reflexivity.
  - cbn [for_range] in E. apply bind_ok_inv in E as (s1 & w1 & E1 & E).
    apply Hbody in E1 as ->. apply IH in E. exact E.
Qed.

Lemma foldl_snoc_fmap {A B} (f : A -> B) (l : list A) : forall acc,
  foldl (fun s i => s ++ [f i]) acc l = acc ++ (f <$> l).
Proof.
  induction l as [|x l IH]; intros acc; cbn; [rewrite app_nil_r; reflexivity|].
  rewrite IH, <- app_assoc. reflexivity.
Qed.

Lemma sweepCell_state H ncols r c rowFiles w rowFiles' w' :
  sweepCell H ncols r c rowFiles w = (Ok rowFiles', w') ->
  rowFiles' = rowFiles ++ [tilePath H r c].
Proof.
  unfold sweepCell. intros E.
  apply bind_ok_inv in E as ([] & w1 & _ & E).
  apply bind_ok_inv in E as (buf & w2 & _ & E).
  apply bind_ok_inv in E as ([] & w3 & _ & E). cbv zeta in E.
  apply bind_ok_inv in E as ([] & w4 & _ & E).
  injection E as <- _. reflexivity.
Qed.

Lemma sweepRow_state H nrows ncols r saved w saved' w' :
  sweepRow H nrows ncols r saved w = (Ok saved', w') ->
  saved' = saved ++ [tilePath H r <$> seq 0 ncols].
Proof.
  unfold sweepRow. intros E.
  apply bind_ok_inv in E as (rowFiles & w1 & E1 & E). cbv zeta in E.
  apply (for_range_state (fun c s => s ++ [tilePath H r c])) in E1;
    [|intros; eapply sweepCell_state; eassumption].
  rewrite foldl_snoc_fmap in E1. cbn [app] in E1. subst rowFiles.
  apply bind_ok_inv in E as ([] & w2 & _ & E).
  apply bind_ok_inv in E as ([] & w3 & _ & E).
  injection E as <- _. reflexivity.
Qed.

(** Whatever the page does, a sweep that completes returns the full table. *)
Lemma sweep_shape H nrows ncols w saved w' :
  sweep H nrows ncols w = (Ok saved, w') -> saved = gridPaths H nrows ncols.
Proof.
  unfold sweep. intros E.
  apply (for_range_state (fun r s => s ++ [tilePath H r <$> seq 0 ncols])) in E;
    [|intros; eapply sweepRow_state; eassumption].
  rewrite foldl_snoc_fmap in E. exact E.
Qed.

Lemma wrote_refl w : wrote w w [].
Proof. exists []. rewrite app_nil_r. auto. Qed.

Lemma wrote_same w w' :
  files w' = files w -> writesOf (trace w') = writesOf (trace w) -> wrote w w' [].
Proof. intros Hf Ht. exists []. rewrite app_nil_r. auto. Qed.

Lemma wrote_trans w1 w2 w3 ps1 ps2 :
  wrote w1 w2 ps1 -> wrote w2 w3 ps2 -> wrote w1 w3 (ps1 ++ ps2).
Proof.
  intros (ws1 & P1 & F1 & T1) (ws2 & P2 & F2 & T2). exists (ws1 ++ ws2).
  rewrite fmap_app, P1, P2, F2, F1, T2, T1, applyWrites_app, app_assoc. auto.
Qed.

Section AnyPage.
Variable H : Host.

Lemma dragPan_wrote dx dy w : wrote w (snd (dragPan H dx dy w)) [].
Proof.
  unfold dragPan. destruct (page_drag_ok H (drags w)); apply wrote_same; cbn;
    rewrite ?writesOf_app, ?app_nil_r; reflexivity.
Qed.

Lemma waitForTimeout_wrote ms w : wrote w (snd (waitForTimeout ms w)) [].
Proof. apply wrote_same; cbn; rewrite ?writesOf_app, ?app_nil_r; reflexivity. Qed.

Lemma captureLoop_wrote n : forall w, wrote w (snd (captureLoop H n w)) [].
Proof.
  induction n as [|n IH]; intros w; [apply wrote_refl|].
  cbn [captureLoop]. unfold try_catch.
  pose proof (captureAttempt_world H w) as Ew.
  destruct (captureAttempt H w) as [[b|e] w1]; cbn [snd] in Ew; subst w1.
  - apply wrote_same; cbn; rewrite ?writesOf_app, ?app_nil_r; reflexivity.
  - rewrite run_bind. unfold waitForTimeout at 1.
    apply (wrote_trans _ (log_event (Wait 300) (evaluated w)) _ [] []); [|apply IH].
    apply wrote_same; cbn; rewrite ?writesOf_app, ?app_nil_r; reflexivity.
Qed.

Lemma writeFile_wrote p b w : wrote w (snd (writeFile p b w)) [p].
Proof. exists [(p, b)]. cbn. rewrite writesOf_app. auto. Qed.

Lemma drag_then_wait_wrote dx dy ms w r w' :
  (dragPan H dx dy ;; waitForTimeout ms) w = (r, w') -> wrote w w' [].
Proof.
  rewrite run_bind. pose proof (dragPan_wrote dx dy w) as Hd.
  destruct (dragPan H dx dy w) as [[[]|e] w1]; cbn [snd] in Hd.
  - intros E. pose proof (waitForTimeout_wrote ms w1) as Hw. rewrite E in Hw.
    apply (wrote_trans _ _ _ [] [] Hd Hw).
  - intros [= _ <-]. exact Hd.
Qed.

(** A loop whose passes, when they complete, write to the paths [P i]. *)
Lemma for_range_wrote {St} (body : nat -> St -> M St) (P : nat -> list string) :
  (forall i s w s' w', body i s w = (Ok s', w') -> wrote w w' (P i)) ->
  forall n start s w s' w',
    for_range n start body s w = (Ok s', w') -> wrote w w' (seq start n ≫= P).
Proof.
  intros Hbody. induction n as [|n IH]; intros start s w s' w' E.
  - cbn in E. injection E as _ <-. apply wrote_refl.
  - cbn [for_range] in E. apply bind_ok_inv in E as (s1 & w1 & E1 & E).
    cbn [seq]. rewrite bind_cons.
    eapply wrote_trans; [eapply Hbody; eassumption|eapply IH; eassumption].
Qed.

Lemma sweepCell_wrote ncols r c rowFiles w rowFiles' w' :
  sweepCell H ncols r c rowFiles w = (Ok rowFiles', w') -> wrote w w' [tilePath H r c].
Proof.
  unfold sweepCell. intros E.
  apply bind_ok_inv in E as ([] & w1 & E1 & E).
  apply bind_ok_inv in E as (buf & w2 & E2 & E).
  apply bind_ok_inv in E as ([] & w3 & E3 & E). cbv zeta in E.
  apply bind_ok_inv in E as ([] & w4 & E4 & E). injection E as _ <-.
  pose proof (waitForTimeout_wrote DELAY_MS w) as W1. rewrite E1 in W1.
  pose proof (captureLoop_wrote RETRY_ATTEMPTS w1) as W2.
  unfold captureCanvasBuffer in E2. rewrite E2 in W2.
  pose proof (writeFile_wrote (tilePath H r c) buf w2) as W3. rewrite E3 in W3.
  assert (wrote w3 w4 []) as W4.
  { destruct (Z.of_nat c <? Z.of_nat ncols - 1)%Z.
    - eapply drag_then_wait_wrote; eassumption.
    - injection E4 as <-. apply wrote_refl. }
  cbn [snd] in *.
  apply (wrote_trans _ _ _ [] _ W1), (wrote_trans _ _ _ [] _ W2).
  rewrite <- (app_nil_r [tilePath H r c]). exact (wrote_trans _ _ _ _ _ W3 W4).
Qed.

Lemma sweepRow_wrote nrows ncols r saved w saved' w' :
  sweepRow H nrows ncols r saved w = (Ok saved', w') ->
  wrote w w' (tilePath H r <$> seq 0 ncols).
Proof.
  unfold sweepRow. intros E.
  apply bind_ok_inv in E as (rowFiles & w1 & E1 & E). cbv zeta in E.
  apply bind_ok_inv in E as ([] & w2 & E2 & E).
  apply bind_ok_inv in E as ([] & w3 & E3 & E). injection E as _ <-.
  apply (for_range_wrote _ (fun c => [tilePath H r c])) in E1;
    [|intros; eapply sweepCell_wrote; eassumption].
  apply (for_range_wrote _ (fun _ => [])) in E2;
    [|intros i [] wa [] wb Eb; eapply drag_then_wait_wrote; exact Eb].
  assert (wrote w2 w3 []) as W3.
  { destruct (Z.of_nat r <? Z.of_nat nrows - 1)%Z.
    - eapply drag_then_wait_wrote; eassumption.
    - injection E3 as <-. apply wrote_refl. }
  assert (forall l : list nat, l ≫= (fun _ => @nil string) = []) as Hnil
    by (induction l as [|x l IH]; [reflexivity|rewrite bind_cons; exact IH]).
  rewrite Hnil in E2.
  assert (forall l : list nat, l ≫= (fun c => [tilePath H r c]) = tilePath H r <$> l) as Hone
    by (induction l as [|x l IH]; [reflexivity|rewrite bind_cons, IH; reflexivity]).
  rewrite Hone in E1.
  rewrite <- (app_nil_r (tilePath H r <$> seq 0 ncols)).
  eapply wrote_trans; [exact E1|]. apply (wrote_trans _ _ _ [] [] E2 W3).
Qed.

(** Whatever the page does, a sweep that completes has written one file
    per cell, in row-major order, and nothing else. *)
Lemma sweep_wrote nrows ncols w saved w' :
  sweep H nrows ncols w = (Ok saved, w') ->
  wrote w w' ((fun rc => tilePath H (fst rc) (snd rc)) <$> gridCells nrows ncols).
Proof.
  unfold sweep. intros E.
  apply (for_range_wrote _ (fun r => tilePath H r <$> seq 0 ncols)) in E;
    [|intros; eapply sweepRow_wrote; eassumption].
  unfold gridCells. rewrite fmap_bind_list.
  erewrite list_bind_ext; [exact E| |reflexivity].
  intros r. cbn. rewrite <- list_fmap_compose. reflexivity.
Qed.

End AnyPage.

(** C3.  When every drag completes and every capture succeeds, the raster
    sweep over an [nrows] by [ncols] grid returns the table of tile files
    [saved], one row per grid row and one path per column; it evaluates
    the canvas [nrows * ncols] times and writes exactly one tile per
    capture, the [k]-th capture going to cell [(k / ncols, k mod ncols)],
    i.e. in row-major, column-ascending order; the tile files are
    pairwise distinct, every cell of the grid has its tile on disk
    afterwards, and no tile lies outside the grid.  More generally,
    whatever the page does (captures may need retries), a sweep that
    completes has produced that table and written exactly those
    [nrows * ncols] distinct files in that order. *)
Theorem sweep_covers_grid (H : Host) (nrows ncols : nat) (w : World) :
  (forall frames,
     pans_ok H w ->
     feeds H w frames ->
     exists w',
       sweep H nrows ncols w = (Ok (gridPaths H nrows ncols), w')
       /\ writesOf (trace w') = writesOf (trace w) ++ gridWrites H nrows ncols frames
       /\ evals w' = (evals w + nrows * ncols)%nat
       /\ length (gridWrites H nrows ncols frames) = (nrows * ncols)%nat
       /\ fst <$> gridWrites H nrows ncols frames = concat (gridPaths H nrows ncols)
       /\ NoDup (fst <$> gridWrites H nrows ncols frames)
       /\ (forall r c, (r < nrows)%nat -> (c < ncols)%nat ->
             (tilePath H r c, frames (r * ncols + c)%nat) ∈ gridWrites H nrows ncols frames
             /\ files w' !! tilePath H r c = Some (frames (r * ncols + c)%nat))
       /\ (forall p b, (p, b) ∈ gridWrites H nrows ncols frames ->
             exists r c, (r < nrows)%nat /\ (c < ncols)%nat /\ p = tilePath H r c))
  /\ (forall saved w',
        sweep H nrows ncols w = (Ok saved, w') ->
        saved = gridPaths H nrows ncols
        /\ exists ws,
             writesOf (trace w') = writesOf (trace w) ++ ws
             /\ fst <$> ws = concat (gridPaths H nrows ncols)
             /\ length ws = (nrows * ncols)%nat
             /\ NoDup (fst <$> ws)
             /\ (forall r c, (r < nrows)%nat -> (c < ncols)%nat ->
                   exists b, (tilePath H r c, b) ∈ ws
                             /\ files w' !! tilePath H r c = Some b)).
Proof.
  split.
  - intros frames Hp Hf. unfold sweep.
    destruct (sweep_rows H nrows ncols nrows 0%nat [] w frames Hp Hf) as (w' & E & C).
    assert (seq 0 nrows ≫= (fun j => (fun c => (tilePath H (0 + j) c,
              frames (j * ncols + c)%nat)) <$> seq 0 ncols)
            = gridWrites H nrows ncols frames) as Egw.
    { unfold gridWrites, gridCells. rewrite fmap_bind_list.
      apply list_bind_ext; [|reflexivity]. intros r.
      rewrite <- list_fmap_compose. reflexivity. }
    rewrite Egw in C. destruct C as (Cev & _ & Cf & Ctr).
    assert (forall r c, (r < nrows)%nat -> (c < ncols)%nat ->
              (tilePath H r c, frames (r * ncols + c)%nat)
                ∈ gridWrites H nrows ncols frames) as Hin.
    { intros r c Hr Hc. unfold gridWrites. apply list_elem_of_fmap.
      exists (r, c). split; [reflexivity|]. apply gridCells_elem. auto. }
    exists w'. split; [exact E|]. split; [exact Ctr|]. split; [exact Cev|].
    split; [unfold gridWrites; rewrite length_fmap; apply gridCells_length|].
    split; [apply gridWrites_keys_paths|]. split; [apply gridWrites_NoDup|]. split.
    + intros r c Hr Hc. split; [apply Hin; assumption|].
      rewrite Cf. apply applyWrites_lookup; [apply gridWrites_NoDup|apply Hin; assumption].
    + intros p b Hpb. unfold gridWrites in Hpb.
      apply list_elem_of_fmap in Hpb as ([r c] & [= -> _] & Hrc).
      apply gridCells_elem in Hrc as [Hr Hc]. exists r, c. auto.
  - intros saved w' E. split; [eapply sweep_shape; exact E|].
    apply sweep_wrote in E as (ws & Hkeys & Hfiles & Htrace).
    pose proof (gridWrites_keys H nrows ncols (fun _ => "")) as K1.
    pose proof (gridWrites_keys_paths H nrows ncols (fun _ => "")) as K2.
    pose proof (gridWrites_NoDup H nrows ncols (fun _ => "")) as K3.
    rewrite K1 in K2, K3. rewrite <- Hkeys in K2, K3.
    exists ws. split; [exact Htrace|]. split; [exact K2|]. split.
    { rewrite <- (length_fmap fst), Hkeys, length_fmap. apply gridCells_length. }
    split; [exact K3|].
    intros r c Hr Hc.
    assert (tilePath H r c ∈ fst <$> ws) as Hin.
    { rewrite Hkeys. apply list_elem_of_fmap. exists (r, c).
      split; [reflexivity|]. apply gridCells_elem. auto. }
    apply list_elem_of_fmap in Hin as ([p b] & Hp & Hin). cbn in Hp. subst p.
    exists b. split; [exact Hin|]. rewrite Hfiles. apply applyWrites_lookup; assumption.
Qed.

Lemma sweep_covers_grid_witness :
  exists w',
    sweep twoFrames 2 3 w0 = (Ok (gridPaths twoFrames 2 3), w')
    /\ writesOf (trace w')
       = writesOf (trace w0)
         ++ gridWrites twoFrames 2 3 (fun k => match k with O => "a" | _ => "b" end)
    /\ evals w' = (evals w0 + 2 * 3)%nat
    /\ length (gridWrites twoFrames 2 3 (fun k => match k with O => "a" | _ => "b" end))
       = (2 * 3)%nat
    /\ fst <$> gridWrites twoFrames 2 3 (fun k => match k with O => "a" | _ => "b" end)
       = concat (gridPaths twoFrames 2 3)
    /\ NoDup (fst <$> gridWrites twoFrames 2 3 (fun k => match k with O => "a" | _ => "b" end))
    /\ (forall r c, (r < 2)%nat -> (c < 3)%nat ->
          (tilePath twoFrames r c, match (r * 3 + c)%nat with O => "a" | _ => "b" end)
            ∈ gridWrites twoFrames 2 3 (fun k => match k with O => "a" | _ => "b" end)
          /\ files w' !! tilePath twoFrames r c
             = Some (match (r * 3 + c)%nat with O => "a" | _ => "b" end))
    /\ (forall p b,
          (p, b) ∈ gridWrites twoFrames 2 3 (fun k => match k with O => "a" | _ => "b" end) ->
          exists r c, (r < 2)%nat /\ (c < 3)%nat /\ p = tilePath twoFrames r c).
Proof.
  apply (proj1 (sweep_covers_grid twoFrames 2 3 w0)
           (fun k => match k with O => "a" | _ => "b" end)).
  - intros k. reflexivity.
  - intros k. destruct k; reflexivity.
Defined.

(** The sweep of a two-by-three grid over [twoFrames], run. *)
Example sweep_2_by_3 :
  fst (sweep twoFrames 2 3 w0)
  = Ok [["/captures/tile_r0_c0.png"; "/captures/tile_r0_c1.png"; "/captures/tile_r0_c2.png"];
        ["/captures/tile_r1_c0.png"; "/captures/tile_r1_c1.png"; "/captures/tile_r1_c2.png"]]
  /\ writesOf (trace (snd (sweep twoFrames 2 3 w0)))
     = [("/captures/tile_r0_c0.png", "a"); ("/captures/tile_r0_c1.png", "b");
        ("/captures/tile_r0_c2.png", "b"); ("/captures/tile_r1_c0.png", "b");
        ("/captures/tile_r1_c1.png", "b"); ("/captures/tile_r1_c2.png", "b")]
  /\ pansOf (trace (snd (sweep twoFrames 2 3 w0)))
     = [(-960, 0); (-960, 0); (960, 0); (960, 0); (0, -600);
        (-960, 0); (-960, 0); (960, 0); (960, 0)].
Proof. vm_compute. repeat split; reflexivity. Qed.

(** * Stitching *)

Section StitchFacts.
Variable H : Host.

Lemma stitchCell_run r c p ds w :
  (forall bytes, files w !! p = Some bytes -> loadImage_ok H bytes = true) ->
  stitchCell H r c p ds w = (Ok (ds ++ cellDraws (files w) r c p), w).
Proof.
  intros Hd. unfold stitchCell, cellDraws.
  destruct (files w !! p) as [bytes|]; [|rewrite app_nil_r; reflexivity].
  rewrite (Hd bytes eq_refl). reflexivity.
Qed.

Lemma stitchRow_run r row : forall c ds w,
  (forall p bytes, p ∈ row -> files w !! p = Some bytes -> loadImage_ok H bytes = true) ->
  stitchRow H r c row ds w = (Ok (ds ++ rowDraws (files w) r c row), w).
Proof.
  induction row as [|p row IH]; intros c ds w Hd.
  - cbn. rewrite app_nil_r. reflexivity.
  - cbn [stitchRow rowDraws].
    rewrite (run_bind_ok _ _ _ _ _ (stitchCell_run r c p ds w
               (fun bytes => Hd p bytes (list_elem_of_here _ _)))).
    rewrite IH, <- app_assoc; [reflexivity|].
    intros q bytes Hq. apply Hd. right. exact Hq.
Qed.

Lemma stitchRows_run saved : forall r ds w,
  decodable H (files w) saved ->
  stitchRows H r saved ds w = (Ok (ds ++ gridDraws (files w) r saved), w).
Proof.
  induction saved as [|row saved IH]; intros r ds w Hd.
  - cbn. rewrite app_nil_r. reflexivity.
  - cbn [stitchRows gridDraws].
    rewrite (run_bind_ok _ _ _ _ _ (stitchRow_run r row 0%nat ds w
               (fun p bytes Hp => Hd p bytes (proj2 (elem_of_app _ _ _) (or_introl Hp))))).
    rewrite IH, <- app_assoc; [reflexivity|].
    intros q bytes Hq. apply Hd. cbn [concat]. apply elem_of_app. right. exact Hq.
Qed.

Lemma stitch_run ncols nrows saved w :
  decodable H (files w) saved ->
  stitch H ncols nrows saved w
  = (Ok (mkCanvas (stitchedWidth ncols) (stitchedHeight nrows)
                  (gridDraws (files w) 0 saved)), w).
Proof.
  intros Hd. unfold stitch.
  rewrite (run_bind_ok _ _ _ _ _ (stitchRows_run saved 0%nat [] w Hd)). reflexivity.
Qed.

End StitchFacts.

Lemma cellDraws_elem fs r c p d :
  d ∈ cellDraws fs r c p <->
  exists bytes, fs !! p = Some bytes
    /\ d = mkDraw bytes (Z.of_nat c * effectiveStepX) (Z.of_nat r * effectiveStepY) tileW tileH.
Proof.
  unfold cellDraws. destruct (fs !! p) as [bytes|].
  - rewrite list_elem_of_singleton. split; [intros ->; eauto|].
    intros (b & [= <-] & ->). reflexivity.
  - split; [intros Hd; apply elem_of_nil in Hd; contradiction|].
    intros (b & Hb & _). discriminate.
Qed.

Lemma rowDraws_elem fs r row : forall c d,
  d ∈ rowDraws fs r c row <->
  exists k p bytes, row !! k = Some p /\ fs !! p = Some bytes
    /\ d = mkDraw bytes (Z.of_nat (c + k) * effectiveStepX)
                        (Z.of_nat r * effectiveStepY) tileW tileH.
Proof.
  induction row as [|q row IH]; intros c d; cbn [rowDraws].
  - split; [intros Hd; apply elem_of_nil in Hd; contradiction|].
    intros (k & p & b & Hk & _). rewrite lookup_nil in Hk. discriminate.
  - rewrite elem_of_app, cellDraws_elem, IH. split.
    + intros [(b & Hb & ->)|(k & p & b & Hk & Hb & ->)].
      * exists 0%nat, q, b. rewrite Nat.add_0_r. auto.
      * exists (S k), p, b. replace (c + S k)%nat with (S c + k)%nat by lia. auto.
    + intros ([|k] & p & b & Hk & Hb & ->).
      * left. cbn in Hk. injection Hk as ->. exists b. rewrite Nat.add_0_r. auto.
      * right. exists k, p, b. replace (S c + k)%nat with (c + S k)%nat by lia. auto.
Qed.

Lemma gridDraws_elem fs saved : forall r d,
  d ∈ gridDraws fs r saved <->
  exists j row k p bytes,
    saved !! j = Some row /\ row !! k = Some p /\ fs !! p = Some bytes
    /\ d = mkDraw bytes (Z.of_nat k * effectiveStepX)
                        (Z.of_nat (r + j) * effectiveStepY) tileW tileH.
Proof.
  induction saved as [|row0 saved IH]; intros r d; cbn [gridDraws].
  - split; [intros Hd; apply elem_of_nil in Hd; contradiction|].
    intros (j & row & k & p & b & Hj & _). rewrite lookup_nil in Hj. discriminate.
  - rewrite elem_of_app, rowDraws_elem, IH. split.
    + intros [(k & p & b & Hk & Hb & ->)|(j & row & k & p & b & Hj & Hk & Hb & ->)].
      * exists 0%nat, row0, k, p, b. rewrite Nat.add_0_r. auto.
      * exists (S j), row, k, p, b. replace (r + S j)%nat with (S r + j)%nat by lia. auto.
    + intros ([|j] & row & k & p & b & Hj & Hk & Hb & ->).
      * left. cbn in Hj. injection Hj as ->. exists k, p, b. rewrite Nat.add_0_r. auto.
      * right. exists j, row, k, p, b.
        replace (S r + j)%nat with (r + S j)%nat by lia. auto.
Qed.

Lemma cellDraws_length fs r c p : (length (cellDraws fs r c p) <= 1)%nat.
Proof. unfold cellDraws. destruct (fs !! p); cbn; lia. Qed.

Lemma rowDraws_length fs r row : forall c,
  (length (rowDraws fs r c row) <= length row)%nat
  /\ ((exists p, p ∈ row /\ fs !! p = None) ->
      (length (rowDraws fs r c row) < length row)%nat).
Proof.
  induction row as [|q row IH]; intros c; cbn [rowDraws length].
  - split; [lia|]. intros (p & Hp & _). apply elem_of_nil in Hp. contradiction.
  - rewrite length_app. destruct (IH (S c)) as [Hle Hlt].
    pose proof (cellDraws_length fs r c q) as Hc. split; [lia|].
    intros (p & Hp & Hnone). apply elem_of_cons in Hp as [->|Hp].
    + unfold cellDraws in *. rewrite Hnone. cbn. lia.
    + assert (length (rowDraws fs r (S c) row) < length row)%nat by eauto. lia.
Qed.

Lemma gridDraws_length fs saved : forall r,
  (length (gridDraws fs r saved) <= length (concat saved))%nat
  /\ ((exists p, p ∈ concat saved /\ fs !! p = None) ->
      (length (gridDraws fs r saved) < length (concat saved))%nat).
Proof.
  induction saved as [|row saved IH]; intros r; cbn [gridDraws concat length].
  - split; [lia|]. intros (p & Hp & _). apply elem_of_nil in Hp. contradiction.
  - rewrite !length_app. destruct (IH (S r)) as [Hle Hlt].
    destruct (rowDraws_length fs r row 0%nat) as [Hrle Hrlt]. split; [lia|].
    intros (p & Hp & Hnone). apply elem_of_app in Hp as [Hp|Hp].
    + assert (length (rowDraws fs r 0 row) < length row)%nat by eauto. lia.
    + assert (length (gridDraws fs (S r) saved) < length (concat saved))%nat by eauto. lia.
Qed.

(** C5.  The composite is allocated [(ncols - 1) * effectiveStepX + tileW]
    wide and [(nrows - 1) * effectiveStepY + tileH] high, where the
    effective steps are the viewport dimensions times the step fraction,
    rounded (960 and 600 for the 1280 by 800 viewport at 0.75); three
    columns and two rows give 3200 by 1400.  Every stored tile of the
    table is drawn, at tile size, at
    [(column * effectiveStepX, row * effectiveStepY)], and nothing else is
    drawn. *)
Theorem composite_size_and_offsets (H : Host) (ncols nrows : nat)
    (saved : list (list string)) (w : World) :
  decodable H (files w) saved ->
  effectiveStepX = Math_round (inject_Z VIEWPORT_width * STEP_FRACTION)
  /\ effectiveStepY = Math_round (inject_Z VIEWPORT_height * STEP_FRACTION)
  /\ (tileW, tileH, effectiveStepX, effectiveStepY) = (1280, 800, 960, 600)
  /\ (stitchedWidth 3, stitchedHeight 2) = (3200, 1400)
  /\ exists cv,
       stitch H ncols nrows saved w = (Ok cv, w)
       /\ cwidth cv = (Z.of_nat ncols - 1) * effectiveStepX + tileW
       /\ cheight cv = (Z.of_nat nrows - 1) * effectiveStepY + tileH
       /\ (forall r c row p bytes,
             saved !! r = Some row -> row !! c = Some p -> files w !! p = Some bytes ->
             mkDraw bytes (Z.of_nat c * effectiveStepX) (Z.of_nat r * effectiveStepY)
                    tileW tileH ∈ drawn cv)
       /\ (forall d, d ∈ drawn cv ->
             exists r c row p,
               saved !! r = Some row /\ row !! c = Some p /\ files w !! p = Some (img d)
               /\ dx d = Z.of_nat c * effectiveStepX /\ dy d = Z.of_nat r * effectiveStepY
               /\ dw d = tileW /\ dh d = tileH).
Proof.
  intros Hd. do 4 (split; [reflexivity|]).
  eexists. split; [apply stitch_run; exact Hd|]. cbn [cwidth cheight drawn].
  split; [reflexivity|]. split; [reflexivity|]. split.
  - intros r c row p bytes Hr Hc Hp. apply gridDraws_elem.
    exists r, row, c, p, bytes. auto.
  - intros d Hin. apply gridDraws_elem in Hin as (r & row & c & p & b & Hr & Hc & Hp & ->).
    exists r, c, row, p. cbn. auto 10.
Qed.

Lemma composite_size_and_offsets_witness :
  effectiveStepX = Math_round (inject_Z VIEWPORT_width * STEP_FRACTION)
  /\ effectiveStepY = Math_round (inject_Z VIEWPORT_height * STEP_FRACTION)
  /\ (tileW, tileH, effectiveStepX, effectiveStepY) = (1280, 800, 960, 600)
  /\ (stitchedWidth 3, stitchedHeight 2) = (3200, 1400)
  /\ exists cv,
       stitch twoFrames 3 2 (gridPaths twoFrames 2 3) (snd (sweep twoFrames 2 3 w0))
         = (Ok cv, snd (sweep twoFrames 2 3 w0))
       /\ cwidth cv = (Z.of_nat 3 - 1) * effectiveStepX + tileW
       /\ cheight cv = (Z.of_nat 2 - 1) * effectiveStepY + tileH
       /\ (forall r c row p bytes,
             gridPaths twoFrames 2 3 !! r = Some row -> row !! c = Some p ->
             files (snd (sweep twoFrames 2 3 w0)) !! p = Some bytes ->
             mkDraw bytes (Z.of_nat c * effectiveStepX) (Z.of_nat r * effectiveStepY)
                    tileW tileH ∈ drawn cv)
       /\ (forall d, d ∈ drawn cv ->
             exists r c row p,
               gridPaths twoFrames 2 3 !! r = Some row /\ row !! c = Some p
               /\ files (snd (sweep twoFrames 2 3 w0)) !! p = Some (img d)
               /\ dx d = Z.of_nat c * effectiveStepX /\ dy d = Z.of_nat r * effectiveStepY
               /\ dw d = tileW /\ dh d = tileH).
Proof.
  apply (composite_size_and_offsets twoFrames 3 2 (gridPaths twoFrames 2 3)
           (snd (sweep twoFrames 2 3 w0))).
  intros p bytes _ _. reflexivity.
Defined.

(** The three-by-two composite of the specification, drawn. *)
Example composite_3_by_2 :
  fst (stitch twoFrames 3 2 (gridPaths twoFrames 2 3) (snd (sweep twoFrames 2 3 w0)))
  = Ok (mkCanvas 3200 1400
          [mkDraw "a" 0 0 1280 800; mkDraw "b" 960 0 1280 800; mkDraw "b" 1920 0 1280 800;
           mkDraw "b" 0 600 1280 800; mkDraw "b" 960 600 1280 800;
           mkDraw "b" 1920 600 1280 800]).
Proof. vm_compute. reflexivity. Qed.

(** C2 (as the code has it).  A slot whose file is absent is skipped, not
    reported: when some slot of the table has no stored tile (and the
    stored ones decode), [stitch] still returns the composite, of the
    usual size, with one draw per stored tile and therefore fewer draws
    than slots; the world is left as it was. *)
Theorem stitch_skips_missing_tiles (H : Host) (ncols nrows : nat)
    (saved : list (list string)) (w : World) :
  decodable H (files w) saved ->
  (exists p, p ∈ concat saved /\ files w !! p = None) ->
  exists cv,
    stitch H ncols nrows saved w = (Ok cv, w)
    /\ cwidth cv = stitchedWidth ncols
    /\ cheight cv = stitchedHeight nrows
    /\ drawn cv = gridDraws (files w) 0 saved
    /\ (length (drawn cv) < length (concat saved))%nat
    /\ (forall d, d ∈ drawn cv ->
          exists r c row p,
            saved !! r = Some row /\ row !! c = Some p /\ files w !! p = Some (img d)).
Proof.
  intros Hd Hmiss. eexists. split; [apply stitch_run; exact Hd|].
  cbn [cwidth cheight drawn]. do 3 (split; [reflexivity|]). split.
  - apply gridDraws_length. exact Hmiss.
  - intros d Hin. apply gridDraws_elem in Hin as (r & row & c & p & b & Hr & Hc & Hp & ->).
    exists r, c, row, p. auto.
Qed.

Lemma stitch_skips_missing_tiles_witness :
  exists cv,
    stitch twoFrames 2 1 (gridPaths twoFrames 1 2) oneTileStored = (Ok cv, oneTileStored)
    /\ cwidth cv = stitchedWidth 2
    /\ cheight cv = stitchedHeight 1
    /\ drawn cv = gridDraws (files oneTileStored) 0 (gridPaths twoFrames 1 2)
    /\ (length (drawn cv) < length (concat (gridPaths twoFrames 1 2)))%nat
    /\ (forall d, d ∈ drawn cv ->
          exists r c row p,
            gridPaths twoFrames 1 2 !! r = Some row /\ row !! c = Some p
            /\ files oneTileStored !! p = Some (img d)).
Proof.
  apply (stitch_skips_missing_tiles twoFrames 2 1 (gridPaths twoFrames 1 2) oneTileStored).
  - intros p bytes _ _. reflexivity.
  - exists (tilePath twoFrames 0 1). split; [|vm_compute; reflexivity].
    vm_compute. right. left.
Defined.

(** C2 as stated fails: with the second tile of a one-by-two grid absent
    from the capture directory, [stitch] returns a 2240 by 800 composite
    holding the first tile alone. *)
Lemma stitch_missing_tile_counterexample :
  files oneTileStored !! tilePath twoFrames 0 1 = None
  /\ tilePath twoFrames 0 1 ∈ concat (gridPaths twoFrames 1 2)
  /\ stitch twoFrames 2 1 (gridPaths twoFrames 1 2) oneTileStored
     = (Ok (mkCanvas 2240 800 [mkDraw "a" 0 0 1280 800]), oneTileStored).
Proof.
  split; [vm_compute; reflexivity|]. split; [vm_compute; right; left|].
  vm_compute. reflexivity.
Qed.


(** * The grid the script works with *)




(** * computeDays *)

(** ** The numbers behind [Math_ceil] and [Math_round_float] *)

Lemma digits2_pos_bounds (p : positive) :
  2 ^ (Zpos (digits2_pos p) - 1) <= Zpos p < 2 ^ Zpos (digits2_pos p).
Proof.
  induction p as [p IH|p IH|]; cbn [digits2_pos].
  - rewrite Pos2Z.inj_succ.
    replace (Z.succ (Zpos (digits2_pos p)) - 1) with (Z.succ (Zpos (digits2_pos p) - 1)) by lia.
    rewrite !Z.pow_succ_r by lia. lia.
  - rewrite Pos2Z.inj_succ.
    replace (Z.succ (Zpos (digits2_pos p)) - 1) with (Z.succ (Zpos (digits2_pos p) - 1)) by lia.
    rewrite !Z.pow_succ_r by lia. lia.
  - cbn. lia.
Qed.

Lemma digits2_pos_le (p : positive) (k : Z) :
  0 <= k -> Zpos p < 2 ^ k -> Zpos (digits2_pos p) <= k.
Proof.
  intros Hk Hp. destruct (digits2_pos_bounds p) as [Hlo _].
  destruct (Z_le_gt_dec (Zpos (digits2_pos p)) k) as [|Hgt]; [assumption|].
  assert (2 ^ k <= 2 ^ (Zpos (digits2_pos p) - 1)) by (apply Z.pow_le_mono_r; lia).
  lia.
Qed.

Lemma digits2_pos_iter (p n : positive) :
  digits2_pos (Pos.iter xO p n) = (digits2_pos p + n)%positive.
Proof.
  induction n as [|n IH] using Pos.peano_ind.
  - cbn. lia.
  - rewrite Pos.iter_succ. cbn [digits2_pos]. rewrite IH. lia.
Qed.

Lemma iter_xO_value (p n : positive) :
  Zpos (Pos.iter xO p n) = Zpos p * 2 ^ Zpos n.
Proof.
  change (Pos.iter xO p n) with (shift_pos n p).
  rewrite shift_pos_correct, Z.pow_pos_fold. lia.
Qed.

(** The float of an integer of at most 53 bits is that integer. *)
Lemma floatOfInt_value (s : bool) (n : Z) :
  Z.abs n < 2 ^ 53 ->
  exists v, floatValue (floatOfInt s n) = Some v /\ (v == inject_Z n)%Q.
Proof.
  intros Hn.
  assert (Hp : forall sg p, Zpos p < 2 ^ 53 ->
    exists m e, shl_align p 0 (fexp prec emax (Zpos (digits2_pos p))) = (m, e)
      /\ Prim2SF (SF2Prim (S754_finite sg m e)) = S754_finite sg m e
      /\ (finiteValue sg m e == inject_Z (if sg then Zneg p else Zpos p))%Q).
  { intros sg p Hlt.
    pose proof (digits2_pos_le p 53 ltac:(lia) Hlt) as Hd.
    unfold shl_align, fexp, prec, emax, emin.
    destruct (Z.max (Zpos (digits2_pos p) - 53) (3 - 1024 - 53) - 0) as [|k|k] eqn:E.
    - exists p, 0. split; [reflexivity|]. split.
      + apply Prim2SF_SF2Prim. unfold valid_binary, bounded, canonical_mantissa, fexp, prec, emax, emin.
        apply andb_true_intro. split; [apply Z.eqb_eq | apply Z.leb_le]; lia.
      + unfold finiteValue. cbn [Qpower]. ring.
    - lia.
    - assert (Ek : Zpos k = 53 - Zpos (digits2_pos p)) by lia.
      exists (Pos.iter xO p k), (Z.max (Zpos (digits2_pos p) - 53) (3 - 1024 - 53)).
      split; [reflexivity|]. split.
      + apply Prim2SF_SF2Prim. unfold valid_binary, bounded, canonical_mantissa, fexp, prec, emax, emin.
        rewrite digits2_pos_iter, Pos2Z.inj_add.
        apply andb_true_intro. split; [apply Z.eqb_eq | apply Z.leb_le]; lia.
      + unfold finiteValue.
        replace (Z.max (Zpos (digits2_pos p) - 53) (3 - 1024 - 53)) with (- Zpos k) by lia.
        rewrite Qpower_opp.
        assert (E2 : (inject_Z (if sg then Zneg (Pos.iter xO p k) else Zpos (Pos.iter xO p k))
                      == inject_Z (if sg then Zneg p else Zpos p) * 2 ^ Zpos k)%Q).
        { rewrite <- (Zpower_Qpower 2 (Zpos k)) by lia. rewrite <- inject_Z_mult.
          destruct sg.
          - rewrite <- !Pos2Z.opp_pos, iter_xO_value. apply inject_Z_injective. lia.
          - rewrite iter_xO_value. reflexivity. }
        rewrite E2. field.
        apply Qpower_not_0. discriminate. }
  destruct n as [|p|p].
  - exists 0%Q. split; [destruct s; reflexivity | reflexivity].
  - destruct (Hp false p ltac:(lia)) as (m & e & E & Hv & Hq).
    exists (finiteValue false m e). split; [|exact Hq].
    unfold floatOfInt, floatValue. rewrite E, Hv. reflexivity.
  - destruct (Hp true p ltac:(lia)) as (m & e & E & Hv & Hq).
    exists (finiteValue true m e). split; [|exact Hq].
    unfold floatOfInt, floatValue. rewrite E, Hv. reflexivity.
Qed.

Lemma finite_mantissa (x : float) (s : bool) (m : positive) (e : Z) :
  Prim2SF x = S754_finite s m e -> Zpos m < 2 ^ 53.
Proof.
  intros E. pose proof (Prim2SF_valid x) as Hv. rewrite E in Hv.
  unfold valid_binary, bounded, canonical_mantissa, fexp, prec, emax, emin in Hv.
  apply andb_prop in Hv. destruct Hv as [Hc _]. apply Z.eqb_eq in Hc.
  destruct (digits2_pos_bounds m) as [_ Hhi].
  assert (2 ^ Zpos (digits2_pos m) <= 2 ^ 53) by (apply Z.pow_le_mono_r; lia).
  lia.
Qed.

Lemma finiteValue_integer (s : bool) (m : positive) (e : Z) :
  0 <= e ->
  (finiteValue s m e == inject_Z ((if s then Zneg m else Zpos m) * 2 ^ e))%Q.
Proof.
  intros He. unfold finiteValue.
  rewrite inject_Z_mult, (Zpower_Qpower 2 e) by exact He. reflexivity.
Qed.

Lemma finiteValue_fraction (s : bool) (m : positive) (e : Z) :
  Zpos m < 2 ^ 53 -> e < 0 ->
  (- inject_Z (2 ^ 52) + (1 # 2) <= finiteValue s m e
   /\ finiteValue s m e <= inject_Z (2 ^ 52) - (1 # 2))%Q.
Proof.
  intros Hm He. unfold finiteValue.
  assert (Ht0 : (0 < 2 ^ e)%Q) by (apply Qpower_0_lt; reflexivity).
  assert (Ht1 : (2 ^ e <= 1 # 2)%Q).
  { change (1 # 2)%Q with (2 ^ (-1))%Q.
    apply Qpower_le_compat_l; [lia | discriminate]. }
  assert (Hlo : (- inject_Z (2 ^ 53 - 1) <= inject_Z (if s then Zneg m else Zpos m))%Q).
  { rewrite <- inject_Z_opp, <- Zle_Qle. destruct s; lia. }
  assert (Hhi : (inject_Z (if s then Zneg m else Zpos m) <= inject_Z (2 ^ 53 - 1))%Q).
  { rewrite <- Zle_Qle. destruct s; lia. }
  revert Hlo Hhi. generalize (inject_Z (if s then Zneg m else Zpos m)).
  revert Ht0 Ht1. generalize (2 ^ e)%Q. intros t Ht0 Ht1 q Hlo Hhi.
  change (inject_Z (2 ^ 53 - 1)) with (9007199254740991 # 1)%Q in *.
  change (inject_Z (2 ^ 52)) with (4503599627370496 # 1)%Q.
  split; nra.
Qed.

Lemma Qceiling_small (v : Q) :
  (- inject_Z (2 ^ 52) + (1 # 2) <= v)%Q -> (v <= inject_Z (2 ^ 52) - (1 # 2))%Q ->
  Z.abs (Qceiling v) < 2 ^ 53.
Proof.
  intros Hlo Hhi.
  apply Qceiling_resp_le in Hlo, Hhi.
  change (Qceiling (- inject_Z (2 ^ 52) + (1 # 2))) with (- 2 ^ 52 + 1) in Hlo.
  change (Qceiling (inject_Z (2 ^ 52) - (1 # 2))) with (2 ^ 52) in Hhi.
  lia.
Qed.

Lemma Math_round_small (v : Q) :
  (- inject_Z (2 ^ 52) + (1 # 2) <= v)%Q -> (v <= inject_Z (2 ^ 52) - (1 # 2))%Q ->
  Z.abs (Math_round v) < 2 ^ 53.
Proof.
  intros Hlo Hhi. unfold Math_round.
  assert (Hlo' : (- inject_Z (2 ^ 52) + 1 <= v + (1 # 2))%Q) by lra.
  assert (Hhi' : (v + (1 # 2) <= inject_Z (2 ^ 52))%Q) by lra.
  apply Qfloor_resp_le in Hlo', Hhi'.
  change (Qfloor (- inject_Z (2 ^ 52) + 1)) with (- 2 ^ 52 + 1) in Hlo'.
  rewrite Qfloor_Z in Hhi'.
  lia.
Qed.

(** An integer-valued rounding that fixes the integers, applied as
    [Math_ceil] and [Math_round_float] apply theirs. *)
Lemma rounded_value (toInt : Q -> Z) (x : float) (v : Q) :
  (forall a b, (a == b)%Q -> toInt a = toInt b) ->
  (forall z, toInt (inject_Z z) = z) ->
  (forall a, (- inject_Z (2 ^ 52) + (1 # 2) <= a)%Q ->
             (a <= inject_Z (2 ^ 52) - (1 # 2))%Q -> Z.abs (toInt a) < 2 ^ 53) ->
  floatValue x = Some v ->
  exists r,
    floatValue (match Prim2SF x with
                | S754_finite s m e =>
                    if (0 <=? e)%Z then x else floatOfInt s (toInt (finiteValue s m e))
                | _ => x
                end) = Some r
    /\ (r == inject_Z (toInt v))%Q.
Proof.
  intros Hcomp Hint Hsmall Hv. unfold floatValue in Hv.
  destruct (Prim2SF x) as [sz|si| |s m e] eqn:E; try discriminate.
  - injection Hv as <-. exists 0%Q. unfold floatValue. rewrite E.
    split; [reflexivity|]. change 0%Q with (inject_Z 0). rewrite Hint. reflexivity.
  - injection Hv as <-. destruct (Z.leb_spec 0 e) as [He|He].
    + exists (finiteValue s m e). unfold floatValue. rewrite E.
      split; [reflexivity|].
      rewrite (Hcomp _ _ (finiteValue_integer s m e He)), Hint.
      apply finiteValue_integer, He.
    + destruct (finiteValue_fraction s m e (finite_mantissa x s m e E) He) as [Hlo Hhi].
      apply floatOfInt_value, Hsmall; assumption.
Qed.

Lemma Math_ceil_value (x : float) (v : Q) :
  floatValue x = Some v ->
  exists c, floatValue (Math_ceil x) = Some c /\ (c == inject_Z (Qceiling v))%Q.
Proof.
  apply (rounded_value Qceiling).
  - apply Qceiling_comp.
  - apply Qceiling_Z.
  - apply Qceiling_small.
Qed.

Lemma Math_round_float_value (x : float) (v : Q) :
  floatValue x = Some v ->
  exists r, floatValue (Math_round_float x) = Some r /\ (r == inject_Z (Math_round v))%Q.
Proof.
  apply (rounded_value Math_round).
  - intros a b E. unfold Math_round. apply Qfloor_comp. rewrite E. reflexivity.
  - intros z. unfold Math_round.
    rewrite (Qfloor_comp _ ((2 * z + 1) # 2)).
    + unfold Qfloor. cbn [Qnum Qden]. 
      replace (2 * z + 1) with (1 + z * 2) by lia. rewrite Z.div_add by lia. reflexivity.
    + unfold Qeq, Qplus, inject_Z. cbn [Qnum Qden]. lia.
  - apply Math_round_small.
Qed.

Lemma unvalued_unchanged (x : float) :
  floatValue x = None -> Math_ceil x = x /\ Math_round_float x = x.
Proof.
  unfold floatValue, Math_ceil, Math_round_float.
  destruct (Prim2SF x); try discriminate; auto.
Qed.

Lemma Qceiling_bounds (v : Q) :
  (inject_Z (Qceiling v) - 1 < v /\ v <= inject_Z (Qceiling v))%Q.
Proof.
  split; [|apply Qle_ceiling].
  pose proof (Qceiling_lt v) as H. unfold Z.sub in H. rewrite inject_Z_plus in H.
  exact H.
Qed.

Lemma Math_round_bounds (v : Q) :
  (v - (1 # 2) < inject_Z (Math_round v) /\ inject_Z (Math_round v) <= v + (1 # 2))%Q.
Proof.
  unfold Math_round. split; [|apply Qfloor_le].
  pose proof (Qlt_floor (v + (1 # 2))) as H. rewrite inject_Z_plus in H.
  change (inject_Z 1) with 1%Q in H. lra.
Qed.

Lemma finite_canonical (x : float) (s : bool) (m : positive) (e : Z) :
  Prim2SF x = S754_finite s m e ->
  Z.max (Zpos (digits2_pos m) + e - 53) (-1074) = e.
Proof.
  intros E. pose proof (Prim2SF_valid x) as Hv. rewrite E in Hv.
  unfold valid_binary, bounded, canonical_mantissa, fexp, prec, emax, emin in Hv.
  apply andb_prop in Hv. destruct Hv as [Hc _]. apply Z.eqb_eq in Hc. lia.
Qed.

(** The comparison [1 < x] of binary64 is that of the values. *)
Lemma one_ltb_value (x : float) (v : Q) :
  floatValue x = Some v -> ((1 <? x)%float = true <-> (1 < v)%Q).
Proof.
  intros Hv. rewrite ltb_spec. unfold floatValue in Hv.
  change (Prim2SF 1) with (S754_finite false 4503599627370496 (-52)).
  destruct (Prim2SF x) as [sz|si| |s m e] eqn:E; try discriminate;
    injection Hv as <-; unfold SFltb, SFcompare.
  - split; [discriminate | intros H; discriminate H].
  - pose proof (finite_canonical x s m e E) as Hc.
    destruct (digits2_pos_bounds m) as [Hlo Hhi].
    assert (Hpos : (0 < 2 ^ e)%Q) by (apply Qpower_0_lt; reflexivity).
    unfold finiteValue. destruct s.
    + split; [discriminate|]. intros H. exfalso.
      assert (inject_Z (Zneg m) <= -1)%Q.
      { change (-1)%Q with (inject_Z (-1)). rewrite <- Zle_Qle. lia. }
      revert H H0 Hpos. generalize (inject_Z (Zneg m)), (2 ^ e)%Q. intros; nra.
    + destruct (Z.compare_spec (-52) e) as [He|He|He].
      * subst e. rewrite Pos.compare_cont_spec. cbn [Pos.switch_Eq].
        change (2 ^ (-52))%Q with (1 # 4503599627370496)%Q.
        unfold Qlt, Qmult, inject_Z. cbn [Qnum Qden].
        clear. change (1 * 4503599627370496)%positive with 4503599627370496%positive.
        rewrite Z.mul_1_l, !Z.mul_1_r.
        change (Z.pos 4503599627370496 < Z.pos m) with (4503599627370496 < m)%positive.
        destruct (Pos.compare_spec 4503599627370496 m) as [Hm|Hm|Hm];
          cbn [Pos.switch_Eq]; (split; [try discriminate; intros _|try reflexivity; intros Hlt]).
        -- subst m. exact (False_ind _ (Pos.lt_irrefl _ Hlt)).
        -- exact Hm.
        -- exact (False_ind _ (Pos.lt_irrefl _ (Pos.lt_trans _ _ _ Hlt Hm))).
      * split; [intros _ | reflexivity].
        assert (Hd : Zpos (digits2_pos m) = 53) by lia.
        rewrite Hd in Hlo.
        assert (Ht : (2 ^ (-51) <= 2 ^ e)%Q)
          by (apply Qpower_le_compat_l; [lia | discriminate]).
        assert (Hm : (inject_Z (2 ^ 52) <= inject_Z (Zpos m))%Q)
          by (rewrite <- Zle_Qle; exact Hlo).
        change (2 ^ (-51))%Q with (1 # 2251799813685248)%Q in Ht.
        change (inject_Z (2 ^ 52)) with (4503599627370496 # 1)%Q in Hm.
        revert Ht Hm. generalize (inject_Z (Zpos m)), (2 ^ e)%Q. intros; nra.
      * split; [discriminate|]. intros H. exfalso.
        assert (Ht : (2 ^ e <= 2 ^ (-53))%Q)
          by (apply Qpower_le_compat_l; [lia | discriminate]).
        assert (Hm : (inject_Z (Zpos m) <= inject_Z (2 ^ 53))%Q).
        { rewrite <- Zle_Qle.
          assert (2 ^ Zpos (digits2_pos m) <= 2 ^ 53) by (apply Z.pow_le_mono_r; lia).
          lia. }
        assert (Hm0 : (0 <= inject_Z (Zpos m))%Q)
          by (change 0%Q with (inject_Z 0); rewrite <- Zle_Qle; lia).
        change (2 ^ (-53))%Q with (1 # 9007199254740992)%Q in Ht.
        change (inject_Z (2 ^ 53)) with (9007199254740992 # 1)%Q in Hm.
        revert H Ht Hm Hm0 Hpos. generalize (inject_Z (Zpos m)), (2 ^ e)%Q.
        intros a t H Ht Hm Hm0 Hpos.
        assert (0 <= ((9007199254740992 # 1) - a) * t)%Q
          by (apply Qmult_le_0_compat; lra).
        lra.
Qed.

(** C9.  [computeDays] returns [null] whenever an argument is [null] (or
    [undefined]) or the upkeep, as a number, is zero or not finite; the
    quotient is formed in the remaining case only, where the result is
    its [Math.ceil] when it exceeds 1 and its [Math.round] otherwise.  On
    every input one of the two cases applies, so the function is total
    and never divides by zero or by a non-finite number.

    What is returned in the second case is the integer it should be.  When
    the binary64 quotient stands for the rational [v], the result is a
    number standing for an integer [n]: the ceiling of [v], the one
    integer with [n - 1 < v <= n], when [1 < v], and otherwise the integer
    nearest to [v] with a tie going up, the one integer with
    [v - 1/2 < n <= v + 1/2].  A quotient that is NaN or infinite is
    returned as it is. *)
Theorem computeDays_guarded_division (bank upkeep : JsValue) :
  (looseNull bank = true \/ looseNull upkeep = true
   \/ is_finite (Number upkeep) = false \/ (Number upkeep =? 0)%float = true ->
   computeDays bank upkeep = JsNull)
  /\ (looseNull bank = false /\ looseNull upkeep = false
      /\ is_finite (Number upkeep) = true /\ (Number upkeep =? 0)%float = false ->
      computeDays bank upkeep
      = JsNumber (if (1 <? Number bank / Number upkeep)%float
                  then Math_ceil (Number bank / Number upkeep)
                  else Math_round_float (Number bank / Number upkeep)))
  /\ ((looseNull bank = true \/ looseNull upkeep = true
       \/ is_finite (Number upkeep) = false \/ (Number upkeep =? 0)%float = true)
      \/ (looseNull bank = false /\ looseNull upkeep = false
          /\ is_finite (Number upkeep) = true /\ (Number upkeep =? 0)%float = false))
  /\ (looseNull bank = false /\ looseNull upkeep = false
      /\ is_finite (Number upkeep) = true /\ (Number upkeep =? 0)%float = false ->
      match floatValue (Number bank / Number upkeep) with
      | Some v =>
          exists (r : float) (rv : Q) (n : Z),
            computeDays bank upkeep = JsNumber r
            /\ floatValue r = Some rv
            /\ (rv == inject_Z n)%Q
            /\ ((1 < v /\ inject_Z n - 1 < v /\ v <= inject_Z n)%Q
                \/ (v <= 1 /\ v - (1 # 2) < inject_Z n /\ inject_Z n <= v + (1 # 2))%Q)
      | None => computeDays bank upkeep = JsNumber (Number bank / Number upkeep)
      end).
Proof.
  assert (Hrun : looseNull bank = false /\ looseNull upkeep = false
      /\ is_finite (Number upkeep) = true /\ (Number upkeep =? 0)%float = false ->
      computeDays bank upkeep
      = JsNumber (if (1 <? Number bank / Number upkeep)%float
                  then Math_ceil (Number bank / Number upkeep)
                  else Math_round_float (Number bank / Number upkeep))).
  { unfold computeDays. intros (-> & -> & -> & ->). cbn.
    destruct (1 <? Number bank / Number upkeep)%float; reflexivity. }
  split; [|split; [exact Hrun|split]].
  - unfold computeDays.
    destruct (looseNull bank), (looseNull upkeep),
      (is_finite (Number upkeep)), (Number upkeep =? 0)%float; cbn;
      intros; try reflexivity; intuition discriminate.
  - destruct (looseNull bank), (looseNull upkeep),
      (is_finite (Number upkeep)), (Number upkeep =? 0)%float; auto 10.
  - intros Hpass. rewrite (Hrun Hpass). clear Hrun Hpass.
    generalize (Number bank / Number upkeep)%float. intros q.
    destruct (floatValue q) as [v|] eqn:Ev.
    + pose proof (one_ltb_value q v Ev) as Hlt.
      destruct (1 <? q)%float.
      * destruct (Math_ceil_value q v Ev) as (c & Ec & Hc).
        exists (Math_ceil q), c, (Qceiling v).
        split; [reflexivity|]. split; [exact Ec|]. split; [exact Hc|].
        left. split; [apply Hlt; reflexivity|]. apply Qceiling_bounds.
      * destruct (Math_round_float_value q v Ev) as (r & Er & Hr).
        exists (Math_round_float q), r, (Math_round v).
        split; [reflexivity|]. split; [exact Er|]. split; [exact Hr|].
        right. split; [|apply Math_round_bounds].
        apply Qnot_lt_le. intros H1. apply Hlt in H1. discriminate H1.
    + destruct (unvalued_unchanged q Ev) as [-> ->].
      destruct (1 <? q)%float; reflexivity.
Qed.

(** Ten days of bank over three of upkeep round up to 4; a third rounds
    to 0 and a half to 1; a zero or infinite upkeep, or a missing figure,
    gives [null]. *)
Example computeDays_samples :
  computeDays (JsNumber 10) (JsNumber 3) = JsNumber 4
  /\ computeDays (JsNumber 1) (JsNumber 3) = JsNumber 0
  /\ computeDays (JsNumber 1) (JsNumber 2) = JsNumber 1
  /\ computeDays (JsNumber 3) (JsNumber 3) = JsNumber 1
  /\ computeDays (JsNumber (-5)) (JsNumber 2) = JsNumber (-2)
  /\ computeDays (JsNumber 1) (JsNumber 0) = JsNull
  /\ computeDays (JsNumber 1) (JsNumber (-0)) = JsNull
  /\ computeDays (JsNumber 1) (JsNumber infinity) = JsNull
  /\ computeDays (JsNumber 1) (JsNumber nan) = JsNull
  /\ computeDays JsNull (JsNumber 2) = JsNull
  /\ computeDays (JsNumber 2) JsUndefined = JsNull.
Proof. vm_compute. repeat split; reflexivity. Qed.


(** * Further properties of the panner *)

(** ** What a capture can and cannot do *)

Section CaptureEffects.
Variable H : Host.

Lemma captureLoop_effects n : forall w r w',
  captureLoop H n w = (r, w') ->
  drags w' = drags w
  /\ files w' = files w
  /\ exists k evs,
       (k <= n)%nat
       /\ evals w' = (evals w + k)%nat
       /\ trace w' = trace w ++ evs
       /\ Forall (fun e => e = Evaluate \/ e = Wait 300) evs
       /\ (length evs <= 2 * k)%nat.
Proof.
  induction n as [|n IH]; intros w r w' E.
  - cbn in E. injection E as _ <-. split; [reflexivity|]. split; [reflexivity|].
    exists 0%nat, []. rewrite app_nil_r, Nat.add_0_r.
    split; [lia|]. split; [reflexivity|]. split; [reflexivity|]. split; [constructor|cbn; lia].
  - cbn [captureLoop] in E. unfold try_catch in E.
    pose proof (captureAttempt_world H w) as Ew.
    destruct (captureAttempt H w) as [[b|e] w1]; cbn [snd] in Ew; subst w1.
    + injection E as _ <-. split; [reflexivity|]. split; [reflexivity|].
      exists 1%nat, [Evaluate]. split; [lia|]. split; [cbn; lia|].
      split; [reflexivity|]. split; [|cbn; lia].
      constructor; [left; reflexivity|constructor].
    + rewrite run_bind in E. unfold waitForTimeout at 1 in E.
      apply IH in E as (Hd & Hf & k & evs & Hk & He & Ht & Hall & Hlen).
      cbn [drags files evals trace log_event evaluated] in Hd, Hf, He, Ht.
      split; [exact Hd|]. split; [exact Hf|].
      exists (S k), (Evaluate :: Wait 300 :: evs).
      split; [lia|]. split; [lia|]. split; [rewrite Ht, <- !app_assoc; reflexivity|].
      split; [|cbn; lia].
      constructor; [left; reflexivity|]. constructor; [right; reflexivity|exact Hall].
Qed.

End CaptureEffects.

(** X1.  On any page, and whether it returns a frame or fails,
    [captureCanvasBuffer] leaves the view and the capture directory alone:
    it issues no drag and writes no file; all it adds to the run are at
    most [retries] canvas evaluations and its own 300 ms waits. *)
Theorem capture_touches_nothing (H : Host) (retries : nat) (w : World) :
  drags (snd (captureCanvasBuffer H retries w)) = drags w
  /\ files (snd (captureCanvasBuffer H retries w)) = files w
  /\ (exists evs,
        trace (snd (captureCanvasBuffer H retries w)) = trace w ++ evs
        /\ Forall (fun e => e = Evaluate \/ e = Wait 300) evs
        /\ (length evs <= 2 * retries)%nat)
  /\ (evals (snd (captureCanvasBuffer H retries w)) <= evals w + retries)%nat.
Proof.
  unfold captureCanvasBuffer.
  destruct (captureLoop H retries w) as [r w'] eqn:E. cbn [fst snd].
  destruct (captureLoop_effects H retries w r w' E)
    as (Hd & Hf & k & evs & Hk & He & Ht & Hall & Hlen).
  split; [exact Hd|]. split; [exact Hf|]. split.
  - exists evs. split; [exact Ht|]. split; [exact Hall|lia].
  - lia.
Qed.

(** ** One pass of a scan, whatever the page does *)

Section ScanPass.
Variable H : Host.

Lemma capture_quiet n w r w' :
  captureLoop H n w = (r, w') ->
  pansOf (trace w') = pansOf (trace w)
  /\ writesOf (trace w') = writesOf (trace w)
  /\ files w' = files w.
Proof.
  intros E.
  pose proof (captureLoop_pans H n w) as Hp.
  destruct (captureLoop_wrote H n w) as (ws & Hk & Hf & Ht).
  rewrite E in *. cbn [snd] in *.
  destruct ws as [|x ws]; [|discriminate].
  rewrite app_nil_r in Ht. auto.
Qed.

Lemma edgeLoop_pass dx dy prefix atCap fuel i c last w r w' :
  edgeLoop H dx dy prefix atCap (S fuel) i c last w = (r, w') ->
  (exists e, r = Throw e /\ (e = DragRejected \/ e = CaptureFailed) /\ brokeOff dx dy w w')
  \/ exists buf w4,
       passed dx dy (scanFile H prefix i) buf w w4
       /\ if (MAX_IDENTICAL_TO_EDGE
                <=? (if String.eqb (md5 H buf) last then S c else O))%nat
          then r = Ok (mkEdgeMeta (i + 1)
                         (if String.eqb (md5 H buf) last then last else md5 H buf))
               /\ w' = w4
          else edgeLoop H dx dy prefix atCap fuel (S i)
                 (if String.eqb (md5 H buf) last then S c else O)
                 (if String.eqb (md5 H buf) last then last else md5 H buf) w4 = (r, w').
Proof.
  cbn [edgeLoop]. rewrite run_bind. unfold dragPan at 1.
  destruct (page_drag_ok H (drags w)).
  2:{ intros [= <- <-]. left. exists DragRejected. split; [reflexivity|].
      split; [auto|]. unfold brokeOff; cbn. auto. }
  rewrite run_bind. unfold waitForTimeout at 1. rewrite run_bind.
  unfold captureCanvasBuffer.
  match goal with |- context [captureLoop H RETRY_ATTEMPTS ?w1] =>
    destruct (captureLoop H RETRY_ATTEMPTS w1) as [[buf|e] w3] eqn:Ec;
    apply capture_quiet in Ec as Hq; destruct Hq as (Hqp & Hqw & Hqf)
  end; cbn [trace files log_event] in Hqp, Hqw, Hqf;
    rewrite !pansOf_app in Hqp; rewrite !writesOf_app in Hqw;
    cbn in Hqp, Hqw; repeat rewrite app_nil_r in Hqp; repeat rewrite app_nil_r in Hqw.
  2:{ intros [= <- <-]. left. exists e. split; [reflexivity|].
      split; [right; eapply captureLoop_throws; exact Ec|].
      unfold brokeOff. split; [right; exact Hqp|]. split; [exact Hqw|exact Hqf]. }
  cbv zeta. rewrite run_bind. unfold writeFile at 1.
  intros E. right. exists buf.
  exists (mkWorld (evals w3) (drags w3)
            (<[scanFile H prefix i := buf]> (files w3))
            (trace w3 ++ [WriteFile (scanFile H prefix i) buf])).
  split.
  2:{ destruct (MAX_IDENTICAL_TO_EDGE <=? _)%nat.
      - injection E as <- <-. split; reflexivity.
      - exact E. }
  unfold passed, scanFile. cbn [trace files].
  rewrite pansOf_app, writesOf_app, Hqp, Hqw, Hqf. cbn. rewrite app_nil_r. auto.
Qed.

End ScanPass.

(** ** How a scan ends, whatever the page does *)

Lemma scanWrites_cons H prefix i b bufs :
  scanWrites H prefix i (b :: bufs)
  = (scanFile H prefix i, b) :: scanWrites H prefix (S i) bufs.
Proof. reflexivity. Qed.

Lemma scanRan_pass H dx dy prefix i n b bufs w w4 w' :
  passed dx dy (scanFile H prefix i) b w w4 ->
  scanRan H dx dy prefix (S i) n bufs w4 w' ->
  scanRan H dx dy prefix i (S n) (b :: bufs) w w'.
Proof.
  intros (Hp & Hw & Hf) (Hp' & Hw' & Hf'). unfold scanRan.
  rewrite scanWrites_cons, Hp', Hw', Hf', Hp, Hw, Hf, <- !app_assoc.
  split; [reflexivity|]. split; reflexivity.
Qed.

Lemma scanRan_one H dx dy prefix i b w w4 :
  passed dx dy (scanFile H prefix i) b w w4 ->
  scanRan H dx dy prefix i 1 [b] w w4.
Proof. intros (Hp & Hw & Hf). unfold scanRan. cbn. auto. Qed.

Section ScanEnds.
Variable H : Host.

(** A scan that returns has stored one frame per pass; either no frame
    differed from the hash it started with, or the last four frames share
    the returned hash and the one before them does not. *)
Lemma edgeLoop_settles dx dy prefix atCap fuel : forall i c last w meta w',
  (c < 3)%nat ->
  edgeLoop H dx dy prefix atCap fuel i c last w = (Ok meta, w') ->
  exists bufs,
    scanRan H dx dy prefix i (length bufs) bufs w w'
    /\ steps meta = (i + length bufs)%nat
    /\ (length bufs <= fuel)%nat
    /\ ((length bufs + c = 3)%nat /\ lastHash meta = last
          /\ Forall (fun b => md5 H b = last) bufs
        \/ exists pre b0 b1 b2 b3,
             bufs = pre ++ [b0; b1; b2; b3]
             /\ Forall (fun b => md5 H b = lastHash meta) [b0; b1; b2; b3]
             /\ md5 H b0 <> List.last (md5 H <$> pre) last).
Proof.
  induction fuel as [|fuel IH]; intros i c last w meta w' Hc E; [discriminate|].
  apply edgeLoop_pass in E as [(e & [=] & _)|(buf & w4 & Hpass & E)].
  destruct (String.eqb (md5 H buf) last) eqn:Heq.
  - (* the frame repeats the last hash *)
    apply String.eqb_eq in Heq.
    destruct (MAX_IDENTICAL_TO_EDGE <=? S c)%nat eqn:Hstop.
    + destruct E as [[= ->] ->]. exists [buf]. cbn [length steps lastHash].
      apply Nat.leb_le in Hstop. unfold MAX_IDENTICAL_TO_EDGE in Hstop.
      split; [apply scanRan_one; exact Hpass|]. split; [reflexivity|].
      split; [lia|]. left. split; [lia|]. split; [reflexivity|].
      constructor; [exact Heq|constructor].
    + apply Nat.leb_gt in Hstop. unfold MAX_IDENTICAL_TO_EDGE in Hstop.
      apply IH in E as (bufs & Hran & Hst & Hlen & Hend); [|lia].
      exists (buf :: bufs). cbn [length].
      split; [eapply scanRan_pass; eassumption|]. split; [lia|]. split; [lia|].
      destruct Hend as [(Hn & Hl & Hall)|(pre & b0 & b1 & b2 & b3 & -> & Hall & Hnew)].
      * left. split; [lia|]. split; [exact Hl|]. constructor; assumption.
      * right. exists (buf :: pre), b0, b1, b2, b3.
        split; [reflexivity|]. split; [exact Hall|].
        rewrite fmap_cons, last_cons_default, Heq. exact Hnew.
  - (* the frame is new: the count starts again *)
    apply String.eqb_neq in Heq.
    change (MAX_IDENTICAL_TO_EDGE <=? 0)%nat with false in E.
    apply IH in E as (bufs & Hran & Hst & Hlen & Hend); [|lia].
    exists (buf :: bufs). cbn [length].
    split; [eapply scanRan_pass; eassumption|]. split; [lia|]. split; [lia|].
    right.
    destruct Hend as [(Hn & Hl & Hall)|(pre & b0 & b1 & b2 & b3 & -> & Hall & Hnew)].
    + destruct bufs as [|b1 [|b2 [|b3 [|]]]]; cbn [length] in Hn; try lia.
      exists [], buf, b1, b2, b3. split; [reflexivity|]. rewrite Hl.
      split; [constructor; [reflexivity|exact Hall]|]. exact Heq.
    + exists (buf :: pre), b0, b1, b2, b3.
      split; [reflexivity|]. split; [exact Hall|].
      rewrite fmap_cons, last_cons_default. exact Hnew.
Qed.

(** The embedded scan loop [edgeLoop] throws at its cap, with every pass
    completed, or within a pass, at the drag or at the capture (the wait
    and the write of a pass complete in the embedding). *)
Lemma edgeLoop_fails dx dy prefix atCap fuel : forall i c last w e w',
  edgeLoop H dx dy prefix atCap fuel i c last w = (Throw e, w') ->
  exists n bufs,
    scanRan H dx dy prefix i n bufs w w'
    /\ (e = atCap /\ n = fuel /\ length bufs = fuel
        \/ (e = DragRejected \/ e = CaptureFailed)
           /\ (length bufs < fuel)%nat
           /\ (n = length bufs \/ n = S (length bufs))).
Proof.
  induction fuel as [|fuel IH]; intros i c last w e w' E.
  - injection E as <- <-. exists 0%nat, []. split.
    + unfold scanRan. cbn. rewrite !app_nil_r. auto.
    + left. auto.
  - apply edgeLoop_pass in E as [(e' & [= <-] & He & Hb)|(buf & w4 & Hpass & E)].
    + destruct Hb as ([Hp|Hp] & Hw & Hf).
      * exists 0%nat, []. split.
        { unfold scanRan. cbn. rewrite !app_nil_r. auto. }
        right. split; [exact He|]. cbn. split; [lia|]. left. reflexivity.
      * exists 1%nat, []. split.
        { unfold scanRan. cbn. rewrite !app_nil_r. auto. }
        right. split; [exact He|]. cbn. split; [lia|]. right. reflexivity.
    + destruct (MAX_IDENTICAL_TO_EDGE <=? _)%nat; [destruct E as [[=] _]|].
      apply IH in E as (n & bufs & Hran & Hend).
      exists (S n), (buf :: bufs).
      split; [eapply scanRan_pass; eassumption|]. cbn [length].
      destruct Hend as [(-> & -> & Hl)|(He & Hl & Hn)].
      * left. auto.
      * right. split; [exact He|]. split; [lia|]. lia.
Qed.

End ScanEnds.

Lemma scan_is_edgeLoop H k direction initialHash :
  k = horizontal H \/ k = vertical H ->
  scan_run k initialHash direction
  = edgeLoop H (fst (scan_vector k direction)) (snd (scan_vector k direction))
      (scan_prefix k direction) (scan_cap k) 2000 0 0 initialHash
  /\ scan_cap k <> DragRejected /\ scan_cap k <> CaptureFailed.
Proof. intros [-> | ->]; (split; [reflexivity|]); split; discriminate. Qed.

(** X2.  An edge scan, horizontal or vertical, returns exactly when three
    frames in a row repeat the hash it is holding.  Whatever the page
    shows, a scan that returns has made between 3 and 2000 pans, all by
    its own vector, and has stored the frame of each, in order, as
    [<prefix><i>.png] for [i] from 0; its last three frames hash to the
    [lastHash] it returns; after exactly 3 steps that hash is still the
    initial one, and otherwise it is the hash of the fourth frame from the
    end, which differs from the hash held before it. *)
Theorem scan_stops_on_three_repeats (H : Host) (k : Scan) (initialHash : Hash)
    (direction : string) (w w' : World) (meta : EdgeMeta) :
  k = horizontal H \/ k = vertical H ->
  scan_run k initialHash direction w = (Ok meta, w') ->
  exists bufs,
    length bufs = steps meta
    /\ (3 <= steps meta <= 2000)%nat
    /\ pansOf (trace w') = pansOf (trace w) ++ replicate (steps meta) (scan_vector k direction)
    /\ writesOf (trace w')
       = writesOf (trace w) ++ scanWrites H (scan_prefix k direction) 0 bufs
    /\ files w' = applyWrites (scanWrites H (scan_prefix k direction) 0 bufs) (files w)
    /\ (forall j b, (steps meta - 3 <= j)%nat -> bufs !! j = Some b ->
          md5 H b = lastHash meta)
    /\ (steps meta = 3%nat -> lastHash meta = initialHash)
    /\ (forall b, (3 < steps meta)%nat -> bufs !! (steps meta - 4)%nat = Some b ->
          md5 H b = lastHash meta
          /\ md5 H b <> List.last (md5 H <$> take (steps meta - 4) bufs) initialHash).
Proof.
  intros Hk E. destruct (scan_is_edgeLoop H k direction initialHash Hk) as (Erun & _).
  rewrite Erun in E. clear Erun Hk.
  apply edgeLoop_settles in E as (bufs & (Hp & Hw & Hf) & Hst & Hlen & Hend); [|lia].
  cbn [Nat.add] in Hst. exists bufs. rewrite Hst.
  split; [reflexivity|].
  assert (3 <= length bufs)%nat as H3.
  { destruct Hend as [(Hn & _)|(pre & b0 & b1 & b2 & b3 & -> & _)]; [lia|].
    rewrite length_app. cbn. lia. }
  split; [lia|].
  split; [rewrite Hp, <- surjective_pairing; reflexivity|].
  split; [exact Hw|]. split; [exact Hf|].
  destruct Hend as [(Hn & Hl & Hall)|(pre & b0 & b1 & b2 & b3 & -> & Hall & Hnew)].
  - split; [|split].
    + intros j b _ Hj. rewrite Hl.
      apply (proj1 (Forall_lookup _ _) Hall j b Hj).
    + intros _. exact Hl.
    + intros b Hgt. lia.
  - rewrite length_app. cbn [length].
    replace (length pre + 4 - 3)%nat with (length pre + 1)%nat by lia.
    replace (length pre + 4 - 4)%nat with (length pre + 0)%nat by lia.
    split; [|split].
    + intros j b Hj Hb. rewrite lookup_app_r in Hb by lia.
      apply (proj1 (Forall_lookup _ _) Hall _ b Hb).
    + intros Habs. lia.
    + intros b _ Hb. rewrite lookup_app_r in Hb by lia.
      replace (length pre + 0 - length pre)%nat with 0%nat in Hb by lia.
      injection Hb as <-. rewrite Nat.add_0_r, take_app_length.
      split; [|exact Hnew]. inversion Hall; assumption.
Qed.

(** The page shows one frame, then another one for ever; the scan starts
    from the hash of the first: 5 steps, ending on the second. *)
Lemma scan_stops_on_three_repeats_witness :
  findEdgeHoriz twoFrames "a" "right" w0
  = (Ok (mkEdgeMeta 5 "b"), snd (findEdgeHoriz twoFrames "a" "right" w0))
  /\ exists bufs,
       length bufs = 5%nat
       /\ writesOf (trace (snd (findEdgeHoriz twoFrames "a" "right" w0)))
          = writesOf (trace w0) ++ scanWrites twoFrames "h_right_" 0 bufs
       /\ (forall j b, (2 <= j)%nat -> bufs !! j = Some b -> md5 twoFrames b = "b").
Proof.
  assert (findEdgeHoriz twoFrames "a" "right" w0
          = (Ok (mkEdgeMeta 5 "b"), snd (findEdgeHoriz twoFrames "a" "right" w0))) as E
    by (vm_compute; reflexivity).
  split; [exact E|].
  destruct (scan_stops_on_three_repeats twoFrames (horizontal twoFrames) "a" "right" w0
              _ _ (or_introl eq_refl) E)
    as (bufs & Hlen & _ & _ & Hw & _ & Hlast & _).
  exists bufs. split; [exact Hlen|]. split; [exact Hw|]. exact Hlast.
Defined.

(** X3.  An edge scan that fails undoes nothing: the pans made so far
    stay made and the frames stored so far stay on disk.  When it fails
    with the error of its cap, 2000 passes went by, with 2000 pans and
    2000 files; when it fails with any other error it stopped within a
    pass, with fewer than 2000 files and as many pans as files or one
    more. *)
Theorem scan_failure_modes (H : Host) (k : Scan) (initialHash : Hash)
    (direction : string) (w w' : World) (e : Error) :
  k = horizontal H \/ k = vertical H ->
  scan_run k initialHash direction w = (Throw e, w') ->
  exists n bufs,
    pansOf (trace w') = pansOf (trace w) ++ replicate n (scan_vector k direction)
    /\ writesOf (trace w')
       = writesOf (trace w) ++ scanWrites H (scan_prefix k direction) 0 bufs
    /\ files w' = applyWrites (scanWrites H (scan_prefix k direction) 0 bufs) (files w)
    /\ (e = scan_cap k /\ n = 2000%nat /\ length bufs = 2000%nat
        \/ e <> scan_cap k
           /\ (length bufs < 2000)%nat
           /\ (n = length bufs \/ n = S (length bufs))).
Proof.
  intros Hk E. destruct (scan_is_edgeLoop H k direction initialHash Hk) as (Erun & _).
  rewrite Erun in E. clear Erun.
  apply edgeLoop_fails in E as (n & bufs & (Hp & Hw & Hf) & Hend).
  exists n, bufs.
  split; [rewrite Hp, <- surjective_pairing; reflexivity|].
  split; [exact Hw|]. split; [exact Hf|].
  destruct Hend as [Hcap|(He & Hlt & Hn)]; [left; exact Hcap|right].
  split; [|split; assumption].
  destruct Hk as [-> | ->], He as [-> | ->]; discriminate.
Qed.

(** A canvas that never renders: the first pan is made, the capture fails. *)
Lemma scan_failure_modes_witness :
  findEdgeVert deadCanvas "a" "down" w0
  = (Throw CaptureFailed, snd (findEdgeVert deadCanvas "a" "down" w0))
  /\ exists n (bufs : list Buffer),
       pansOf (trace (snd (findEdgeVert deadCanvas "a" "down" w0)))
       = pansOf (trace w0) ++ replicate n (scan_vector (vertical deadCanvas) "down")
       /\ (length bufs < 2000)%nat
       /\ (n = length bufs \/ n = S (length bufs)).
Proof.
  assert (findEdgeVert deadCanvas "a" "down" w0
          = (Throw CaptureFailed, snd (findEdgeVert deadCanvas "a" "down" w0))) as E
    by (vm_compute; reflexivity).
  split; [exact E|].
  destruct (scan_failure_modes deadCanvas (vertical deadCanvas) "a" "down" w0
              _ _ (or_intror eq_refl) E)
    as (n & bufs & Hp & _ & _ & [([=] & _)|(_ & Hlt & Hn)]).
  exists n, bufs. split; [exact Hp|]. split; [exact Hlt|exact Hn].
Defined.

(** ** Where re-homing leaves the view *)

Lemma panSum_more tr tr' n dx dy :
  pansOf tr' = pansOf tr ++ replicate n (dx, dy) ->
  panSum tr' = (fst (panSum tr) + Z.of_nat n * dx, snd (panSum tr) + Z.of_nat n * dy).
Proof.
  unfold panSum. intros ->. rewrite foldr_app, panSum_replicate. cbn [fst snd].
  generalize (Z.of_nat n * dx) (Z.of_nat n * dy). intros a b.
  induction (pansOf tr) as [|d l IH]; cbn [foldr fst snd]; [f_equal; lia|].
  rewrite IH. cbn [fst snd]. f_equal; lia.
Qed.

Section RehomeAnyPage.
Variable H : Host.

Lemma drag_wait_loop_pans n dx dy ms : forall start w u w',
  for_range n start (fun _ _ => dragPan H dx dy ;; waitForTimeout ms) tt w = (Ok u, w') ->
  pansOf (trace w') = pansOf (trace w) ++ replicate n (dx, dy).
Proof.
  induction n as [|n IH]; intros start w u w' E.
  - injection E as _ <-. cbn. rewrite app_nil_r. reflexivity.
  - cbn [for_range] in E. apply bind_ok_inv in E as ([] & w1 & E1 & E).
    apply IH in E. rewrite E. cbn [replicate].
    apply bind_ok_inv in E1 as ([] & w0' & Ed & Ew).
    unfold dragPan in Ed. destruct (page_drag_ok H (drags w)); [|discriminate].
    injection Ed as <-. injection Ew as <-. cbn [trace log_event].
    rewrite !pansOf_app. cbn. rewrite app_nil_r, <- app_assoc. reflexivity.
Qed.

Lemma findEdgeHoriz_fails initialHash direction w e w' :
  findEdgeHoriz H initialHash direction w = (Throw e, w') ->
  exists n : nat,
    pansOf (trace w')
    = pansOf (trace w)
      ++ replicate n (stepX * (if String.eqb direction "right" then -1 else 1), 0)
    /\ (n <= 2000)%nat /\ (e = HorizCapReached -> n = 2000%nat).
Proof.
  unfold findEdgeHoriz. intros E.
  apply edgeLoop_fails in E as (n & bufs & (Hp & _ & _) & Hend).
  exists n. split; [exact Hp|].
  destruct Hend as [(-> & -> & _)|([-> | ->] & Hlt & Hn)].
  - split; [lia|reflexivity].
  - split; [lia|discriminate].
  - split; [lia|discriminate].
Qed.

Lemma findEdgeVert_fails initialHash direction w e w' :
  findEdgeVert H initialHash direction w = (Throw e, w') ->
  exists n : nat,
    pansOf (trace w')
    = pansOf (trace w)
      ++ replicate n (0, stepY * (if String.eqb direction "down" then -1 else 1))
    /\ (n <= 2000)%nat /\ (e = VertCapReached -> n = 2000%nat).
Proof.
  unfold findEdgeVert. intros E.
  apply edgeLoop_fails in E as (n & bufs & (Hp & _ & _) & Hend).
  exists n. split; [exact Hp|].
  destruct Hend as [(-> & -> & _)|([-> | ->] & Hlt & Hn)].
  - split; [lia|reflexivity].
  - split; [lia|discriminate].
  - split; [lia|discriminate].
Qed.

(** The pans of an axis: those of the failed first scan, if any, then
    those of the scan that found the edge. *)
Lemma horizMeta_pans initialHash w meta w2 :
  horizMeta H initialHash w = (Ok meta, w2) ->
  exists z : Z,
    panSum (trace w2)
    = (fst (panSum (trace w)) + stepX * (z - Z.of_nat (steps meta)), snd (panSum (trace w)))
    /\ missedBy (findEdgeHoriz H initialHash "right" w) HorizCapReached w meta z.
Proof.
  unfold horizMeta, try_catch, missedBy. intros E.
  destruct (findEdgeHoriz H initialHash "right" w) as [[m|e] w1] eqn:E1; cbn [fst snd].
  - injection E as -> ->. exists 0. split; [|reflexivity].
    apply findEdgeHoriz_pans, panSum_more in E1. rewrite E1.
    cbn [String.eqb Ascii.eqb Bool.eqb]. f_equal; lia.
  - apply findEdgeHoriz_pans, panSum_more in E.
    apply findEdgeHoriz_fails in E1 as (n & Hp & Hle & Hcap).
    exists (2 * Z.of_nat (steps meta) - Z.of_nat n). split.
    + rewrite E, (panSum_more _ _ _ _ _ Hp).
      cbn [String.eqb Ascii.eqb Bool.eqb fst snd]. f_equal; lia.
    + exists n. rewrite Hp, length_app, length_replicate. auto.
Qed.

Lemma vertMeta_pans initialHash w meta w2 :
  vertMeta H initialHash w = (Ok meta, w2) ->
  exists z : Z,
    panSum (trace w2)
    = (fst (panSum (trace w)), snd (panSum (trace w)) + stepY * (z - Z.of_nat (steps meta)))
    /\ missedBy (findEdgeVert H initialHash "down" w) VertCapReached w meta z.
Proof.
  unfold vertMeta, try_catch, missedBy. intros E.
  destruct (findEdgeVert H initialHash "down" w) as [[m|e] w1] eqn:E1; cbn [fst snd].
  - injection E as -> ->. exists 0. split; [|reflexivity].
    apply findEdgeVert_pans, panSum_more in E1. rewrite E1.
    cbn [String.eqb Ascii.eqb Bool.eqb]. f_equal; lia.
  - apply findEdgeVert_pans, panSum_more in E.
    apply findEdgeVert_fails in E1 as (n & Hp & Hle & Hcap).
    exists (2 * Z.of_nat (steps meta) - Z.of_nat n). split.
    + rewrite E, (panSum_more _ _ _ _ _ Hp).
      cbn [String.eqb Ascii.eqb Bool.eqb fst snd]. f_equal; lia.
    + exists n. rewrite Hp, length_app, length_replicate. auto.
Qed.

(** Re-homing drags [steps] times by plus one step on each axis. *)
Lemma rehome_pans hMeta vMeta w w' :
  rehome H hMeta vMeta w = (Ok tt, w') ->
  panSum (trace w')
  = (fst (panSum (trace w)) + stepX * Z.of_nat (steps hMeta),
     snd (panSum (trace w)) + stepY * Z.of_nat (steps vMeta)).
Proof.
  unfold rehome. cbv zeta. intros E.
  apply bind_ok_inv in E as ([] & w1 & Ev & Eh).
  apply drag_wait_loop_pans, panSum_more in Ev, Eh. rewrite Eh, Ev. cbn [fst snd].
  unfold reverseSign.
  change (Math_round (inject_Z VIEWPORT_width * STEP_FRACTION)) with stepX.
  change (Math_round (inject_Z VIEWPORT_height * STEP_FRACTION)) with stepY.
  destruct (lastHash vMeta =? "")%string, (lastHash hMeta =? "")%string; f_equal; lia.
Qed.

End RehomeAnyPage.

(** X4.  Where re-homing leaves the view, whatever the page does.  When
    [scanAndRehome] returns, the pans issued since it started sum to
    [(stepX * zh, stepY * zv)] steps, where on each axis the miss is 0 if
    the first-direction scan found the edge, and otherwise
    [2 * steps - n]: the re-homing drags in the direction of the second
    scan again, and the [n] pans of the failed first scan (at most 2000,
    and exactly 2000 when it failed with the error of its cap) stay. *)
Theorem rehome_drift (H : Host) (w w4 : World) (hMeta vMeta : EdgeMeta) :
  scanAndRehome H w = (Ok (hMeta, vMeta), w4) ->
  exists buf w1 w2,
    captureCanvasBuffer H RETRY_ATTEMPTS w = (Ok buf, w1)
    /\ horizMeta H (md5 H buf) w1 = (Ok hMeta, w2)
    /\ exists zh zv : Z,
         panSum (trace w4)
         = (fst (panSum (trace w)) + stepX * zh, snd (panSum (trace w)) + stepY * zv)
         /\ missedBy (findEdgeHoriz H (md5 H buf) "right" w1) HorizCapReached w1 hMeta zh
         /\ missedBy (findEdgeVert H (md5 H buf) "down" w2) VertCapReached w2 vMeta zv.
Proof.
  unfold scanAndRehome. intros E.
  apply bind_ok_inv in E as (buf & w1 & Ec & E). cbv zeta in E.
  apply bind_ok_inv in E as (hM & w2 & Eh & E).
  apply bind_ok_inv in E as (vM & w3 & Ev & E).
  apply bind_ok_inv in E as ([] & w4' & Er & E). injection E as -> -> ->.
  exists buf, w1, w2. split; [exact Ec|]. split; [exact Eh|].
  pose proof (captureLoop_pans H RETRY_ATTEMPTS w) as Hc.
  unfold captureCanvasBuffer in Ec. rewrite Ec in Hc. cbn [snd] in Hc.
  apply panSum_same_pans in Hc.
  apply horizMeta_pans in Eh as (zh & Sh & Mh).
  apply vertMeta_pans in Ev as (zv & Sv & Mv).
  apply rehome_pans in Er.
  exists zh, zv. split; [|split; assumption].
  rewrite Er, Sv, Sh, Hc. cbn [fst snd]. f_equal; lia.
Qed.

(** A page that never changes: both first-direction scans find the edge
    after three pans, and re-homing returns to the start. *)
Lemma rehome_drift_witness :
  scanAndRehome stillPage w0
  = (Ok (mkEdgeMeta 3 "z", mkEdgeMeta 3 "z"), snd (scanAndRehome stillPage w0))
  /\ exists buf w1 w2,
       captureCanvasBuffer stillPage RETRY_ATTEMPTS w0 = (Ok buf, w1)
       /\ horizMeta stillPage (md5 stillPage buf) w1 = (Ok (mkEdgeMeta 3 "z"), w2)
       /\ exists zh zv : Z,
            panSum (trace (snd (scanAndRehome stillPage w0)))
            = (fst (panSum (trace w0)) + stepX * zh, snd (panSum (trace w0)) + stepY * zv)
            /\ missedBy (findEdgeHoriz stillPage (md5 stillPage buf) "right" w1)
                 HorizCapReached w1 (mkEdgeMeta 3 "z") zh
            /\ missedBy (findEdgeVert stillPage (md5 stillPage buf) "down" w2)
                 VertCapReached w2 (mkEdgeMeta 3 "z") zv.
Proof.
  split; [vm_compute; reflexivity|].
  apply rehome_drift. vm_compute. reflexivity.
Defined.

(** ** Where the view is during the raster sweep *)

Lemma panSum_cons_drag dx dy evs :
  panSum (Drag dx dy :: evs) = (dx + fst (panSum evs), dy + snd (panSum evs)).
Proof. reflexivity. Qed.

Lemma movedBy_nil pos : movedBy pos [] = pos.
Proof. unfold movedBy. cbn. destruct pos. cbn. f_equal; lia. Qed.

Lemma movedBy_app pos evs1 evs2 :
  movedBy pos (evs1 ++ evs2) = movedBy (movedBy pos evs1) evs2.
Proof. unfold movedBy. rewrite panSum_app. cbn [fst snd]. f_equal; lia. Qed.

Lemma viewsAt_app evs1 : forall pos evs2,
  viewsAt pos (evs1 ++ evs2) = viewsAt pos evs1 ++ viewsAt (movedBy pos evs1) evs2.
Proof.
  induction evs1 as [|e evs1 IH]; intros pos evs2.
  - rewrite movedBy_nil. reflexivity.
  - destruct e as [|dx dy|ms|p b]; cbn [app viewsAt]; rewrite IH.
    + reflexivity.
    + do 2 f_equal. unfold movedBy. rewrite panSum_cons_drag. cbn [fst snd].
      f_equal; lia.
    + reflexivity.
    + reflexivity.
Qed.

Lemma toured_refl pos w : toured pos w w [] pos.
Proof. exists []. rewrite app_nil_r, movedBy_nil. auto. Qed.

Lemma toured_trans pos1 pos2 pos3 w1 w2 w3 vs1 vs2 :
  toured pos1 w1 w2 vs1 pos2 -> toured pos2 w2 w3 vs2 pos3 ->
  toured pos1 w1 w3 (vs1 ++ vs2) pos3.
Proof.
  intros (e1 & T1 & V1 & M1) (e2 & T2 & V2 & M2). exists (e1 ++ e2).
  rewrite T2, T1, <- app_assoc, viewsAt_app, movedBy_app, M1, V1, V2, M2. auto.
Qed.

Lemma quiet_events pos evs :
  Forall (fun e => e = Evaluate \/ e = Wait 300) evs ->
  viewsAt pos evs = [] /\ movedBy pos evs = pos.
Proof.
  induction 1 as [|e evs [-> | ->] _ [IH1 IH2]].
  - rewrite movedBy_nil. auto.
  - split; [exact IH1|exact IH2].
  - split; [exact IH1|exact IH2].
Qed.

Section SweepViews.
Variable H : Host.

Lemma capture_toured pos n w r w' :
  captureLoop H n w = (r, w') -> toured pos w w' [] pos.
Proof.
  intros E. apply captureLoop_effects in E as (_ & _ & k & evs & _ & _ & Ht & Hall & _).
  destruct (quiet_events pos evs Hall) as [Hv Hm]. exists evs. auto.
Qed.

Lemma wait_toured pos ms w : toured pos w (snd (waitForTimeout ms w)) [] pos.
Proof. exists [Wait ms]. split; [reflexivity|]. split; [reflexivity|apply movedBy_nil]. Qed.

Lemma write_toured pos p b w : toured pos w (snd (writeFile p b w)) [(p, pos)] pos.
Proof. exists [WriteFile p b]. split; [reflexivity|]. split; [reflexivity|apply movedBy_nil]. Qed.

Lemma drag_then_wait_toured pos dx dy ms w u w' :
  (dragPan H dx dy ;; waitForTimeout ms) w = (Ok u, w') ->
  toured pos w w' [] (fst pos + dx, snd pos + dy).
Proof.
  intros E. apply bind_ok_inv in E as ([] & w1 & Ed & Ew).
  unfold dragPan in Ed. destruct (page_drag_ok H (drags w)); [|discriminate].
  injection Ed as <-. injection Ew as _ <-.
  exists [Drag dx dy; Wait ms]. cbn [trace log_event]. rewrite <- app_assoc.
  split; [reflexivity|]. split; [reflexivity|].
  unfold movedBy. cbn. f_equal; lia.
Qed.

Lemma for_range_toured {St} (body : nat -> St -> M St) (P : nat -> Z * Z)
    (V : nat -> list (string * (Z * Z))) :
  (forall i s w s' w', body i s w = (Ok s', w') -> toured (P i) w w' (V i) (P (S i))) ->
  forall n start s w s' w',
    for_range n start body s w = (Ok s', w') ->
    toured (P start) w w' (seq start n ≫= V) (P (start + n)%nat).
Proof.
  intros Hbody. induction n as [|n IH]; intros start s w s' w' E.
  - injection E as _ <-. rewrite Nat.add_0_r. apply toured_refl.
  - cbn [for_range] in E. apply bind_ok_inv in E as (s1 & w1 & E1 & E).
    cbn [seq]. rewrite bind_cons.
    replace (start + S n)%nat with (S start + n)%nat by lia.
    eapply toured_trans; [eapply Hbody; eassumption|eapply IH; eassumption].
Qed.

Lemma bind_singleton_fmap {A B} (f : A -> B) (l : list A) :
  l ≫= (fun x => [f x]) = f <$> l.
Proof. induction l as [|x l IH]; [reflexivity|]. rewrite bind_cons, IH. reflexivity. Qed.

Lemma bind_seq_ext {B} (f g : nat -> list B) n : forall start,
  (forall i, (start <= i < start + n)%nat -> f i = g i) ->
  seq start n ≫= f = seq start n ≫= g.
Proof.
  induction n as [|n IH]; intros start Hfg; [reflexivity|].
  cbn [seq]. rewrite !bind_cons, (Hfg start) by lia. f_equal.
  apply IH. intros i Hi. apply Hfg. lia.
Qed.

Lemma sweepCell_toured ncols r x y c rowFiles w rowFiles' w' :
  sweepCell H ncols r c rowFiles w = (Ok rowFiles', w') ->
  toured (colView ncols x y c) w w'
    [(tilePath H r c, colView ncols x y c)] (colView ncols x y (S c)).
Proof.
  unfold sweepCell. intros E.
  apply bind_ok_inv in E as ([] & w1 & E1 & E).
  apply bind_ok_inv in E as (buf & w2 & E2 & E).
  apply bind_ok_inv in E as ([] & w3 & E3 & E). cbv zeta in E.
  apply bind_ok_inv in E as ([] & w4 & E4 & E). injection E as _ <-.
  pose proof (wait_toured (colView ncols x y c) DELAY_MS w) as T1. rewrite E1 in T1.
  pose proof (capture_toured (colView ncols x y c) _ _ _ _ E2) as T2.
  pose proof (write_toured (colView ncols x y c) (tilePath H r c) buf w2) as T3.
  rewrite E3 in T3. cbn [snd] in T1, T3.
  assert (toured (colView ncols x y c) w3 w4 [] (colView ncols x y (S c))) as T4.
  { destruct (Z.of_nat c <? Z.of_nat ncols - 1)%Z eqn:Hc.
    - apply Z.ltb_lt in Hc. apply (drag_then_wait_toured (colView ncols x y c)) in E4.
      replace (colView ncols x y (S c))
        with (fst (colView ncols x y c) + - stepX, snd (colView ncols x y c) + 0);
        [exact E4|].
      unfold colView. cbn [fst snd]. f_equal; [|lia].
      rewrite !Nat.min_l by lia. lia.
    - apply Z.ltb_ge in Hc. injection E4 as <-.
      replace (colView ncols x y (S c)) with (colView ncols x y c); [apply toured_refl|].
      unfold colView. f_equal. rewrite !Nat.min_r by lia. reflexivity. }
  apply (toured_trans _ _ _ _ _ _ [] _ T1), (toured_trans _ _ _ _ _ _ [] _ T2).
  rewrite <- (app_nil_r [_]). exact (toured_trans _ _ _ _ _ _ _ _ T3 T4).
Qed.

Lemma return_loop_toured n dx dy ms : forall pos start w u w',
  for_range n start (fun _ _ => dragPan H dx dy ;; waitForTimeout ms) tt w = (Ok u, w') ->
  toured pos w w' [] (fst pos + Z.of_nat n * dx, snd pos + Z.of_nat n * dy).
Proof.
  induction n as [|n IH]; intros pos start w u w' E.
  - injection E as _ <-. replace (_, _) with pos; [apply toured_refl|].
    destruct pos. cbn. f_equal; lia.
  - cbn [for_range] in E. apply bind_ok_inv in E as ([] & w1 & E1 & E).
    apply (drag_then_wait_toured pos) in E1. apply (IH (fst pos + dx, snd pos + dy)) in E.
    cbn [fst snd] in E.
    replace (fst pos + Z.of_nat (S n) * dx, snd pos + Z.of_nat (S n) * dy)
      with (fst pos + dx + Z.of_nat n * dx, snd pos + dy + Z.of_nat n * dy)
      by (f_equal; lia).
    exact (toured_trans _ _ _ _ _ _ [] [] E1 E).
Qed.

Lemma sweepRow_toured nrows ncols x y r saved w saved' w' :
  sweepRow H nrows ncols r saved w = (Ok saved', w') ->
  toured (rowView nrows x y r) w w'
    ((fun c => (tilePath H r c,
                (x - Z.of_nat c * stepX, snd (rowView nrows x y r)))) <$> seq 0 ncols)
    (rowView nrows x y (S r)).
Proof.
  unfold sweepRow. intros E.
  apply bind_ok_inv in E as (rowFiles & w1 & E1 & E). cbv zeta in E.
  apply bind_ok_inv in E as ([] & w2 & E2 & E).
  apply bind_ok_inv in E as ([] & w3 & E3 & E). injection E as _ <-.
  set (y' := snd (rowView nrows x y r)).
  apply (for_range_toured _ (colView ncols x y')
           (fun c => [(tilePath H r c, colView ncols x y' c)])) in E1;
    [|intros; eapply sweepCell_toured; eassumption].
  apply (return_loop_toured _ _ _ _ (colView ncols x y' (0 + ncols))) in E2.
  assert (toured (rowView nrows x y r) w2 w3 [] (rowView nrows x y (S r))) as T3.
  { destruct (Z.of_nat r <? Z.of_nat nrows - 1)%Z eqn:Hr.
    - apply Z.ltb_lt in Hr. apply (drag_then_wait_toured (rowView nrows x y r)) in E3.
      replace (rowView nrows x y (S r))
        with (fst (rowView nrows x y r) + 0, snd (rowView nrows x y r) + - stepY);
        [exact E3|].
      unfold rowView. cbn [fst snd]. f_equal; [lia|].
      rewrite !Nat.min_l by lia. lia.
    - apply Z.ltb_ge in Hr. injection E3 as <-.
      replace (rowView nrows x y (S r)) with (rowView nrows x y r); [apply toured_refl|].
      unfold rowView. f_equal. rewrite !Nat.min_r by lia. reflexivity. }
  replace (colView ncols x y' 0) with (rowView nrows x y r) in E1
    by (unfold y', colView, rowView; cbn [fst snd Nat.min]; f_equal; lia).
  replace (fst (colView ncols x y' (0 + ncols)) + Z.of_nat (Z.to_nat (Z.of_nat ncols - 1)) * stepX,
           snd (colView ncols x y' (0 + ncols)) + Z.of_nat (Z.to_nat (Z.of_nat ncols - 1)) * 0)
    with (rowView nrows x y r) in E2.
  2:{ unfold y', colView, rowView. cbn [fst snd]. f_equal; [|lia].
      rewrite Nat.min_r by lia.
      replace (Z.of_nat (Z.to_nat (Z.of_nat ncols - 1))) with (Z.of_nat (ncols - 1)) by lia.
      lia. }
  assert (seq 0 ncols ≫= (fun c => [(tilePath H r c, colView ncols x y' c)])
          = (fun c => (tilePath H r c, (x - Z.of_nat c * stepX, y'))) <$> seq 0 ncols) as Hv.
  { transitivity (seq 0 ncols ≫= (fun c => [(tilePath H r c, (x - Z.of_nat c * stepX, y'))])).
    - apply bind_seq_ext. intros c Hc. unfold colView. rewrite Nat.min_l by lia. reflexivity.
    - apply bind_singleton_fmap. }
  rewrite Hv in E1.
  rewrite <- (app_nil_r (_ <$> seq 0 ncols)).
  eapply toured_trans; [exact E1|]. exact (toured_trans _ _ _ _ _ _ [] [] E2 T3).
Qed.

End SweepViews.

(** X5.  The raster sweep captures each cell where the stitcher will
    draw it.  Whatever the page does, in a sweep that completes the drags
    issued before the tile of cell [(r, c)] is written sum to
    [(- c * stepX, - r * stepY)]: the view is [c] steps to the right and
    [r] steps below the first cell, which is the offset
    [(c * effectiveStepX, r * effectiveStepY)] at which [stitch] draws that
    tile.  Tiles are written in row-major order and nothing else is
    written; when the sweep ends the view is back in the first column of
    the last row. *)
Theorem sweep_views_match_offsets (H : Host) (nrows ncols : nat) (w w' : World)
    (saved : list (list string)) :
  sweep H nrows ncols w = (Ok saved, w') ->
  exists evs,
    trace w' = trace w ++ evs
    /\ viewsAt (0, 0) evs
       = (fun rc => (tilePath H (fst rc) (snd rc), cellView rc)) <$> gridCells nrows ncols
    /\ movedBy (0, 0) evs = (0, - (Z.of_nat (nrows - 1) * stepY))
    /\ (stepX, stepY) = (effectiveStepX, effectiveStepY).
Proof.
  unfold sweep. intros E.
  apply (for_range_toured _ (rowView nrows 0 0)
           (fun r => (fun c => (tilePath H r c,
                        (0 - Z.of_nat c * stepX, snd (rowView nrows 0 0 r)))) <$> seq 0 ncols))
    in E; [|intros; eapply sweepRow_toured; eassumption].
  destruct E as (evs & Ht & Hv & Hm). exists evs. split; [exact Ht|].
  change (rowView nrows 0 0 0) with (0, 0 - 0 * stepY) in Hv, Hm.
  replace (0 - 0 * stepY) with 0 in Hv, Hm by lia.
  split; [|split].
  - rewrite Hv. unfold gridCells. rewrite fmap_bind_list.
    apply bind_seq_ext. intros r Hr. rewrite <- list_fmap_compose.
    apply list_fmap_ext. intros _ c _. cbn. unfold cellView, rowView. cbn [fst snd].
    rewrite Nat.min_l by lia. do 2 f_equal; lia.
  - rewrite Hm. unfold rowView. f_equal. rewrite Nat.min_r by lia. lia.
  - reflexivity.
Qed.

(** A still page, two rows of three cells. *)
Lemma sweep_views_match_offsets_witness :
  sweep stillPage 2 3 w0 = (Ok (gridPaths stillPage 2 3), snd (sweep stillPage 2 3 w0))
  /\ exists evs,
       trace (snd (sweep stillPage 2 3 w0)) = trace w0 ++ evs
       /\ viewsAt (0, 0) evs
          = (fun rc => (tilePath stillPage (fst rc) (snd rc), cellView rc)) <$> gridCells 2 3
       /\ movedBy (0, 0) evs = (0, - (Z.of_nat (2 - 1) * stepY))
       /\ (stepX, stepY) = (effectiveStepX, effectiveStepY).
Proof.
  split; [vm_compute; reflexivity|].
  apply (sweep_views_match_offsets stillPage 2 3 w0 _ (gridPaths stillPage 2 3)).
  vm_compute. reflexivity.
Defined.

(** ** A run that completes *)

Section CompleteRun.
Variable H : Host.

Lemma horizMeta_steps initialHash w meta w' :
  horizMeta H initialHash w = (Ok meta, w') -> (3 <= steps meta <= 2000)%nat.
Proof.
  unfold horizMeta, try_catch. intros E.
  assert (forall d w1 w2, findEdgeHoriz H initialHash d w1 = (Ok meta, w2) ->
            (3 <= steps meta <= 2000)%nat) as Hs.
  { unfold findEdgeHoriz. intros d w1 w2 E1.
    apply edgeLoop_settles in E1 as (bufs & _ & Hst & Hlen & Hend); [|lia].
    destruct Hend as [(Hn & _)|(pre & b0 & b1 & b2 & b3 & -> & _)].
    - lia.
    - rewrite length_app in Hst, Hlen. cbn [length] in Hst, Hlen. lia. }
  destruct (findEdgeHoriz H initialHash "right" w) as [[m|e] w1] eqn:E1.
  - injection E as <- <-. eapply Hs. exact E1.
  - eapply Hs. exact E.
Qed.

Lemma vertMeta_steps initialHash w meta w' :
  vertMeta H initialHash w = (Ok meta, w') -> (3 <= steps meta <= 2000)%nat.
Proof.
  unfold vertMeta, try_catch. intros E.
  assert (forall d w1 w2, findEdgeVert H initialHash d w1 = (Ok meta, w2) ->
            (3 <= steps meta <= 2000)%nat) as Hs.
  { unfold findEdgeVert. intros d w1 w2 E1.
    apply edgeLoop_settles in E1 as (bufs & _ & Hst & Hlen & Hend); [|lia].
    destruct Hend as [(Hn & _)|(pre & b0 & b1 & b2 & b3 & -> & _)].
    - lia.
    - rewrite length_app in Hst, Hlen. cbn [length] in Hst, Hlen. lia. }
  destruct (findEdgeVert H initialHash "down" w) as [[m|e] w1] eqn:E1.
  - injection E as <- <-. eapply Hs. exact E1.
  - eapply Hs. exact E.
Qed.

(** A stitch that returns has found every stored tile decodable, and has
    left the world alone. *)
Lemma stitchRow_inv r row : forall c ds w ds' w',
  stitchRow H r c row ds w = (Ok ds', w') ->
  w' = w
  /\ forall p bytes, p ∈ row -> files w !! p = Some bytes -> loadImage_ok H bytes = true.
Proof.
  induction row as [|p row IH]; intros c ds w ds' w' E.
  - injection E as _ <-. split; [reflexivity|]. intros q b Hq. apply elem_of_nil in Hq. contradiction.
  - cbn [stitchRow] in E. apply bind_ok_inv in E as (ds1 & w1 & E1 & E).
    assert (w1 = w /\ forall bytes, files w !! p = Some bytes -> loadImage_ok H bytes = true)
      as [-> Hp].
    { unfold stitchCell in E1. destruct (files w !! p) as [b|].
      - destruct (loadImage_ok H b) eqn:Hl; [|discriminate].
        injection E1 as _ <-. split; [reflexivity|]. intros bytes [= <-]. exact Hl.
      - injection E1 as _ <-. split; [reflexivity|]. discriminate. }
    apply IH in E as [-> Hrow]. split; [reflexivity|].
    intros q b Hq. apply elem_of_cons in Hq as [-> | Hq]; [apply Hp|apply Hrow; exact Hq].
Qed.

Lemma stitchRows_inv saved : forall r ds w ds' w',
  stitchRows H r saved ds w = (Ok ds', w') ->
  w' = w /\ decodable H (files w) saved.
Proof.
  induction saved as [|row saved IH]; intros r ds w ds' w' E.
  - injection E as _ <-. split; [reflexivity|]. intros p b Hp. apply elem_of_nil in Hp.
    contradiction.
  - cbn [stitchRows] in E. apply bind_ok_inv in E as (ds1 & w1 & E1 & E).
    apply stitchRow_inv in E1 as [-> Hrow]. apply IH in E as [-> Hrest].
    split; [reflexivity|]. intros p b Hp. cbn [concat] in Hp.
    apply elem_of_app in Hp as [Hp|Hp]; [apply Hrow; exact Hp|apply Hrest; exact Hp].
Qed.

Lemma stitch_inv ncols nrows saved w cv w' :
  stitch H ncols nrows saved w = (Ok cv, w') ->
  w' = w /\ decodable H (files w) saved /\ drawn cv = gridDraws (files w) 0 saved.
Proof.
  intros E. pose proof E as E'. unfold stitch in E'.
  apply bind_ok_inv in E' as (ds & w1 & E1 & _).
  apply stitchRows_inv in E1 as [-> Hd].
  rewrite (stitch_run H ncols nrows saved w Hd) in E. injection E as <- <-. auto.
Qed.

(** What is drawn for a full table whose tiles are all stored. *)
Lemma rowDraws_tiles fs r n : forall c,
  rowDraws fs r c (tilePath H r <$> seq c n)
  = seq c n ≫= (fun c' => cellDraws fs r c' (tilePath H r c')).
Proof.
  induction n as [|n IH]; intros c; [reflexivity|].
  cbn [seq fmap list_fmap rowDraws]. rewrite bind_cons. f_equal. apply IH.
Qed.

Lemma gridDraws_tiles fs ncols n : forall r,
  gridDraws fs r ((fun r' => tilePath H r' <$> seq 0 ncols) <$> seq r n)
  = (seq r n ≫= (fun r' => (fun c => (r', c)) <$> seq 0 ncols))
    ≫= (fun rc : nat * nat => cellDraws fs (fst rc) (snd rc) (tilePath H (fst rc) (snd rc))).
Proof.
  induction n as [|n IH]; intros r; [reflexivity|].
  cbn [seq fmap list_fmap gridDraws]. rewrite bind_cons, bind_app, IH, rowDraws_tiles.
  f_equal. rewrite list_fmap_bind. reflexivity.
Qed.

(** Looking up, cell by cell, files that were all written. *)
Lemma draws_of_stored {A} (f : A -> string) (g : A -> Buffer -> DrawOp)
    (fs : gmap string string) (l : list A) : forall tiles : list (string * Buffer),
  fst <$> tiles = f <$> l ->
  Forall (fun pb => fs !! fst pb = Some (snd pb)) tiles ->
  l ≫= (fun x => match fs !! f x with Some b => [g x b] | None => [] end)
  = zip_with (fun x pb => g x (snd pb)) l tiles.
Proof.
  induction l as [|x l IH]; intros [|[p b] tiles] Hk Hall; try discriminate; [reflexivity|].
  rewrite !fmap_cons in Hk. injection Hk as Hp Hk. cbn [fst] in Hp. subst p.
  apply Forall_cons in Hall as [Hx Hall]. cbn [fst snd] in Hx.
  rewrite bind_cons, Hx. cbn [zip_with app snd]. f_equal. apply IH; assumption.
Qed.

End CompleteRun.

(** X6.  A run that completes draws every tile of the grid.  Whatever the
    page does, when [main] returns, each scan made between 3 and 2000
    steps, so the grid has between 4 and 2001 columns and rows; the table
    [saved] is the full grid; the last files written are its tiles, in
    row-major order, each still on disk with the bytes captured for it and
    decodable; and the composite holds exactly one draw per cell, in that
    order, of that cell's tile at
    [(column * effectiveStepX, row * effectiveStepY)]: no slot is skipped. *)
Theorem complete_run_draws_every_tile (H : Host) (w w' : World) (run : Run) :
  main H w = (Ok run, w') ->
  (3 <= steps (run_horiz run) <= 2000)%nat
  /\ (3 <= steps (run_vert run) <= 2000)%nat
  /\ run_saved run = gridPaths H (rows (run_vert run)) (cols (run_horiz run))
  /\ exists (earlier tiles : list (string * Buffer)),
       writesOf (trace w') = earlier ++ tiles
       /\ fst <$> tiles
          = (fun rc => tilePath H (fst rc) (snd rc))
              <$> gridCells (rows (run_vert run)) (cols (run_horiz run))
       /\ length tiles = (rows (run_vert run) * cols (run_horiz run))%nat
       /\ Forall (fun pb => files w' !! fst pb = Some (snd pb)
                            /\ loadImage_ok H (snd pb) = true) tiles
       /\ drawn (run_canvas run)
          = zip_with
              (fun rc pb => mkDraw (snd pb) (Z.of_nat (snd rc) * effectiveStepX)
                                   (Z.of_nat (fst rc) * effectiveStepY) tileW tileH)
              (gridCells (rows (run_vert run)) (cols (run_horiz run))) tiles.
Proof.
  unfold main. intros E.
  apply bind_ok_inv in E as ([hMeta vMeta] & w1 & Es & E). cbv zeta in E. cbn [fst snd] in E.
  apply bind_ok_inv in E as ([] & w2 & _ & E).
  apply bind_ok_inv in E as (saved & w3 & Esw & E).
  apply bind_ok_inv in E as (cv & w4 & Est & E). injection E as <- <-.
  cbn [run_horiz run_vert run_saved run_canvas].
  unfold scanAndRehome in Es.
  apply bind_ok_inv in Es as (buf & wa & _ & Es). cbv zeta in Es.
  apply bind_ok_inv in Es as (hM & wb & Eh & Es).
  apply bind_ok_inv in Es as (vM & wc & Ev & Es).
  apply bind_ok_inv in Es as ([] & wd & _ & Es). injection Es as -> -> _.
  apply horizMeta_steps in Eh. apply vertMeta_steps in Ev.
  split; [exact Eh|]. split; [exact Ev|].
  pose proof (sweep_shape _ _ _ _ _ _ Esw) as ->.
  split; [reflexivity|].
  apply sweep_wrote in Esw as (tiles & Hk & Hf & Hw).
  apply stitch_inv in Est as (-> & Hdec & Hdr).
  assert (NoDup (fst <$> tiles)) as Hnd.
  { rewrite Hk. apply NoDup_fmap_2_strong; [|apply gridCells_NoDup].
    intros [r c] [r' c'] _ _ Ep. cbn in Ep. apply tilePath_inj in Ep as [-> ->]. reflexivity. }
  assert (Forall (fun pb => files w3 !! fst pb = Some (snd pb)) tiles) as Hstored.
  { apply Forall_forall. intros [p b] Hin. rewrite Hf. cbn [fst snd].
    apply applyWrites_lookup; assumption. }
  exists (writesOf (trace w2)), tiles.
  split; [exact Hw|]. split; [exact Hk|].
  split; [rewrite <- (length_fmap fst), Hk, length_fmap; apply gridCells_length|].
  split.
  - apply Forall_forall. intros [p b] Hin.
    pose proof (proj1 (Forall_forall _ _) Hstored _ Hin) as Hp. cbn [fst snd] in Hp |- *.
    split; [exact Hp|]. apply (Hdec p b); [|exact Hp].
    rewrite <- gridWrites_keys_paths with (frames := fun _ => ""), gridWrites_keys, <- Hk.
    apply (list_elem_of_fmap_2 fst _ _ Hin).
  - rewrite Hdr. unfold gridPaths. rewrite gridDraws_tiles.
    unfold cellDraws. apply (draws_of_stored (fun rc => tilePath H (fst rc) (snd rc))
      (fun rc b => mkDraw b (Z.of_nat (snd rc) * effectiveStepX)
                          (Z.of_nat (fst rc) * effectiveStepY) tileW tileH));
      assumption.
Qed.

(** A page that never changes: both scans stop after three steps and the
    run stores and draws a 4 by 4 grid. *)
Lemma complete_run_draws_every_tile_witness :
  exists run w',
    main stillPage w0 = (Ok run, w')
    /\ (3 <= steps (run_horiz run) <= 2000)%nat
    /\ (3 <= steps (run_vert run) <= 2000)%nat
    /\ run_saved run = gridPaths stillPage (rows (run_vert run)) (cols (run_horiz run))
    /\ exists (earlier tiles : list (string * Buffer)),
         writesOf (trace w') = earlier ++ tiles
         /\ fst <$> tiles
            = (fun rc => tilePath stillPage (fst rc) (snd rc))
                <$> gridCells (rows (run_vert run)) (cols (run_horiz run))
         /\ length tiles = (rows (run_vert run) * cols (run_horiz run))%nat
         /\ Forall (fun pb => files w' !! fst pb = Some (snd pb)
                              /\ loadImage_ok stillPage (snd pb) = true) tiles
         /\ drawn (run_canvas run)
            = zip_with
                (fun rc pb => mkDraw (snd pb) (Z.of_nat (snd rc) * effectiveStepX)
                                     (Z.of_nat (fst rc) * effectiveStepY) tileW tileH)
                (gridCells (rows (run_vert run)) (cols (run_horiz run))) tiles.
Proof.
  assert (match fst (main stillPage w0) with Ok _ => true | Throw _ => false end = true)
    as Hok by (vm_compute; reflexivity).
  destruct (main stillPage w0) as [[run|e] w'] eqn:E.
  - exists run, w'. split; [reflexivity|].
    apply (complete_run_draws_every_tile stillPage w0 w' run E).
  - discriminate Hok.
Defined.

(** ** When the stitcher or the sweep fails *)

Section StitchFailure.
Variable H : Host.

Local Abbreviation passable := (passable H).
Local Abbreviation undecodable := (undecodable H).

Lemma stitchCell_cases r c p ds w :
  (passable w p /\ exists ds', stitchCell H r c p ds w = (Ok ds', w))
  \/ (undecodable w p /\ stitchCell H r c p ds w = (Throw (LoadImageFailed p), w)).
Proof.
  unfold stitchCell, passable, undecodable. destruct (files w !! p) as [b|].
  - destruct (loadImage_ok H b) eqn:Hb.
    + left. split; [|eauto]. intros bytes [= <-]. exact Hb.
    + right. split; [eauto|reflexivity].
  - left. split; [discriminate|eauto].
Qed.

Lemma stitchRow_cases r row : forall c ds w,
  (Forall (passable w) row /\ exists ds', stitchRow H r c row ds w = (Ok ds', w))
  \/ exists pre p post,
       row = pre ++ p :: post /\ Forall (passable w) pre /\ undecodable w p
       /\ stitchRow H r c row ds w = (Throw (LoadImageFailed p), w).
Proof.
  induction row as [|p row IH]; intros c ds w.
  - left. split; [constructor|]. exists ds. reflexivity.
  - cbn [stitchRow]. rewrite run_bind.
    destruct (stitchCell_cases r c p ds w) as [(Hp & ds1 & ->)|(Hp & ->)].
    + destruct (IH (S c) ds1 w) as [(Hrow & ds' & E)|(pre & q & post & -> & Hpre & Hq & E)].
      * left. split; [constructor; assumption|]. exists ds'. exact E.
      * right. exists (p :: pre), q, post. split; [reflexivity|].
        split; [constructor; assumption|]. split; [exact Hq|exact E].
    + right. exists [], p, row. split; [reflexivity|]. split; [constructor|].
      split; [exact Hp|reflexivity].
Qed.

Lemma stitchRows_cases saved : forall r ds w,
  (Forall (passable w) (concat saved) /\ exists ds', stitchRows H r saved ds w = (Ok ds', w))
  \/ exists pre p post,
       concat saved = pre ++ p :: post /\ Forall (passable w) pre /\ undecodable w p
       /\ stitchRows H r saved ds w = (Throw (LoadImageFailed p), w).
Proof.
  induction saved as [|row saved IH]; intros r ds w.
  - left. split; [constructor|]. exists ds. reflexivity.
  - cbn [stitchRows concat]. rewrite run_bind.
    destruct (stitchRow_cases r row 0%nat ds w)
      as [(Hrow & ds1 & ->)|(pre & q & post & -> & Hpre & Hq & ->)].
    + destruct (IH (S r) ds1 w) as [(Hrest & ds' & E)|(pre & q & post & Ec & Hpre & Hq & E)].
      * left. split; [apply Forall_app; auto|]. exists ds'. exact E.
      * right. exists (row ++ pre), q, post. rewrite Ec, app_assoc.
        split; [reflexivity|]. split; [apply Forall_app; auto|]. split; [exact Hq|exact E].
    + right. exists pre, q, (post ++ concat saved). rewrite <- app_assoc.
      split; [reflexivity|]. split; [exact Hpre|]. split; [exact Hq|reflexivity].
Qed.

Lemma stitch_leaves_world ncols nrows saved w :
  snd (stitch H ncols nrows saved w) = w.
Proof.
  unfold stitch. rewrite run_bind.
  destruct (stitchRows_cases saved 0%nat [] w)
    as [(_ & ds & ->)|(pre & p & post & _ & _ & _ & ->)]; reflexivity.
Qed.

End StitchFailure.

(** X7.  The stitcher stops at the first tile it cannot decode.  [stitch]
    never changes the files; it returns a composite exactly when every
    stored tile of the table decodes, and otherwise fails with the load
    error of the first undecodable tile in row-major order, whatever comes
    after it. *)
Theorem stitch_stops_at_first_bad_tile (H : Host) (ncols nrows : nat)
    (saved : list (list string)) (w : World) :
  snd (stitch H ncols nrows saved w) = w
  /\ match fst (stitch H ncols nrows saved w) with
     | Ok cv => Forall (passable H w) (concat saved)
     | Throw e =>
         exists pre p post,
           concat saved = pre ++ p :: post
           /\ Forall (passable H w) pre
           /\ undecodable H w p
           /\ e = LoadImageFailed p
     end.
Proof.
  unfold stitch. rewrite run_bind.
  destruct (stitchRows_cases H saved 0%nat [] w)
    as [(Hall & ds & ->)|(pre & p & post & Ec & Hpre & Hp & ->)]; cbn [fst snd].
  - split; [reflexivity|exact Hall].
  - split; [reflexivity|]. exists pre, p, post. auto.
Qed.

Section SweepFailure.
Variable H : Host.

Lemma for_range_throws {St} (body : nat -> St -> M St) (P : nat -> list string)
    (Q : Error -> Prop) :
  (forall i s w s' w', body i s w = (Ok s', w') -> wrote w w' (P i)) ->
  (forall i s w e w', body i s w = (Throw e, w') ->
     Q e /\ exists ps, ps `prefix_of` P i /\ wrote w w' ps) ->
  forall n start s w e w',
    for_range n start body s w = (Throw e, w') ->
    Q e /\ exists ps, ps `prefix_of` (seq start n ≫= P) /\ wrote w w' ps.
Proof.
  intros Hok Hthrow. induction n as [|n IH]; intros start s w e w' E; [discriminate|].
  cbn [for_range] in E. cbn [seq]. rewrite bind_cons.
  apply bind_throw_inv in E as [E|(s1 & w1 & E1 & E)].
  - apply Hthrow in E as (HQ & ps & Hpre & Hw). split; [exact HQ|].
    exists ps. split; [|exact Hw]. apply prefix_app_r. exact Hpre.
  - apply Hok in E1. apply IH in E as (HQ & ps & Hpre & Hw). split; [exact HQ|].
    exists (P start ++ ps). split; [apply prefix_app; exact Hpre|].
    eapply wrote_trans; eassumption.
Qed.

Lemma drag_then_wait_throws dx dy ms w e w' :
  (dragPan H dx dy ;; waitForTimeout ms) w = (Throw e, w') ->
  e = DragRejected /\ wrote w w' [].
Proof.
  intros E. split; [|eapply drag_then_wait_wrote; exact E].
  apply bind_throw_inv in E as [E|([] & w1 & _ & E)]; [|discriminate].
  unfold dragPan in E. destruct (page_drag_ok H (drags w)); [discriminate|].
  injection E as <- _. reflexivity.
Qed.

Lemma sweepCell_throws ncols r c rowFiles w e w' :
  sweepCell H ncols r c rowFiles w = (Throw e, w') ->
  (e = DragRejected \/ e = CaptureFailed)
  /\ exists ps, ps `prefix_of` [tilePath H r c] /\ wrote w w' ps.
Proof.
  unfold sweepCell. intros E.
  apply bind_throw_inv in E as [E|([] & w1 & E1 & E)]; [discriminate|].
  pose proof (waitForTimeout_wrote DELAY_MS w) as W1. rewrite E1 in W1. cbn [snd] in W1.
  apply bind_throw_inv in E as [E|(buf & w2 & E2 & E)].
  { split; [right; eapply captureLoop_throws; exact E|].
    exists []. split; [apply prefix_nil|].
    pose proof (captureLoop_wrote H RETRY_ATTEMPTS w1) as W2.
    unfold captureCanvasBuffer in E. rewrite E in W2. cbn [snd] in W2.
    exact (wrote_trans _ _ _ [] [] W1 W2). }
  pose proof (captureLoop_wrote H RETRY_ATTEMPTS w1) as W2.
  unfold captureCanvasBuffer in E2. rewrite E2 in W2. cbn [snd] in W2.
  apply bind_throw_inv in E as [E|([] & w3 & E3 & E)]; [discriminate|].
  pose proof (writeFile_wrote (tilePath H r c) buf w2) as W3. rewrite E3 in W3. cbn [snd] in W3.
  cbv zeta in E.
  apply bind_throw_inv in E as [E|([] & w4 & _ & E)]; [|discriminate].
  destruct (Z.of_nat c <? Z.of_nat ncols - 1)%Z; [|discriminate].
  apply drag_then_wait_throws in E as [-> W4]. split; [left; reflexivity|].
  exists [tilePath H r c]. split; [reflexivity|].
  apply (wrote_trans _ _ _ [] _ W1), (wrote_trans _ _ _ [] _ W2).
  rewrite <- (app_nil_r [tilePath H r c]). exact (wrote_trans _ _ _ _ _ W3 W4).
Qed.

Lemma bind_nil_const {A B} (l : list A) : l ≫= (fun _ => @nil B) = [].
Proof. induction l as [|x l IH]; [reflexivity|]. rewrite bind_cons. exact IH. Qed.

Lemma sweepRow_throws nrows ncols r saved w e w' :
  sweepRow H nrows ncols r saved w = (Throw e, w') ->
  (e = DragRejected \/ e = CaptureFailed)
  /\ exists ps, ps `prefix_of` (tilePath H r <$> seq 0 ncols) /\ wrote w w' ps.
Proof.
  unfold sweepRow. intros E.
  apply bind_throw_inv in E as [E|(rowFiles & w1 & E1 & E)].
  { apply (for_range_throws _ (fun c => [tilePath H r c])
             (fun e => e = DragRejected \/ e = CaptureFailed)) in E.
    - rewrite bind_singleton_fmap in E. exact E.
    - intros; eapply sweepCell_wrote; eassumption.
    - intros; eapply sweepCell_throws; eassumption. }
  apply (for_range_wrote _ (fun c => [tilePath H r c])) in E1;
    [|intros; eapply sweepCell_wrote; eassumption].
  rewrite bind_singleton_fmap in E1. cbv zeta in E.
  assert (forall w2, wrote w1 w2 [] ->
            exists ps, ps `prefix_of` (tilePath H r <$> seq 0 ncols) /\ wrote w w2 ps) as Hall.
  { intros w2 W2. exists (tilePath H r <$> seq 0 ncols). split; [reflexivity|].
    rewrite <- (app_nil_r (tilePath H r <$> seq 0 ncols)).
    eapply wrote_trans; eassumption. }
  apply bind_throw_inv in E as [E|([] & w2 & E2 & E)].
  { apply (for_range_throws _ (fun _ => []) (fun e => e = DragRejected)) in E.
    - destruct E as (-> & ps & Hpre & W). split; [left; reflexivity|].
      rewrite bind_nil_const in Hpre. apply prefix_nil_inv in Hpre. subst ps.
      apply Hall. exact W.
    - intros i [] wa [] wb Eb. eapply drag_then_wait_wrote. exact Eb.
    - intros i [] wa e' wb Eb. apply drag_then_wait_throws in Eb as [-> W].
      split; [reflexivity|]. exists []. split; [reflexivity|exact W]. }
  apply (for_range_wrote _ (fun _ => [])) in E2;
    [|intros i [] wa [] wb Eb; eapply drag_then_wait_wrote; exact Eb].
  rewrite bind_nil_const in E2.
  apply bind_throw_inv in E as [E|([] & w3 & _ & E)]; [|discriminate].
  destruct (Z.of_nat r <? Z.of_nat nrows - 1)%Z; [|discriminate].
  apply drag_then_wait_throws in E as [-> W3]. split; [left; reflexivity|].
  apply Hall. exact (wrote_trans _ _ _ [] [] E2 W3).
Qed.

End SweepFailure.

(** X8.  A sweep that fails leaves a prefix of the grid.  On any page and
    whatever the error, the tiles the raster sweep has written by then
    are an initial stretch of the row-major order, possibly all of it when
    the last drags fail: there are no holes before the last tile written,
    and nothing but tiles was written. *)
Theorem sweep_failure_leaves_prefix (H : Host) (nrows ncols : nat) (w w' : World)
    (e : Error) :
  sweep H nrows ncols w = (Throw e, w') ->
  exists ps,
    ps `prefix_of` ((fun rc => tilePath H (fst rc) (snd rc)) <$> gridCells nrows ncols)
    /\ wrote w w' ps.
Proof.
  unfold sweep. intros E.
  apply (for_range_throws _ (fun r => tilePath H r <$> seq 0 ncols)
           (fun e => e = DragRejected \/ e = CaptureFailed)) in E.
  - destruct E as (_ & ps & Hpre & W). exists ps. split; [|exact W].
    unfold gridCells. rewrite fmap_bind_list.
    erewrite list_bind_ext; [exact Hpre| |reflexivity].
    intros r. cbn. rewrite <- list_fmap_compose. reflexivity.
  - intros; eapply sweepRow_wrote; eassumption.
  - intros; eapply sweepRow_throws; eassumption.
Qed.

(** A canvas that never renders: the sweep fails at the first cell and no
    tile is written. *)
Lemma sweep_failure_leaves_prefix_witness :
  sweep deadCanvas 2 3 w0 = (Throw CaptureFailed, snd (sweep deadCanvas 2 3 w0))
  /\ exists ps,
       ps `prefix_of` ((fun rc => tilePath deadCanvas (fst rc) (snd rc)) <$> gridCells 2 3)
       /\ wrote w0 (snd (sweep deadCanvas 2 3 w0)) ps.
Proof.
  split; [vm_compute; reflexivity|].
  apply (sweep_failure_leaves_prefix deadCanvas 2 3 w0 _ CaptureFailed).
  vm_compute. reflexivity.
Defined.

(** ** Nothing is overwritten *)

Lemma scanFile_inj H prefix i j : scanFile H prefix i = scanFile H prefix j -> i = j.
Proof.
  unfold scanFile, path_join. intros E.
  apply String.app_inj in E. apply (String.app_inj "/") in E.
  apply String.app_inj in E.
  apply (digits_then_stop "."%char (pretty i) (pretty j) "png" "png")
    in E as [E _]; try apply pretty_nat_digits; [|reflexivity].
  eapply inj; [|exact E]. apply _.
Qed.

Lemma fileClass_disjoint H k k' p : fileClass H k p -> fileClass H k' p -> k = k'.
Proof.
  destruct k as [|[|[|[|[|k]]]]]; destruct k' as [|[|[|[|[|k']]]]];
    cbn [fileClass]; try reflexivity; try contradiction;
    intros Hp Hq; exfalso;
    repeat match goal with Hex : exists _, _ |- _ => destruct Hex as [? Hex] end;
    rewrite Hp in Hq; unfold scanFile, tilePath, path_join in Hq;
    apply String.app_inj in Hq; apply (String.app_inj "/") in Hq;
    cbv [String.append] in Hq; discriminate Hq.
Qed.

Section RunFiles.
Variable H : Host.

Lemma writesIn_quiet {A} (m : M A) k :
  (forall w r w', m w = (r, w') -> wrote w w' []) -> writesInClasses H m k k.
Proof.
  intros Hm w r w' E. exists []. split; [eapply Hm; exact E|].
  split; constructor.
Qed.

Lemma writesIn_widen {A} (m : M A) lo hi lo' hi' :
  (lo' <= lo)%nat -> (hi <= hi')%nat ->
  writesInClasses H m lo hi -> writesInClasses H m lo' hi'.
Proof.
  intros Hlo Hhi Hm w r w' E. destruct (Hm w r w' E) as (ps & W & Hnd & Hall).
  exists ps. split; [exact W|]. split; [exact Hnd|].
  eapply Forall_impl; [exact Hall|]. intros p (k & Hk & Hc). exists k. split; [lia|exact Hc].
Qed.

Lemma writesIn_append w1 w2 w3 ps1 ps2 a b c :
  (a <= b)%nat -> (b <= c)%nat ->
  wrote w1 w2 ps1 -> NoDup ps1 ->
  Forall (fun p => exists k, (a <= k < b)%nat /\ fileClass H k p) ps1 ->
  wrote w2 w3 ps2 -> NoDup ps2 ->
  Forall (fun p => exists k, (b <= k < c)%nat /\ fileClass H k p) ps2 ->
  exists ps, wrote w1 w3 ps /\ NoDup ps
             /\ Forall (fun p => exists k, (a <= k < c)%nat /\ fileClass H k p) ps.
Proof.
  intros Hab Hbc W1 N1 C1 W2 N2 C2. exists (ps1 ++ ps2).
  split; [eapply wrote_trans; eassumption|]. split.
  - apply NoDup_app. split; [exact N1|]. split; [|exact N2].
    intros p Hp1 Hp2.
    destruct (proj1 (Forall_forall _ _) C1 p Hp1) as (k1 & Hk1 & Hc1).
    destruct (proj1 (Forall_forall _ _) C2 p Hp2) as (k2 & Hk2 & Hc2).
    pose proof (fileClass_disjoint H k1 k2 p Hc1 Hc2). lia.
  - apply Forall_app. split.
    + eapply Forall_impl; [exact C1|]. intros p (k & Hk & Hc). exists k. split; [lia|exact Hc].
    + eapply Forall_impl; [exact C2|]. intros p (k & Hk & Hc). exists k. split; [lia|exact Hc].
Qed.

Lemma writesIn_bind {A B} (m : M A) (f : A -> M B) a b c :
  (a <= b)%nat -> (b <= c)%nat ->
  writesInClasses H m a b -> (forall x, writesInClasses H (f x) b c) ->
  writesInClasses H (m ≫= f) a c.
Proof.
  intros Hab Hbc Hm Hf w r w' E. rewrite run_bind in E.
  destruct (m w) as [[x|e] w1] eqn:Em.
  - destruct (Hm w _ _ Em) as (ps1 & W1 & N1 & C1).
    destruct (Hf x w1 _ _ E) as (ps2 & W2 & N2 & C2).
    eapply (writesIn_append _ _ _ _ _ a b c); eassumption.
  - injection E as <- <-. eapply (writesIn_widen m a b a c); [lia|lia|exact Hm|exact Em].
Qed.

Lemma writesIn_try_catch {A} (m : M A) (h : Error -> M A) a b c :
  (a <= b)%nat -> (b <= c)%nat ->
  writesInClasses H m a b -> (forall e, writesInClasses H (h e) b c) ->
  writesInClasses H (try_catch m h) a c.
Proof.
  intros Hab Hbc Hm Hh w r w' E. unfold try_catch in E.
  destruct (m w) as [[x|e] w1] eqn:Em.
  - injection E as <- <-. eapply (writesIn_widen m a b a c); [lia|lia|exact Hm|exact Em].
  - destruct (Hm w _ _ Em) as (ps1 & W1 & N1 & C1).
    destruct (Hh e w1 _ _ E) as (ps2 & W2 & N2 & C2).
    eapply (writesIn_append _ _ _ _ _ a b c); eassumption.
Qed.

Lemma writesIn_for_range_quiet {St} (body : nat -> St -> M St) k :
  (forall i s, writesInClasses H (body i s) k k) ->
  forall n start s, writesInClasses H (for_range n start body s) k k.
Proof.
  intros Hbody. induction n as [|n IH]; intros start s.
  - apply writesIn_quiet. intros w r w' [= _ <-]. apply wrote_refl.
  - cbn [for_range]. apply (writesIn_bind _ _ k k k); [lia|lia|apply Hbody|].
    intros s1. apply IH.
Qed.

Lemma writesIn_drag_then_wait dx dy ms k :
  writesInClasses H (dragPan H dx dy ;; waitForTimeout ms) k k.
Proof. apply writesIn_quiet. intros w r w' E. eapply drag_then_wait_wrote. exact E. Qed.

Lemma writesIn_capture n k : writesInClasses H (captureCanvasBuffer H n) k k.
Proof.
  apply writesIn_quiet. intros w r w' E.
  pose proof (captureLoop_wrote H n w) as W. unfold captureCanvasBuffer in E.
  rewrite E in W. exact W.
Qed.

(** A scan writes its own diagnostics, each once. *)
Lemma scanRan_wrote dx dy prefix n bufs w w' :
  scanRan H dx dy prefix 0 n bufs w w' ->
  wrote w w' (scanFile H prefix <$> seq 0 (length bufs))
  /\ NoDup (scanFile H prefix <$> seq 0 (length bufs)).
Proof.
  intros (_ & Hw & Hf). split.
  - exists (scanWrites H prefix 0 bufs). split; [|auto].
    unfold scanWrites. apply fst_zip. rewrite length_fmap, length_seq. reflexivity.
  - apply NoDup_fmap_2; [|apply NoDup_seq]. intros i j. apply scanFile_inj.
Qed.

Lemma writesIn_scan dx dy prefix atCap fuel initialHash k :
  (forall i, fileClass H k (scanFile H prefix i)) ->
  writesInClasses H (edgeLoop H dx dy prefix atCap fuel 0 0 initialHash) k (S k).
Proof.
  intros Hk w r w' E.
  assert (exists n bufs, scanRan H dx dy prefix 0 n bufs w w') as (n & bufs & Hran).
  { destruct r as [meta|e].
    - apply edgeLoop_settles in E as (bufs & Hran & _); [eauto|lia].
    - apply edgeLoop_fails in E as (n & bufs & Hran & _). eauto. }
  apply scanRan_wrote in Hran as [W Hnd].
  exists (scanFile H prefix <$> seq 0 (length bufs)). split; [exact W|]. split; [exact Hnd|].
  apply Forall_fmap, Forall_forall. intros i _. exists k. split; [lia|apply Hk].
Qed.

Lemma writesIn_horizMeta initialHash : writesInClasses H (horizMeta H initialHash) 0 2.
Proof.
  unfold horizMeta, findEdgeHoriz.
  apply (writesIn_try_catch _ _ 0 1 2); [lia|lia| |intros _].
  - apply writesIn_scan. intros i. exists i. reflexivity.
  - apply writesIn_scan. intros i. exists i. reflexivity.
Qed.

Lemma writesIn_vertMeta initialHash : writesInClasses H (vertMeta H initialHash) 2 4.
Proof.
  unfold vertMeta, findEdgeVert.
  apply (writesIn_try_catch _ _ 2 3 4); [lia|lia| |intros _].
  - apply writesIn_scan. intros i. exists i. reflexivity.
  - apply writesIn_scan. intros i. exists i. reflexivity.
Qed.

Lemma writesIn_rehome hMeta vMeta : writesInClasses H (rehome H hMeta vMeta) 4 4.
Proof.
  unfold rehome. cbv zeta.
  apply (writesIn_bind _ _ 4 4 4); [lia|lia| |intros _];
    apply writesIn_for_range_quiet; intros i s; apply writesIn_drag_then_wait.
Qed.

Lemma writesIn_presweepAlign : writesInClasses H (presweepAlign H) 4 4.
Proof.
  assert (forall n dx dy ms,
            writesInClasses H
              (for_range n 0 (fun _ _ => dragPan H dx dy ;; waitForTimeout ms) tt) 4 4) as Hloop
    by (intros; apply writesIn_for_range_quiet; intros i s; apply writesIn_drag_then_wait).
  unfold presweepAlign.
  do 3 (apply (writesIn_bind _ _ 4 4 4); [lia|lia|apply Hloop|intros _]).
  apply Hloop.
Qed.

Lemma writesIn_sweep nrows ncols : writesInClasses H (sweep H nrows ncols) 4 5.
Proof.
  intros w r w' E.
  assert (exists ps,
            ps `prefix_of` ((fun rc => tilePath H (fst rc) (snd rc)) <$> gridCells nrows ncols)
            /\ wrote w w' ps) as (ps & Hpre & W).
  { destruct r as [saved|e].
    - apply sweep_wrote in E. eexists. split; [reflexivity|exact E].
    - unfold sweep in E.
      apply (for_range_throws _ (fun r => tilePath H r <$> seq 0 ncols) (fun _ => True)) in E.
      + destruct E as (_ & ps & Hpre & W). exists ps. split; [|exact W].
        unfold gridCells. rewrite fmap_bind_list.
        erewrite list_bind_ext; [exact Hpre| |reflexivity].
        intros r. cbn. rewrite <- list_fmap_compose. reflexivity.
      + intros; eapply sweepRow_wrote; eassumption.
      + intros i s wa e' wb Eb. split; [exact I|].
        eapply sweepRow_throws. exact Eb. }
  destruct Hpre as (rest & Hpre).
  exists ps. split; [exact W|]. split.
  - assert (NoDup ((fun rc => tilePath H (fst rc) (snd rc)) <$> gridCells nrows ncols)) as Hnd.
    { apply NoDup_fmap_2_strong; [|apply gridCells_NoDup].
      intros [r1 c1] [r2 c2] _ _ Ep. cbn in Ep. apply tilePath_inj in Ep as [-> ->].
      reflexivity. }
    rewrite Hpre in Hnd. apply NoDup_app in Hnd as [Hnd _]. exact Hnd.
  - assert (Forall (fun p => exists k, (4 <= k < 5)%nat /\ fileClass H k p)
              ((fun rc => tilePath H (fst rc) (snd rc)) <$> gridCells nrows ncols)) as Hall.
    { apply Forall_fmap, Forall_forall. intros [r1 c1] _. exists 4%nat. split; [lia|].
      exists r1, c1. reflexivity. }
    rewrite Hpre in Hall. apply Forall_app in Hall as [Hall _]. exact Hall.
Qed.

Lemma writesIn_stitch ncols nrows saved k : writesInClasses H (stitch H ncols nrows saved) k k.
Proof.
  apply writesIn_quiet. intros w r w' E.
  pose proof (stitch_leaves_world H ncols nrows saved w) as Hw.
  rewrite E in Hw. cbn [snd] in Hw. subst w'. apply wrote_refl.
Qed.

Lemma writesIn_main : writesInClasses H (main H) 0 5.
Proof.
  unfold main.
  apply (writesIn_bind _ _ 0 4 5); [lia|lia| |intros metas; cbv zeta].
  - unfold scanAndRehome.
    apply (writesIn_bind _ _ 0 0 4); [lia|lia|apply writesIn_capture|intros buf; cbv zeta].
    apply (writesIn_bind _ _ 0 2 4); [lia|lia|apply writesIn_horizMeta|intros hMeta].
    apply (writesIn_bind _ _ 2 4 4); [lia|lia|apply writesIn_vertMeta|intros vMeta].
    apply (writesIn_bind _ _ 4 4 4); [lia|lia|apply writesIn_rehome|intros _].
    apply writesIn_quiet. intros w r w' [= _ <-]. apply wrote_refl.
  - apply (writesIn_bind _ _ 4 4 5); [lia|lia|apply writesIn_presweepAlign|intros _].
    apply (writesIn_bind _ _ 4 5 5); [lia|lia|apply writesIn_sweep|intros saved].
    apply (writesIn_bind _ _ 5 5 5); [lia|lia|apply writesIn_stitch|intros canvas].
    apply writesIn_quiet. intros w r w' [= _ <-]. apply wrote_refl.
Qed.

End RunFiles.

(** X9.  Nothing is overwritten during a run.  Whatever the page does
    and however the script ends, no path is written twice (the
    diagnostics of the four scans and the tiles all differ), so every file
    written during the run holds, when it ends, the frame that was
    captured for it. *)
Theorem run_never_overwrites (H : Host) (w : World) :
  exists ws,
    writesOf (trace (snd (main H w))) = writesOf (trace w) ++ ws
    /\ files (snd (main H w)) = applyWrites ws (files w)
    /\ NoDup (fst <$> ws)
    /\ Forall (fun pb => files (snd (main H w)) !! fst pb = Some (snd pb)) ws
    /\ Forall (fun pb => exists k, (k < 5)%nat /\ fileClass H k (fst pb)) ws.
Proof.
  destruct (main H w) as [r w'] eqn:E. cbn [snd].
  destruct (writesIn_main H w r w' E) as (ps & (ws & Hk & Hf & Ht) & Hnd & Hall).
  exists ws. subst ps. split; [exact Ht|]. split; [exact Hf|]. split; [exact Hnd|]. split.
  - apply Forall_forall. intros [p b] Hin. cbn [fst snd]. rewrite Hf.
    apply applyWrites_lookup; assumption.
  - apply Forall_forall. intros [p b] Hin. cbn [fst].
    destruct (proj1 (Forall_forall _ _) Hall p) as (k & Hk & Hc).
    + apply list_elem_of_fmap. exists (p, b). auto.
    + exists k. split; [lia|exact Hc].
Qed.

(** ** The mouse gesture of a drag *)

Lemma Math_round_Z (z : Z) (q : Z) : Math_round (inject_Z z + inject_Z q) = z + q.
Proof.
  unfold Math_round. rewrite <- inject_Z_plus.
  unfold Qfloor, Qplus, inject_Z. cbn [Qnum Qden].
  change (Z.pos (1 * 2)) with 2. symmetry. apply (Z.div_unique _ _ _ 1); lia.
Qed.

Lemma Math_round_eighths (d : Z) (i : nat) :
  Math_round (inject_Z d * (inject_Z (Z.of_nat i) / inject_Z (Z.of_nat STEPS)))
  = (d * Z.of_nat i + 4) / 8.
Proof.
  generalize (Z.of_nat i). intros z.
  change (inject_Z (Z.of_nat STEPS)) with (8 # 1).
  unfold Math_round, Qfloor, Qplus, Qdiv, Qinv, inject_Z. cbn [Qnum].
  unfold Qmult. cbn [Qnum Qden Pos.mul].
  change (Z.pos (1 * (1 * 8) * 2)) with (8 * 2).
  change (Z.pos (1 * (1 * 8))) with 8.
  replace (d * (z * 1) * 2 + 1 * 8) with ((d * z + 4) * 2) by lia.
  apply Z.div_mul_cancel_r; lia.
Qed.

Lemma interpolate_eighths (start d : Z) (i : nat) :
  interpolate start (start + d) i = start + (d * Z.of_nat i + 4) / 8.
Proof.
  unfold interpolate. replace (start + d - start) with d by lia.
  rewrite Math_round_eighths. reflexivity.
Qed.

(** X10.  The gesture behind a drag.  [dragPan] presses the button at the
    start point, makes eight moves and releases after the last one, which
    is at exactly the start point plus the delta it was asked for; every
    intermediate point is within half a pixel of the straight line to it,
    never behind the point before it nor beyond the target; and for the
    deltas the script uses (multiples of 8: 960, 600 and their negatives)
    the moves are the exact eighths. *)
Theorem dragGesture_ends_at_delta (startX startY deltaX deltaY : Z) :
  exists moves : list (Z * Z),
    dragGesture startX startY deltaX deltaY
    = [MouseMove startX startY; MouseDown; MousePause DRAG_PAUSE]
      ++ (moves ≫= (fun p => [MouseMove (fst p) (snd p); MousePause 10]))
      ++ [MouseUp]
    /\ length moves = 8%nat
    /\ moves !! 7%nat = Some (startX + deltaX, startY + deltaY)
    /\ (forall i p, moves !! i = Some p ->
          Z.abs (8 * (fst p - startX) - (Z.of_nat i + 1) * deltaX) <= 4
          /\ Z.abs (8 * (snd p - startY) - (Z.of_nat i + 1) * deltaY) <= 4
          /\ Z.abs (fst p - startX) <= Z.abs deltaX
          /\ Z.abs (snd p - startY) <= Z.abs deltaY)
    /\ (forall i p q, moves !! i = Some p -> moves !! S i = Some q ->
          (0 <= deltaX -> fst p <= fst q) /\ (deltaX <= 0 -> fst q <= fst p)
          /\ (0 <= deltaY -> snd p <= snd q) /\ (deltaY <= 0 -> snd q <= snd p))
    /\ (forall i p, (deltaX mod 8 = 0) -> (deltaY mod 8 = 0) -> moves !! i = Some p ->
          p = (startX + (Z.of_nat i + 1) * (deltaX / 8),
               startY + (Z.of_nat i + 1) * (deltaY / 8))).
Proof.
  exists ((fun i => (startX + (deltaX * Z.of_nat i + 4) / 8,
                     startY + (deltaY * Z.of_nat i + 4) / 8)) <$> seq 1 8).
  assert (forall i p,
            ((fun i => (startX + (deltaX * Z.of_nat i + 4) / 8,
                        startY + (deltaY * Z.of_nat i + 4) / 8)) <$> seq 1 8) !! i = Some p ->
            (i < 8)%nat
            /\ p = (startX + (deltaX * (Z.of_nat i + 1) + 4) / 8,
                    startY + (deltaY * (Z.of_nat i + 1) + 4) / 8)) as Hlook.
  { intros i p Hp. rewrite list_lookup_fmap in Hp.
    destruct (seq 1 8 !! i) as [j|] eqn:Hj; [|discriminate].
    apply lookup_seq in Hj as [-> Hlt]. injection Hp as <-. split; [exact Hlt|].
    change (1 + i)%nat with (S i). rewrite Nat2Z.inj_succ. unfold Z.succ. reflexivity. }
  split; [|split; [|split; [|split; [|split]]]].
  - unfold dragGesture. rewrite !Math_round_Z, !list_fmap_bind.
    rewrite (list_bind_ext _
               ((fun p => [MouseMove (fst p) (snd p); MousePause 10])
                ∘ (fun i => (startX + (deltaX * Z.of_nat i + 4) / 8,
                             startY + (deltaY * Z.of_nat i + 4) / 8)))
               (seq 1 STEPS) (seq 1 8)); [reflexivity| |reflexivity].
    intros i. cbn. rewrite !interpolate_eighths. reflexivity.
  - reflexivity.
  - rewrite list_lookup_fmap. change (seq 1 8 !! 7%nat) with (Some 8%nat).
    cbn [fmap option_fmap option_map]. change (Z.of_nat 8) with 8.
    rewrite !Z.div_add_l by lia. change (4 / 8) with 0. rewrite !Z.add_0_r. reflexivity.
  - intros i p Hp. apply Hlook in Hp as [Hlt ->]. cbn [fst snd].
    pose proof (Z.div_mod (deltaX * (Z.of_nat i + 1) + 4) 8 ltac:(lia)) as Hx.
    pose proof (Z.mod_pos_bound (deltaX * (Z.of_nat i + 1) + 4) 8 ltac:(lia)) as Bx.
    pose proof (Z.div_mod (deltaY * (Z.of_nat i + 1) + 4) 8 ltac:(lia)) as Hy.
    pose proof (Z.mod_pos_bound (deltaY * (Z.of_nat i + 1) + 4) 8 ltac:(lia)) as By.
    repeat split; nia.
  - intros i p q Hp Hq. apply Hlook in Hp as [_ ->]. apply Hlook in Hq as [_ ->].
    cbn [fst snd]. replace (Z.of_nat (S i) + 1) with (Z.of_nat i + 1 + 1) by lia.
    repeat split; intros Hd;
      (apply Z.add_le_mono_l; apply Z.div_le_mono; [lia|nia]).
  - intros i p Hx Hy Hp. apply Hlook in Hp as [_ ->].
    apply Z.mod_divide in Hx as [a ->]; [|lia]. apply Z.mod_divide in Hy as [b ->]; [|lia].
    rewrite !Z.div_mul by lia.
    replace (a * 8 * (Z.of_nat i + 1) + 4) with ((Z.of_nat i + 1) * a * 8 + 4) by lia.
    replace (b * 8 * (Z.of_nat i + 1) + 4) with ((Z.of_nat i + 1) * b * 8 + 4) by lia.
    rewrite !Z.div_add_l by lia. change (4 / 8) with 0. rewrite !Z.add_0_r. reflexivity.
Qed.

(** One step of the rightward scan from the centre of the viewport, and a
    small diagonal drag on which the ties show: halves are rounded up, so
    the way there and the way back are not mirror images. *)
Example dragGesture_samples :
  dragGesture 640 400 (-960) 0
  = [MouseMove 640 400; MouseDown; MousePause 200;
     MouseMove 520 400; MousePause 10; MouseMove 400 400; MousePause 10;
     MouseMove 280 400; MousePause 10; MouseMove 160 400; MousePause 10;
     MouseMove 40 400; MousePause 10; MouseMove (-80) 400; MousePause 10;
     MouseMove (-200) 400; MousePause 10; MouseMove (-320) 400; MousePause 10;
     MouseUp]
  /\ dragGesture 0 0 4 (-4)
     = [MouseMove 0 0; MouseDown; MousePause 200;
        MouseMove 1 0; MousePause 10; MouseMove 1 (-1); MousePause 10;
        MouseMove 2 (-1); MousePause 10; MouseMove 2 (-2); MousePause 10;
        MouseMove 3 (-2); MousePause 10; MouseMove 3 (-3); MousePause 10;
        MouseMove 4 (-3); MousePause 10; MouseMove 4 (-4); MousePause 10;
        MouseUp].
Proof. vm_compute. split; reflexivity. Qed.

(** * Further properties of the scraper *)

(** ** Merging duplicate towns *)

Lemma existsb_eqb_elem (k : string) (l : list string) :
  existsb (String.eqb k) l = bool_decide (k ∈ l).
Proof.
  induction l as [|x l IH]; [reflexivity|]. cbn [existsb]. rewrite IH.
  destruct (String.eqb_spec k x) as [->|Hne].
  - symmetry. apply bool_decide_eq_true. left.
  - cbn. apply bool_decide_ext. rewrite elem_of_cons. tauto.
Qed.

Lemma has_elem (lc : string) (m : TownMap) : has lc m = bool_decide (lc ∈ fst <$> m).
Proof.
  unfold has. induction m as [|[k obj] m IH]; [reflexivity|].
  cbn [existsb fst]. rewrite IH, fmap_cons. cbn [fst].
  destruct (String.eqb_spec k lc) as [->|Hne].
  - symmetry. apply bool_decide_eq_true. left.
  - cbn. apply bool_decide_ext. rewrite elem_of_cons. split; [auto|].
    intros [E|E]; [congruence|exact E].
Qed.

Lemma firstSeen_snoc k ks : forall seen,
  firstSeen seen (ks ++ [k])
  = firstSeen seen ks ++ (if bool_decide (k ∈ seen ++ ks) then [] else [k]).
Proof.
  induction ks as [|k0 ks IH]; intros seen.
  - cbn [app firstSeen]. rewrite app_nil_r, existsb_eqb_elem.
    destruct (bool_decide (k ∈ seen)); reflexivity.
  - cbn [app firstSeen]. rewrite existsb_eqb_elem.
    destruct (bool_decide (k0 ∈ seen)) eqn:Hk0.
    + rewrite IH. f_equal. apply bool_decide_eq_true in Hk0.
      match goal with |- (if ?a then _ else _) = (if ?b then _ else _) =>
        replace a with b; [reflexivity|] end.
      apply bool_decide_ext. rewrite ?elem_of_app, ?elem_of_cons, ?elem_of_app.
      intuition (subst; auto).
    + rewrite IH. cbn [app]. f_equal. f_equal.
      match goal with |- (if ?a then _ else _) = (if ?b then _ else _) =>
        replace a with b; [reflexivity|] end.
      apply bool_decide_ext. rewrite ?elem_of_app, ?elem_of_cons, ?elem_of_app.
      intuition (subst; auto).
Qed.

Lemma firstSeen_elem ks : forall seen k,
  k ∈ firstSeen seen ks <-> k ∈ ks /\ k ∉ seen.
Proof.
  induction ks as [|k0 ks IH]; intros seen k.
  - cbn. rewrite elem_of_nil. tauto.
  - cbn [firstSeen]. rewrite existsb_eqb_elem.
    destruct (bool_decide (k0 ∈ seen)) eqn:Hk0.
    + apply bool_decide_eq_true in Hk0. rewrite IH, elem_of_cons.
      split; [tauto|]. intros [[->|Hin] Hn]; [contradiction|auto].
    + apply bool_decide_eq_false in Hk0. rewrite elem_of_cons, IH, !elem_of_cons.
      split.
      * intros [->|[Hin Hn]]; [auto|]. split; [auto|]. tauto.
      * intros [[->|Hin] Hn]; [auto|].
        destruct (decide (k = k0)) as [->|Hne]; [auto|]. right. tauto.
Qed.

Lemma firstSeen_NoDup ks : forall seen, NoDup (firstSeen seen ks).
Proof.
  induction ks as [|k0 ks IH]; intros seen; [constructor|].
  cbn [firstSeen]. destruct (existsb (String.eqb k0) seen); [apply IH|].
  constructor; [|apply IH]. rewrite firstSeen_elem, elem_of_cons. tauto.
Qed.

Lemma firstSeen_length ks : forall seen, (length (firstSeen seen ks) <= length ks)%nat.
Proof.
  induction ks as [|k0 ks IH]; intros seen; [reflexivity|].
  cbn [firstSeen length]. destruct (existsb (String.eqb k0) seen).
  - specialize (IH seen). lia.
  - specialize (IH (k0 :: seen)). cbn [length]. lia.
Qed.

Lemma truthy_not_nullish v : truthy v = true -> looseNull v = false.
Proof. destruct v; [discriminate..|reflexivity]. Qed.

Lemma firstTruthy_snoc vs v :
  firstTruthy (vs ++ [v])
  = if looseNull (firstTruthy vs) && truthy v then v else firstTruthy vs.
Proof.
  unfold firstTruthy. rewrite filter_app.
  destruct (filter (fun v => truthy v = true) vs) as [|x xs] eqn:Hf.
  - cbn [app looseNull andb]. rewrite filter_cons, filter_nil.
    destruct (decide (truthy v = true)) as [Ht|Ht].
    + rewrite Ht. reflexivity.
    + apply not_true_is_false in Ht. rewrite Ht. reflexivity.
  - cbn [app]. assert (truthy x = true) as Hx.
    { assert (x ∈ filter (fun v => truthy v = true) vs) as Hin by (rewrite Hf; left).
      apply list_elem_of_filter in Hin as [Hx _]. exact Hx. }
    rewrite (truthy_not_nullish x Hx). reflexivity.
Qed.

Lemma firstTruthyString_snoc ss s :
  firstTruthyString (ss ++ [s])
  = if (negb (truthyString (firstTruthyString ss))
        || match firstTruthyString ss with None => true | Some _ => false end)
       && truthyString s
    then s else firstTruthyString ss.
Proof.
  unfold firstTruthyString. rewrite filter_app.
  destruct (filter (fun s => truthyString s = true) ss) as [|x xs] eqn:Hf.
  - cbn [app truthyString negb orb andb]. rewrite filter_cons, filter_nil.
    destruct (decide (truthyString s = true)) as [Ht|Ht].
    + rewrite Ht. reflexivity.
    + apply not_true_is_false in Ht. rewrite Ht. reflexivity.
  - cbn [app]. assert (truthyString x = true) as Hx.
    { assert (x ∈ filter (fun s => truthyString s = true) ss) as Hin by (rewrite Hf; left).
      apply list_elem_of_filter in Hin as [Hx _]. exact Hx. }
    rewrite Hx. destruct x as [x|]; [reflexivity|discriminate].
Qed.

Lemma firstTruthy_single v : firstTruthy [v] = orNull v.
Proof. apply (firstTruthy_snoc [] v). Qed.

Lemma firstTruthyString_single s : firstTruthyString [s] = stringOrNull s.
Proof. apply (firstTruthyString_snoc [] s). Qed.

(** Changing the object under a key of a map whose keys are distinct. *)
Lemma mutate_omap (G G' : string -> option Town.t) (f : Town.t -> Town.t) (k : string)
    (ks : list string) :
  NoDup ks ->
  G' k = f <$> G k ->
  (forall k', k' <> k -> G' k' = G k') ->
  mutate k f (omap (fun k' => (fun obj => (k', obj)) <$> G k') ks)
  = omap (fun k' => (fun obj => (k', obj)) <$> G' k') ks.
Proof.
  intros Hnd Hk Hother. induction ks as [|k0 ks IH]; [reflexivity|].
  apply NoDup_cons in Hnd as [Hk0 Hnd]. cbn [omap list_omap]. cbv beta.
  destruct (decide (k0 = k)) as [->|Hne].
  - rewrite Hk. destruct (G k) as [obj|]; cbn [fmap option_fmap option_map].
    + cbn [mutate]. rewrite String.eqb_refl. f_equal.
      clear IH. induction ks as [|k1 ks IH]; [reflexivity|].
      apply not_elem_of_cons in Hk0 as [Hne Hk0]. apply NoDup_cons in Hnd as [_ Hnd].
      cbn [omap list_omap]. cbv beta. rewrite (Hother k1) by congruence. rewrite (IH Hk0 Hnd).
      reflexivity.
    + apply IH. exact Hnd.
  - rewrite (Hother k0 Hne). destruct (G k0) as [obj|]; cbn [fmap option_fmap option_map].
    + cbn [mutate]. destruct (String.eqb_spec k0 k) as [E|_]; [contradiction|].
      f_equal. apply IH. exact Hnd.
    + apply IH. exact Hnd.
Qed.

Lemma omap_ext_elem {A B} (f g : A -> option B) (l : list A) :
  (forall x, x ∈ l -> f x = g x) -> omap f l = omap g l.
Proof.
  induction l as [|x l IH]; intros Hfg; [reflexivity|].
  cbn [omap list_omap]. rewrite (Hfg x) by left. rewrite IH; [reflexivity|].
  intros y Hy. apply Hfg. right. exact Hy.
Qed.

Section DedupeFacts.
Variables trim toLowerCase : string -> string.

Local Abbreviation keyOf := (keyOf trim toLowerCase).
Local Abbreviation group := (group trim toLowerCase).
Local Abbreviation townOfGroup := (townOfGroup trim).

Lemma group_snoc k entries e :
  group k (entries ++ [e]) = group k entries ++ (if decide (keyOf e = k) then [e] else []).
Proof.
  unfold group. rewrite filter_app, filter_cons, filter_nil. reflexivity.
Qed.

Lemma group_nonempty k entries : group k entries <> [] <-> k ∈ keyOf <$> entries.
Proof.
  unfold group. rewrite list_elem_of_fmap. split.
  - intros Hne. destruct (filter _ entries) as [|e g] eqn:Hf; [contradiction|].
    assert (e ∈ filter (fun e => keyOf e = k) entries) as Hin by (rewrite Hf; left).
    apply list_elem_of_filter in Hin as [He Hin]. exists e. auto.
  - intros (e & -> & Hin) Hf.
    assert (e ∈ filter (fun e' => keyOf e' = keyOf e) entries) as Hin'
      by (apply list_elem_of_filter; auto).
    rewrite Hf in Hin'. apply elem_of_nil in Hin'. exact Hin'.
Qed.

Lemma townOfGroup_snoc g e :
  g <> [] -> townOfGroup (g ++ [e]) = (fun cur => mergeEntry cur e) <$> townOfGroup g.
Proof.
  destruct g as [|e0 g]; [contradiction|]. intros _.
  cbn [app townOfGroup fmap option_fmap option_map]. unfold mergeEntry.
  cbn [Town.town Town.nation Town.bank Town.upkeep]. f_equal.
  change (e0 :: g ++ [e]) with ((e0 :: g) ++ [e]).
  rewrite !fmap_app, !fmap_cons, !fmap_nil.
  rewrite !firstTruthy_snoc, firstTruthyString_snoc. reflexivity.
Qed.

(** The loop invariant: the map holds, in first-occurrence order, one
    object per key, built from the entries filed under it. *)
Lemma byTown_groups entries :
  byTown trim toLowerCase entries
  = omap (fun k => (fun obj => (k, obj)) <$> townOfGroup (group k entries))
         (firstSeen [] (keyOf <$> entries)).
Proof.
  unfold byTown. induction entries as [|e entries IH] using rev_ind; [reflexivity|].
  rewrite foldl_app. cbn [foldl]. rewrite IH. clear IH.
  set (ks := firstSeen [] (keyOf <$> entries)).
  assert (fst <$> omap (fun k => (fun obj => (k, obj)) <$> townOfGroup (group k entries)) ks
          = ks) as Hkeys.
  { assert (forall k, k ∈ ks -> k ∈ keyOf <$> entries) as Hin
      by (intros k Hk; apply firstSeen_elem in Hk as [Hk _]; exact Hk).
    induction ks as [|k ks IH]; [reflexivity|]. cbn [omap list_omap].
    destruct (group k entries) as [|e0 g] eqn:Hg.
    - exfalso. apply (group_nonempty k entries); [|exact Hg]. apply Hin. left.
    - cbn. f_equal. apply IH. intros k' Hk'. apply Hin. right. exact Hk'. }
  unfold dedupeStep. cbv zeta. fold (keyOf e).
  rewrite has_elem, Hkeys, fmap_app. change (keyOf <$> [e]) with [keyOf e].
  rewrite firstSeen_snoc. cbn [app]. fold ks.
  assert (keyOf e ∈ ks <-> keyOf e ∈ keyOf <$> entries) as Hiff.
  { unfold ks. rewrite firstSeen_elem, elem_of_nil. tauto. }
  rewrite (bool_decide_ext _ _ Hiff).
  destruct (bool_decide (keyOf e ∈ keyOf <$> entries)) eqn:Hseen; cbn [negb].
  - (* a town already in the map *)
    apply bool_decide_eq_true in Hseen. rewrite app_nil_r.
    apply mutate_omap.
    + apply firstSeen_NoDup.
    + rewrite group_snoc. rewrite decide_True by reflexivity.
      apply townOfGroup_snoc. apply group_nonempty. exact Hseen.
    + intros k' Hne. rewrite group_snoc. rewrite decide_False by congruence.
      rewrite app_nil_r. reflexivity.
  - (* a new town *)
    apply bool_decide_eq_false in Hseen. rewrite omap_app. f_equal.
    + apply omap_ext_elem. intros k' Hk'. rewrite group_snoc.
      rewrite decide_False; [rewrite app_nil_r; reflexivity|].
      intros E. apply Hseen, Hiff. rewrite E. exact Hk'.
    + cbn [omap list_omap]. rewrite group_snoc. rewrite decide_True by reflexivity.
      assert (group (keyOf e) entries = []) as ->.
      { destruct (group (keyOf e) entries) as [|e0 g] eqn:Hg; [reflexivity|].
        exfalso. apply Hseen. apply group_nonempty. rewrite Hg. discriminate. }
      cbn [app townOfGroup fmap list_fmap option_fmap option_map].
      rewrite !firstTruthy_single, firstTruthyString_single. reflexivity.
Qed.

End DedupeFacts.

Lemma firstTruthy_cases vs :
  firstTruthy vs = JsNull \/ (firstTruthy vs ∈ vs /\ truthy (firstTruthy vs) = true).
Proof.
  unfold firstTruthy.
  destruct (filter (fun v => truthy v = true) vs) as [|x xs] eqn:Hf; [left; reflexivity|].
  right. assert (x ∈ filter (fun v => truthy v = true) vs) as Hin by (rewrite Hf; left).
  apply list_elem_of_filter in Hin as [Hx Hin]. auto.
Qed.

Lemma firstTruthyString_cases ss :
  firstTruthyString ss = None
  \/ (firstTruthyString ss ∈ ss /\ truthyString (firstTruthyString ss) = true).
Proof.
  unfold firstTruthyString.
  destruct (filter (fun s => truthyString s = true) ss) as [|x xs] eqn:Hf; [left; reflexivity|].
  right. assert (x ∈ filter (fun s => truthyString s = true) ss) as Hin by (rewrite Hf; left).
  apply list_elem_of_filter in Hin as [Hx Hin]. auto.
Qed.

Lemma computeDays_of_merged (b u : JsValue) :
  (b = JsNull \/ truthy b = true) -> (u = JsNull \/ truthy u = true) ->
  undefinedToNull b = b /\ undefinedToNull u = u
  /\ (computeDays b u = JsNull
      <-> b = JsNull \/ u = JsNull \/ exists x, u = JsNumber x /\ is_infinity x = true).
Proof.
  intros Hb Hu.
  split; [destruct Hb as [->|Hb]; [reflexivity|destruct b; try discriminate; reflexivity]|].
  split; [destruct Hu as [->|Hu]; [reflexivity|destruct u; try discriminate; reflexivity]|].
  destruct Hb as [->|Hb]; [split; [auto|reflexivity]|].
  destruct Hu as [->|Hu]; [split; [auto|]; intros _; destruct b; reflexivity|].
  destruct b as [| |x]; try discriminate. destruct u as [| |y]; try discriminate.
  cbn [truthy] in Hu. apply negb_true_iff, orb_false_iff in Hu as [Hz Hn].
  unfold computeDays. cbn [looseNull orb Number]. rewrite Hz, orb_false_r.
  unfold is_finite. rewrite Hn. cbn [orb]. rewrite negb_involutive.
  destruct (is_infinity y) eqn:Hi.
  - split; [|reflexivity]. intros _. right. right. exists y. auto.
  - split.
    + destruct (1 <? x / y)%float; discriminate.
    + intros [E|[E|(z & [= <-] & E)]]; try discriminate. congruence.
Qed.

Section MergedTowns.
Variables trim toLowerCase : string -> string.

Local Abbreviation keyOf := (keyOf trim toLowerCase).
Local Abbreviation group := (group trim toLowerCase).
Local Abbreviation townOfGroup := (townOfGroup trim).

Lemma group_elem k entries e : e ∈ group k entries <-> e ∈ entries /\ keyOf e = k.
Proof. unfold group. rewrite list_elem_of_filter. tauto. Qed.

(** Each output town, with the key and the group it was built from. *)
Lemma final_elems entries :
  final trim toLowerCase entries
  = (fun k => finalTown (default (Town.mk "" None JsNull JsNull)
                                 (townOfGroup (group k entries))))
      <$> firstSeen [] (keyOf <$> entries)
  /\ Forall (fun k => exists e g, group k entries = e :: g)
            (firstSeen [] (keyOf <$> entries)).
Proof.
  assert (Forall (fun k => exists e g, group k entries = e :: g)
                 (firstSeen [] (keyOf <$> entries))) as Hall.
  { apply Forall_forall. intros k Hk. apply firstSeen_elem in Hk as [Hk _].
    apply group_nonempty in Hk. destruct (group k entries) as [|e g]; [contradiction|eauto]. }
  split; [|exact Hall].
  unfold final. rewrite byTown_groups.
  induction Hall as [|k ks (e & g & Hg) _ IH]; [reflexivity|].
  rewrite !fmap_cons. cbn [omap list_omap]. cbv beta. rewrite Hg.
  cbn [townOfGroup default fmap option_fmap option_map]. cbv iota.
  rewrite fmap_cons. cbn [snd]. f_equal. exact IH.
Qed.

End MergedTowns.

(** X11.  The merge loop groups the parsed entries by town name, trimmed
    and lower-cased.  The output holds one town per distinct key, in the
    order in which the keys first occur; each town has the spelling of the
    first entry of its group and, for nation, bank and upkeep, the first
    truthy value found in the group in parse order ([null] when there is
    none); [days_rounded] is [computeDays] of the merged figures. *)
Theorem dedupe_groups_by_town (trim toLowerCase : string -> string)
    (entries : list Entry.t) :
  final trim toLowerCase entries = grouped trim toLowerCase entries.
Proof.
  unfold final, grouped. rewrite byTown_groups.
  induction (firstSeen [] (keyOf trim toLowerCase <$> entries)) as [|k ks IH]; [reflexivity|].
  cbn [omap list_omap].
  destruct (townOfGroup trim (group trim toLowerCase k entries)) as [obj|];
    cbn [fmap option_fmap option_map]; [|exact IH].
  rewrite fmap_cons. cbn [snd]. f_equal. exact IH.
Qed.

(** Two entries for Paris and one for Rome: the zero bank of the first
    Paris entry counts as missing and the second entry fills it in; the
    empty nation of Rome is stored as [null]. *)
Lemma dedupe_groups_by_town_witness :
  final id id sampleEntries
  = [Final.mk "Paris" (Some "France") (JsNumber 100) (JsNumber 30) (JsNumber 4);
     Final.mk "Rome" None JsNull (JsNumber 5) JsNull].
Proof.
  rewrite (dedupe_groups_by_town id id sampleEntries). vm_compute. reflexivity.
Defined.

(** X12.  No town is listed twice and none is lost.  The lower-cased names
    of the output are pairwise distinct and are the keys of the entries in
    first-occurrence order; every entry has its town in the output, every
    output town is the trimmed label of some entry, and the output is
    never longer than the input. *)
Theorem final_towns_unique_and_complete (trim toLowerCase : string -> string)
    (entries : list Entry.t) :
  toLowerCase <$> (Final.town <$> final trim toLowerCase entries)
  = firstSeen [] (keyOf trim toLowerCase <$> entries)
  /\ NoDup (toLowerCase <$> (Final.town <$> final trim toLowerCase entries))
  /\ Forall (fun e => exists f, f ∈ final trim toLowerCase entries
                                /\ toLowerCase (Final.town f) = keyOf trim toLowerCase e)
            entries
  /\ Forall (fun f => exists e, e ∈ entries /\ Final.town f = trim (Entry.town e))
            (final trim toLowerCase entries)
  /\ (length (final trim toLowerCase entries) <= length entries)%nat.
Proof.
  destruct (final_elems trim toLowerCase entries) as [Hfin Hall].
  assert (Forall (fun k => exists e, e ∈ entries /\ keyOf trim toLowerCase e = k
            /\ Final.town (finalTown (default (Town.mk "" None JsNull JsNull)
                 (townOfGroup trim (group trim toLowerCase k entries))))
               = trim (Entry.town e))
            (firstSeen [] (keyOf trim toLowerCase <$> entries))) as Hk.
  { apply Forall_forall. intros k Hin.
    destruct (proj1 (Forall_forall _ _) Hall k Hin) as (e & g & Hg).
    assert (e ∈ group trim toLowerCase k entries) as He by (rewrite Hg; left).
    apply group_elem in He as [He Hkey]. exists e. rewrite Hg. auto. }
  assert (toLowerCase <$> (Final.town <$> final trim toLowerCase entries)
          = firstSeen [] (keyOf trim toLowerCase <$> entries)) as Hkeys.
  { rewrite Hfin, <- !list_fmap_compose. clear Hfin Hall.
    induction Hk as [|k ks (e & _ & Hkey & Ht) _ IH]; [reflexivity|].
    rewrite fmap_cons. f_equal; [|exact IH].
    cbn [compose]. rewrite Ht. exact Hkey. }
  split; [exact Hkeys|]. split; [rewrite Hkeys; apply firstSeen_NoDup|].
  split; [|split].
  - apply Forall_forall. intros e He.
    assert (keyOf trim toLowerCase e
            ∈ toLowerCase <$> (Final.town <$> final trim toLowerCase entries)) as Hin.
    { rewrite Hkeys. apply firstSeen_elem. split; [|apply not_elem_of_nil].
      apply list_elem_of_fmap. exists e. auto. }
    rewrite <- list_fmap_compose in Hin. apply list_elem_of_fmap in Hin as (f & Hf & Hin).
    exists f. auto.
  - rewrite Hfin. apply Forall_fmap. eapply Forall_impl; [exact Hk|].
    intros k (e & He & _ & Ht). exists e. auto.
  - rewrite Hfin, length_fmap.
    etransitivity; [apply firstSeen_length|]. rewrite length_fmap. reflexivity.
Qed.

(** X13.  The figures of the output.  A town's bank and upkeep are each
    [null] or a number that is neither zero nor NaN, taken from an entry
    of its group (a zero is treated as missing, and [undefined] never
    occurs); so of the guards of [computeDays] only the infinite upkeep
    remains: [days_rounded] is [null] exactly when a figure is [null] or
    the upkeep is infinite. *)
Theorem final_figures (trim toLowerCase : string -> string) (entries : list Entry.t) :
  Forall (fun f =>
            (Final.bank f = JsNull
             \/ truthy (Final.bank f) = true
                /\ exists e, e ∈ entries
                     /\ keyOf trim toLowerCase e = toLowerCase (Final.town f)
                     /\ Entry.bank e = Final.bank f)
            /\ (Final.upkeep f = JsNull
                \/ truthy (Final.upkeep f) = true
                   /\ exists e, e ∈ entries
                        /\ keyOf trim toLowerCase e = toLowerCase (Final.town f)
                        /\ Entry.upkeep e = Final.upkeep f)
            /\ Final.days_rounded f = computeDays (Final.bank f) (Final.upkeep f)
            /\ (Final.days_rounded f = JsNull
                <-> Final.bank f = JsNull \/ Final.upkeep f = JsNull
                    \/ exists x, Final.upkeep f = JsNumber x /\ is_infinity x = true))
         (final trim toLowerCase entries).
Proof.
  destruct (final_elems trim toLowerCase entries) as [Hfin Hall].
  rewrite Hfin. apply Forall_fmap. eapply Forall_impl; [exact Hall|].
  intros k (e0 & g & Hg). unfold compose. cbv beta. rewrite Hg.
  cbn [townOfGroup default from_option id finalTown Town.town Town.nation Town.bank
       Town.upkeep Final.town Final.bank Final.upkeep Final.days_rounded].
  assert (toLowerCase (trim (Entry.town e0)) = k) as Hk0.
  { assert (e0 ∈ group trim toLowerCase k entries) as He by (rewrite Hg; left).
    apply group_elem in He as [_ He]. exact He. }
  assert (forall e, e ∈ e0 :: g -> e ∈ entries /\ keyOf trim toLowerCase e = k) as Hgrp.
  { intros e He. rewrite <- Hg in He. apply group_elem in He. exact He. }
  set (b := firstTruthy (Entry.bank <$> e0 :: g)).
  set (u := firstTruthy (Entry.upkeep <$> e0 :: g)).
  assert (b = JsNull \/ truthy b = true
          /\ exists e, e ∈ entries /\ keyOf trim toLowerCase e = k /\ Entry.bank e = b) as Hb.
  { destruct (firstTruthy_cases (Entry.bank <$> e0 :: g)) as [E|[Hin Ht]]; [left; exact E|].
    right. split; [exact Ht|]. apply list_elem_of_fmap in Hin as (e & Eb & He).
    destruct (Hgrp e He) as [Hin Hkey]. exists e. auto. }
  assert (u = JsNull \/ truthy u = true
          /\ exists e, e ∈ entries /\ keyOf trim toLowerCase e = k /\ Entry.upkeep e = u) as Hu.
  { destruct (firstTruthy_cases (Entry.upkeep <$> e0 :: g)) as [E|[Hin Ht]]; [left; exact E|].
    right. split; [exact Ht|]. apply list_elem_of_fmap in Hin as (e & Eb & He).
    destruct (Hgrp e He) as [Hin Hkey]. exists e. auto. }
  destruct (computeDays_of_merged b u) as (Eb & Eu & Hnull);
    [destruct Hb as [?|[? _]]; auto | destruct Hu as [?|[? _]]; auto |].
  rewrite Eb, Eu, Hk0. auto.
Qed.

(** ** Exclusions *)

Lemma Forall_four {A} (P : A -> Prop) (a b c d : A) :
  Forall P [a; b; c; d] <-> P a /\ P b /\ P c /\ P d.
Proof.
  rewrite !Forall_cons, Forall_nil. tauto.
Qed.

Lemma Exists_four {A} (P : A -> Prop) (a b c d : A) :
  Exists P [a; b; c; d] <-> P a \/ P b \/ P c \/ P d.
Proof.
  rewrite !Exists_cons, Exists_nil. tauto.
Qed.

(** X14.  [isExcludedLabelOrDesc] never answers "world_border" or
    "capture_point": both names are in [EXCLUDED_SUBSTRINGS], so the loop
    over that list has already answered "assault_region:..." for every
    text the two last tests would catch.  A marker is kept exactly when
    none of its four upper-cased texts contains "SHOP" or a listed name;
    otherwise the reason is "shop", or "assault_region:" followed by the
    first listed name that occurs. *)
Theorem exclusion_reasons (toUpperCase : string -> string)
    (label descHtml descText key : option string) :
  reason (isExcludedLabelOrDesc toUpperCase label descHtml descText key)
    <> Some "world_border"
  /\ reason (isExcludedLabelOrDesc toUpperCase label descHtml descText key)
       <> Some "capture_point"
  /\ (excluded (isExcludedLabelOrDesc toUpperCase label descHtml descText key) = false
      <-> Forall (fun t => Forall (fun ex => includes (toUpperCase (default "" t)) ex = false)
                                  ("SHOP" :: EXCLUDED_SUBSTRINGS))
                 [label; descHtml; descText; key])
  /\ (reason (isExcludedLabelOrDesc toUpperCase label descHtml descText key) = None
      <-> excluded (isExcludedLabelOrDesc toUpperCase label descHtml descText key) = false)
  /\ (reason (isExcludedLabelOrDesc toUpperCase label descHtml descText key) = Some "shop"
      \/ Forall (fun t => includes (toUpperCase (default "" t)) "SHOP" = false)
                [label; descHtml; descText; key]
         /\ (reason (isExcludedLabelOrDesc toUpperCase label descHtml descText key) = None
             \/ exists before ex after,
                  EXCLUDED_SUBSTRINGS = before ++ ex :: after
                  /\ reason (isExcludedLabelOrDesc toUpperCase label descHtml descText key)
                     = Some ("assault_region:" +:+ ex)
                  /\ Exists (fun t => includes (toUpperCase (default "" t)) ex = true)
                            [label; descHtml; descText; key]
                  /\ Forall (fun ex' =>
                               Forall (fun t => includes (toUpperCase (default "" t)) ex' = false)
                                      [label; descHtml; descText; key])
                            before)).
Proof.
  rewrite !Forall_four.
  unfold isExcludedLabelOrDesc. cbv zeta.
  set (l := toUpperCase (default "" label)).
  set (h := toUpperCase (default "" descHtml)).
  set (t := toUpperCase (default "" descText)).
  set (k := toUpperCase (default "" key)).
  set (hit := fun ex => includes l ex || includes h ex || includes t ex || includes k ex).
  assert (forall ex, hit ex = false <->
            includes l ex = false /\ includes h ex = false
            /\ includes t ex = false /\ includes k ex = false) as Hhit.
  { intros ex. unfold hit. rewrite !orb_false_iff. tauto. }
  assert (forall exs,
            match List.find hit exs with
            | Some ex => exists before after,
                exs = before ++ ex :: after /\ hit ex = true
                /\ Forall (fun ex' => hit ex' = false) before
            | None => Forall (fun ex' => hit ex' = false) exs
            end) as Hfind.
  { induction exs as [|ex exs IH]; [constructor|]. cbn [List.find].
    destruct (hit ex) eqn:Hex.
    - exists [], exs. auto.
    - destruct (List.find hit exs) as [ex'|].
      + destruct IH as (before & after & -> & Hh & Hb).
        exists (ex :: before), after. auto.
      + constructor; assumption. }
  specialize (Hfind EXCLUDED_SUBSTRINGS).
  destruct (includes l "SHOP" || includes k "SHOP" || includes h "SHOP" || includes t "SHOP")
    eqn:Hshop.
  - cbn [reason excluded].
    split; [discriminate|]. split; [discriminate|]. split; [|split; [|left; reflexivity]].
    + split; [discriminate|]. intros (Hl & Hh & Ht & Hk). exfalso.
      apply Forall_cons in Hl as [Hl _]. apply Forall_cons in Hh as [Hh _].
      apply Forall_cons in Ht as [Ht _]. apply Forall_cons in Hk as [Hk _].
      rewrite Hl, Hh, Ht, Hk in Hshop. discriminate.
    + split; discriminate.
  - rewrite !orb_false_iff in Hshop. destruct Hshop as [[[Sl Sk] Sh] St].
    destruct (List.find hit EXCLUDED_SUBSTRINGS) as [ex|] eqn:Hf.
    + destruct Hfind as (before & after & Hex & Hh & Hb). cbn [reason excluded].
      split; [discriminate|]. split; [discriminate|]. split; [|split].
      * split; [discriminate|]. intros (Al & Ah & At & Ak). exfalso.
        assert (forall x, Forall (fun ex => includes x ex = false)
                            ("SHOP" :: EXCLUDED_SUBSTRINGS) -> includes x ex = false) as Hx.
        { intros x Hall. apply Forall_cons in Hall as [_ Hall]. rewrite Hex in Hall.
          apply Forall_app in Hall as [_ Hall]. apply Forall_cons in Hall as [Hall _].
          exact Hall. }
        assert (hit ex = false) as Hn by (apply Hhit; auto).
        rewrite Hn in Hh. discriminate.
      * split; discriminate.
      * right. split; [auto|]. right.
        exists before, ex, after. split; [exact Hex|]. split; [reflexivity|]. split.
        -- apply Exists_four. unfold hit in Hh. rewrite !orb_true_iff in Hh.
           subst l h t k. tauto.
        -- eapply Forall_impl; [exact Hb|]. intros ex' Hn. apply Forall_four.
           apply Hhit in Hn. subst l h t k. exact Hn.
    + assert (hit "WORLD BORDER" = false /\ hit "CAPTURE POINT" = false) as [Hw Hc].
      { unfold EXCLUDED_SUBSTRINGS in Hfind.
        apply Forall_cons in Hfind as [Hw Hfind]. apply Forall_cons in Hfind as [Hc _]. auto. }
      apply Hhit in Hw as (Wl & Wh & Wt & Wk). apply Hhit in Hc as (Cl & Ch & Ct & Ck).
      rewrite Wl, Wh, Wk, Cl, Ch, Ck. cbn [orb reason excluded].
      split; [discriminate|]. split; [discriminate|]. split; [|split].
      * split; [|reflexivity]. intros _.
        assert (forall x, includes x "SHOP" = false ->
                  (forall ex, hit ex = false -> includes x ex = false) ->
                  Forall (fun ex => includes x ex = false) ("SHOP" :: EXCLUDED_SUBSTRINGS)) as Hx.
        { intros x Hs Himp. constructor; [exact Hs|].
          eapply Forall_impl; [exact Hfind|]. exact Himp. }
        split; [|split; [|split]]; apply Hx; try assumption;
          intros ex Hn; apply Hhit in Hn; tauto.
      * split; reflexivity.
      * right. split; [auto|]. left. reflexivity.
Qed.

(** ** Numbers in text *)

Lemma append_nil_l (s : string) : "" +:+ s = s.
Proof. reflexivity. Qed.

Lemma append_cons (c : ascii) (s t : string) : String c s +:+ t = String c (s +:+ t).
Proof. reflexivity. Qed.

Lemma append_nil_r (s : string) : s +:+ "" = s.
Proof.
  induction s as [|c s IH]; [reflexivity|].
  change (String c (s +:+ "") = String c s). f_equal. exact IH.
Qed.

Lemma append_assoc (s1 s2 s3 : string) : (s1 +:+ s2) +:+ s3 = s1 +:+ (s2 +:+ s3).
Proof.
  induction s1 as [|c s1 IH]; [reflexivity|].
  change (String c ((s1 +:+ s2) +:+ s3) = String c (s1 +:+ (s2 +:+ s3))). f_equal. exact IH.
Qed.

Lemma allChars_app p s1 s2 :
  allChars p (s1 +:+ s2) = allChars p s1 && allChars p s2.
Proof.
  induction s1 as [|c s1 IH]; [reflexivity|].
  change (p c && allChars p (s1 +:+ s2) = p c && allChars p s1 && allChars p s2).
  rewrite IH, andb_assoc. reflexivity.
Qed.

Lemma takeWhile_all p s : allChars p (takeWhile p s) = true.
Proof.
  induction s as [|c s IH]; [reflexivity|]. cbn [takeWhile].
  destruct (p c) eqn:Hc; [|reflexivity]. cbn. rewrite Hc. exact IH.
Qed.

Lemma take_drop_while p s : takeWhile p s +:+ dropWhile p s = s.
Proof.
  induction s as [|c s IH]; [reflexivity|]. cbn [takeWhile dropWhile].
  destruct (p c); [|reflexivity].
  change (String c (takeWhile p s +:+ dropWhile p s) = String c s). f_equal. exact IH.
Qed.

Lemma dropWhile_stops p s : stopsAt p (dropWhile p s).
Proof.
  induction s as [|c s IH]; [exact I|]. cbn [dropWhile].
  destruct (p c) eqn:Hc; [exact IH|exact Hc].
Qed.

Lemma takeWhile_app p s1 s2 :
  allChars p s1 = true -> stopsAt p s2 -> takeWhile p (s1 +:+ s2) = s1.
Proof.
  intros H1 H2. induction s1 as [|c s1 IH].
  - rewrite append_nil_l. destruct s2 as [|c s2]; [reflexivity|].
    cbn in H2 |- *. rewrite H2. reflexivity.
  - rewrite append_cons. cbn in H1 |- *. apply andb_true_iff in H1 as [Hc H1].
    rewrite Hc, (IH H1). reflexivity.
Qed.

Lemma dropWhile_app p s1 s2 :
  allChars p s1 = true -> stopsAt p s2 -> dropWhile p (s1 +:+ s2) = s2.
Proof.
  intros H1 H2. induction s1 as [|c s1 IH].
  - rewrite append_nil_l. destruct s2 as [|c s2]; [reflexivity|].
    cbn in H2 |- *. rewrite H2. reflexivity.
  - rewrite append_cons. cbn in H1 |- *. apply andb_true_iff in H1 as [Hc H1].
    rewrite Hc. exact (IH H1).
Qed.

Lemma takeWhile_stops p s : stopsAt p s -> takeWhile p s = "".
Proof. destruct s as [|c s]; [reflexivity|]. cbn. intros ->. reflexivity. Qed.

(** The characters that matter to the pattern. *)
Lemma digit_is_numChar c : isDigit c = true -> isNumChar c = true.
Proof. unfold isNumChar. intros ->. reflexivity. Qed.

Lemma space_not_numChar c : isSpace c = true -> isNumChar c = false.
Proof.
  unfold isSpace, isNumChar, isDigit. cbn [existsb]. rewrite !orb_true_iff.
  intros H. assert (nat_of_ascii c = 9 \/ nat_of_ascii c = 10 \/ nat_of_ascii c = 11
                    \/ nat_of_ascii c = 12 \/ nat_of_ascii c = 13 \/ nat_of_ascii c = 32
                    \/ nat_of_ascii c = 160)%nat as Hc.
  { rewrite <- !Nat.eqb_eq. intuition discriminate. }
  assert (c <> ","%char) as Hne.
  { intros ->. vm_compute in Hc. lia. }
  apply Ascii.eqb_neq in Hne. rewrite Hne, orb_false_r.
  apply andb_false_iff. destruct (Nat.leb_spec 48 (nat_of_ascii c)); [right|left; reflexivity].
  apply Nat.leb_gt. lia.
Qed.

Lemma space_not_sign c : isSpace c = true -> Ascii.eqb c "-" = false /\ Ascii.eqb c "." = false.
Proof.
  unfold isSpace. cbn [existsb]. rewrite !orb_true_iff, !Nat.eqb_eq. intros H.
  split; apply Ascii.eqb_neq; intros ->; vm_compute in H; intuition (discriminate || lia).
Qed.

Lemma sign_not_numChar : isNumChar "-" = false /\ isNumChar "." = false.
Proof. split; reflexivity. Qed.

(** *** When there is a match *)

Lemma unsignedHere_none s : unsignedHere s = None <-> stopsAt isNumChar s.
Proof.
  unfold unsignedHere. destruct s as [|c s]; [cbn; tauto|]. cbn [takeWhile stopsAt].
  destruct (isNumChar c); split; intros H; try discriminate; reflexivity.
Qed.

Lemma matchHere_none s : matchHere s = None <-> stopsAt isNumChar s /\
  match s with
  | String c s' => Ascii.eqb c "-" = true -> stopsAt isNumChar s'
  | EmptyString => True
  end.
Proof.
  destruct s as [|c s]; [cbn; tauto|]. cbn [matchHere].
  destruct (Ascii.eqb c "-") eqn:Hc.
  - destruct (unsignedHere s) as [m|] eqn:Hu.
    + split; [discriminate|]. intros [_ Hs]. apply unsignedHere_none in Hs; [|reflexivity].
      congruence.
    + rewrite unsignedHere_none. apply unsignedHere_none in Hu. tauto.
  - rewrite unsignedHere_none. split; [|tauto]. intros H. split; [exact H|discriminate].
Qed.

Lemma regexMatch_none s : regexMatch s = None <-> allChars (fun c => negb (isNumChar c)) s = true.
Proof.
  induction s as [|c s IH]; [cbn; tauto|].
  cbn [regexMatch allChars]. rewrite andb_true_iff, negb_true_iff, <- IH.
  destruct (matchHere (String c s)) as [m|] eqn:Hm.
  - split; [discriminate|]. intros [Hc Hs]. exfalso.
    assert (matchHere (String c s) = None) as Hn; [|congruence].
    apply matchHere_none. cbn [stopsAt]. split; [exact Hc|]. intros _.
    destruct s as [|c' s]; [exact I|]. cbn [stopsAt].
    apply IH in Hs. cbn in Hs. apply andb_true_iff in Hs as [Hs _].
    apply negb_true_iff in Hs. exact Hs.
  - apply matchHere_none in Hm as [Hc _]. cbn [stopsAt] in Hc. tauto.
Qed.

(** *** The cleaning steps do not change the match *)

Lemma replaceNbsp_head c :
  let c' := if Ascii.eqb c "160" then " "%char else c in
  isNumChar c' = isNumChar c /\ isDigit c' = isDigit c
  /\ Ascii.eqb c' "-" = Ascii.eqb c "-" /\ Ascii.eqb c' "." = Ascii.eqb c "."
  /\ (isNumChar c = true -> c' = c).
Proof.
  cbv zeta. destruct (Ascii.eqb_spec c "160") as [->|Hne]; [|auto 10].
  repeat split; try reflexivity. discriminate.
Qed.

Lemma takeWhile_replaceNbsp p s :
  (forall c, p (if Ascii.eqb c "160" then " "%char else c) = p c) ->
  (forall c, p c = true -> Ascii.eqb c "160" = false) ->
  takeWhile p (replaceNbsp s) = takeWhile p s
  /\ dropWhile p (replaceNbsp s) = replaceNbsp (dropWhile p s).
Proof.
  intros Hp Hfix. induction s as [|c s [IH1 IH2]]; [split; reflexivity|].
  cbn [replaceNbsp takeWhile dropWhile]. rewrite Hp.
  destruct (p c) eqn:Hc; [|split; reflexivity].
  rewrite (Hfix c Hc), IH1, IH2. split; reflexivity.
Qed.

Lemma numChar_not_nbsp c : isNumChar c = true -> Ascii.eqb c "160" = false.
Proof.
  intros Hc. apply Ascii.eqb_neq. intros ->. discriminate.
Qed.

Lemma digit_not_nbsp c : isDigit c = true -> Ascii.eqb c "160" = false.
Proof.
  intros Hc. apply Ascii.eqb_neq. intros ->. discriminate.
Qed.

Lemma fraction_replaceNbsp s : fraction (replaceNbsp s) = fraction s.
Proof.
  destruct s as [|c s]; [reflexivity|]. cbn [replaceNbsp fraction].
  destruct (replaceNbsp_head c) as (_ & _ & _ & -> & _).
  destruct (Ascii.eqb c "."); [|reflexivity].
  destruct (takeWhile_replaceNbsp isDigit s) as [-> _]; [| |reflexivity].
  - intros c'. apply (replaceNbsp_head c').
  - apply digit_not_nbsp.
Qed.

Lemma unsignedHere_replaceNbsp s : unsignedHere (replaceNbsp s) = unsignedHere s.
Proof.
  unfold unsignedHere.
  destruct (takeWhile_replaceNbsp isNumChar s) as [-> ->].
  - intros c. apply (replaceNbsp_head c).
  - apply numChar_not_nbsp.
  - rewrite fraction_replaceNbsp. reflexivity.
Qed.

Lemma matchHere_replaceNbsp s : matchHere (replaceNbsp s) = matchHere s.
Proof.
  destruct s as [|c s]; [reflexivity|].
  change (replaceNbsp (String c s))
    with (String (if Ascii.eqb c "160" then " "%char else c) (replaceNbsp s)).
  cbn [matchHere]. destruct (replaceNbsp_head c) as (_ & _ & -> & _ & _).
  change (String (if Ascii.eqb c "160" then " "%char else c) (replaceNbsp s))
    with (replaceNbsp (String c s)).
  rewrite !unsignedHere_replaceNbsp. reflexivity.
Qed.

Lemma regexMatch_replaceNbsp s : regexMatch (replaceNbsp s) = regexMatch s.
Proof.
  induction s as [|c s IH]; [reflexivity|].
  change (regexMatch (replaceNbsp (String c s)))
    with (match matchHere (replaceNbsp (String c s)) with
          | Some m => Some m
          | None => regexMatch (replaceNbsp s)
          end).
  rewrite matchHere_replaceNbsp, IH. reflexivity.
Qed.

Lemma matchHere_space c s : isSpace c = true -> matchHere (String c s) = None.
Proof.
  intros Hc. apply matchHere_none. cbn [stopsAt].
  split; [apply space_not_numChar; exact Hc|].
  destruct (space_not_sign c Hc) as [-> _]. discriminate.
Qed.

Lemma regexMatch_dropSpaces s : regexMatch (dropWhile isSpace s) = regexMatch s.
Proof.
  induction s as [|c s IH]; [reflexivity|]. cbn [dropWhile].
  destruct (isSpace c) eqn:Hc; [|reflexivity].
  rewrite IH. cbn [regexMatch]. rewrite (matchHere_space c s Hc). reflexivity.
Qed.

Lemma trimEnd_spaces s : exists ws, s = trimEnd s +:+ ws /\ allChars isSpace ws = true.
Proof.
  induction s as [|c s (ws & Hs & Hws)]; [exists ""; auto|].
  cbn [trimEnd]. destruct (trimEnd s) as [|c' t] eqn:Ht.
  - destruct (isSpace c) eqn:Hc.
    + exists (String c s). split; [reflexivity|]. cbn [allChars]. rewrite Hc.
      rewrite append_nil_l in Hs. subst ws. exact Hws.
    + exists s. split; [reflexivity|]. rewrite append_nil_l in Hs. subst ws. exact Hws.
  - exists ws. split; [|exact Hws]. rewrite append_cons. f_equal. exact Hs.
Qed.

Lemma spaces_stop (p : ascii -> bool) ws :
  (forall c, isSpace c = true -> p c = false) ->
  allChars isSpace ws = true -> stopsAt p ws.
Proof.
  intros Hp. destruct ws as [|c ws]; [intros; exact I|]. cbn [allChars stopsAt].
  intros H. apply andb_true_iff in H as [Hc _]. apply Hp. exact Hc.
Qed.

Lemma takeWhile_then_spaces p s ws :
  (forall c, isSpace c = true -> p c = false) ->
  allChars isSpace ws = true ->
  takeWhile p (s +:+ ws) = takeWhile p s
  /\ dropWhile p (s +:+ ws) = dropWhile p s +:+ ws.
Proof.
  intros Hp Hws. induction s as [|c s [IH1 IH2]].
  - rewrite !append_nil_l. pose proof (spaces_stop p ws Hp Hws) as Hstop.
    destruct ws as [|w ws]; [split; reflexivity|].
    cbn [stopsAt] in Hstop. cbn [takeWhile dropWhile]. rewrite Hstop.
    split; reflexivity.
  - rewrite append_cons. cbn [takeWhile dropWhile]. destruct (p c); [|split; reflexivity].
    rewrite IH1, IH2. split; reflexivity.
Qed.

Lemma space_not_digit c : isSpace c = true -> isDigit c = false.
Proof.
  intros Hc. apply space_not_numChar in Hc. unfold isNumChar in Hc.
  apply orb_false_iff in Hc as [Hc _]. exact Hc.
Qed.

Lemma fraction_then_spaces s ws :
  allChars isSpace ws = true -> fraction (s +:+ ws) = fraction s.
Proof.
  intros Hws. destruct s as [|c s].
  - rewrite append_nil_l. destruct ws as [|w ws]; [reflexivity|].
    cbn [allChars] in Hws. cbn [fraction].
    apply andb_true_iff in Hws as [Hw _]. destruct (space_not_sign w Hw) as [_ ->].
    reflexivity.
  - rewrite append_cons. cbn [fraction]. destruct (Ascii.eqb c "."); [|reflexivity].
    destruct (takeWhile_then_spaces isDigit s ws space_not_digit Hws) as [-> _]. reflexivity.
Qed.

Lemma unsignedHere_then_spaces s ws :
  allChars isSpace ws = true -> unsignedHere (s +:+ ws) = unsignedHere s.
Proof.
  intros Hws. unfold unsignedHere.
  destruct (takeWhile_then_spaces isNumChar s ws space_not_numChar Hws) as [-> ->].
  rewrite fraction_then_spaces by exact Hws. reflexivity.
Qed.

Lemma matchHere_then_spaces s ws :
  allChars isSpace ws = true -> matchHere (s +:+ ws) = matchHere s.
Proof.
  intros Hws. destruct s as [|c s].
  - rewrite append_nil_l. destruct ws as [|w ws]; [reflexivity|].
    cbn [allChars] in Hws. apply andb_true_iff in Hws as [Hw _].
    apply matchHere_space. exact Hw.
  - rewrite append_cons. cbn [matchHere]. rewrite <- append_cons.
    rewrite !unsignedHere_then_spaces by exact Hws. reflexivity.
Qed.

Lemma regexMatch_spaces ws : allChars isSpace ws = true -> regexMatch ws = None.
Proof.
  intros Hws. apply regexMatch_none. induction ws as [|w ws IH]; [reflexivity|].
  cbn [allChars] in Hws |- *. apply andb_true_iff in Hws as [Hw Hws].
  rewrite (space_not_numChar w Hw), (IH Hws). reflexivity.
Qed.

Lemma regexMatch_then_spaces s ws :
  allChars isSpace ws = true -> regexMatch (s +:+ ws) = regexMatch s.
Proof.
  intros Hws. induction s as [|c s IH].
  - rewrite append_nil_l, (regexMatch_spaces ws Hws). reflexivity.
  - change (regexMatch (String c s +:+ ws))
      with (match matchHere (String c s +:+ ws) with
            | Some m => Some m
            | None => regexMatch (s +:+ ws)
            end).
    rewrite (matchHere_then_spaces (String c s) ws Hws), IH. reflexivity.
Qed.

Lemma regexMatch_trim s : regexMatch (trim (replaceNbsp s)) = regexMatch s.
Proof.
  unfold trim.
  destruct (trimEnd_spaces (dropWhile isSpace (replaceNbsp s))) as (ws & Hs & Hws).
  rewrite <- (regexMatch_then_spaces _ ws Hws), <- Hs.
  rewrite regexMatch_dropSpaces. apply regexMatch_replaceNbsp.
Qed.

(** *** What the match looks like *)

Lemma takeWhile_id p s : allChars p s = true -> takeWhile p s = s.
Proof.
  intros H. rewrite <- (append_nil_r s) at 1. apply takeWhile_app; [exact H|exact I].
Qed.

Lemma fraction_shape s : fractionShape (fraction s).
Proof.
  destruct s as [|c s]; [left; reflexivity|]. cbn [fraction].
  destruct (Ascii.eqb c "."); [|left; reflexivity].
  destruct (takeWhile isDigit s) as [|d ds] eqn:Hd; [left; reflexivity|].
  right. exists (String d ds). split; [reflexivity|]. split; [discriminate|].
  rewrite <- Hd. apply takeWhile_all.
Qed.

Lemma fraction_id f : fractionShape f -> fraction f = f /\ stopsAt isNumChar f.
Proof.
  intros [->|(ds & -> & Hne & Hds)]; [split; [reflexivity|exact I]|].
  split; [|reflexivity]. cbn [fraction]. rewrite Ascii.eqb_refl, (takeWhile_id _ _ Hds).
  destruct ds; [contradiction|reflexivity].
Qed.

Lemma unsignedHere_shape s m : unsignedHere s = Some m -> amountShape m.
Proof.
  unfold unsignedHere. destruct (takeWhile isNumChar s) as [|c body] eqn:Hb; [discriminate|].
  intros [= <-]. exists (String c body), (fraction (dropWhile isNumChar s)).
  split; [reflexivity|]. split; [discriminate|].
  split; [rewrite <- Hb; apply takeWhile_all|apply fraction_shape].
Qed.

Lemma unsignedHere_amount s : amountShape s -> unsignedHere s = Some s.
Proof.
  intros (body & f & -> & Hne & Hb & Hf). unfold unsignedHere.
  destruct (fraction_id f Hf) as [Ef Hstop].
  rewrite (takeWhile_app _ _ _ Hb Hstop), (dropWhile_app _ _ _ Hb Hstop), Ef.
  destruct body; [contradiction|reflexivity].
Qed.

Lemma matchHere_shape s m :
  matchHere s = Some m -> exists sign a, m = sign +:+ a /\ (sign = "" \/ sign = "-") /\ amountShape a.
Proof.
  assert (forall s', unsignedHere s' = Some m ->
            exists sign a, m = sign +:+ a /\ (sign = "" \/ sign = "-") /\ amountShape a) as Hu.
  { intros s' E. exists "", m. split; [reflexivity|]. split; [left; reflexivity|].
    eapply unsignedHere_shape. exact E. }
  destruct s as [|c s]; [apply Hu|]. cbn [matchHere].
  destruct (Ascii.eqb c "-"); [|apply Hu].
  destruct (unsignedHere s) as [a|] eqn:Ea; [|apply Hu].
  intros [= <-]. exists "-", a. split; [reflexivity|]. split; [right; reflexivity|].
  eapply unsignedHere_shape. exact Ea.
Qed.

Lemma regexMatch_shape s m :
  regexMatch s = Some m -> exists sign a, m = sign +:+ a /\ (sign = "" \/ sign = "-") /\ amountShape a.
Proof.
  induction s as [|c s IH]; cbn [regexMatch].
  - destruct (matchHere "") eqn:E; [|discriminate]. intros [= <-]. eapply matchHere_shape. exact E.
  - destruct (matchHere (String c s)) eqn:E; [|exact IH].
    intros [= <-]. eapply matchHere_shape. exact E.
Qed.

Lemma removeCommas_app s1 s2 : removeCommas (s1 +:+ s2) = removeCommas s1 +:+ removeCommas s2.
Proof.
  induction s1 as [|c s1 IH]; [reflexivity|]. rewrite append_cons. cbn [removeCommas].
  destruct (Ascii.eqb c ","); [exact IH|]. rewrite append_cons, IH. reflexivity.
Qed.

Lemma removeCommas_digits s : allChars isDigit s = true -> removeCommas s = s.
Proof.
  induction s as [|c s IH]; [reflexivity|]. cbn [allChars removeCommas].
  intros H. apply andb_true_iff in H as [Hc Hs].
  destruct (Ascii.eqb_spec c ",") as [->|_]; [discriminate|]. rewrite (IH Hs). reflexivity.
Qed.

Lemma removeCommas_body s : allChars isNumChar s = true -> allChars isDigit (removeCommas s) = true.
Proof.
  induction s as [|c s IH]; [reflexivity|]. cbn [allChars removeCommas].
  intros H. apply andb_true_iff in H as [Hc Hs].
  destruct (Ascii.eqb c ",") eqn:Ec; [exact (IH Hs)|].
  cbn [allChars]. unfold isNumChar in Hc. rewrite Ec, orb_false_r in Hc.
  rewrite Hc, (IH Hs). reflexivity.
Qed.

Lemma removeCommas_fraction f : fractionShape f -> removeCommas f = f.
Proof.
  intros [->|(ds & -> & _ & Hds)]; [reflexivity|].
  cbn [removeCommas]. change (Ascii.eqb "." ",") with false. cbv iota.
  rewrite (removeCommas_digits _ Hds). reflexivity.
Qed.

Lemma removeCommas_token sign a :
  (sign = "" \/ sign = "-") -> amountShape a -> decimalShape (removeCommas (sign +:+ a)).
Proof.
  intros Hs (body & f & -> & _ & Hb & Hf).
  exists sign, (removeCommas body), f.
  rewrite !removeCommas_app, (removeCommas_fraction f Hf).
  split; [destruct Hs as [->| ->]; reflexivity|]. split; [exact Hs|].
  split; [apply removeCommas_body; exact Hb|exact Hf].
Qed.

(** X15.  [parseNumRaw] reads the first number of a text.  It answers
    [null] for [null] and [undefined], and for a text exactly when the
    text holds no digit and no comma.  Replacing the no-break spaces and
    trimming make no difference to what is matched.  What reaches
    [Number] is the leftmost match without its commas: an optional minus,
    digits (none when the match held only commas) and possibly a dot with
    digits after it; no comma and no other character gets through. *)
Theorem parseNumRaw_reads_first_number (StringToNumber : string -> float) (s : string) :
  parseNumRaw StringToNumber None = JsNull
  /\ regexMatch (trim (replaceNbsp s)) = regexMatch s
  /\ (parseNumRaw StringToNumber (Some s) = JsNull
      <-> allChars (fun c => negb (isNumChar c)) s = true)
  /\ (forall m0, regexMatch s = Some m0 ->
        parseNumRaw StringToNumber (Some s) = JsNumber (StringToNumber (removeCommas m0))
        /\ decimalShape (removeCommas m0)).
Proof.
  split; [reflexivity|]. split; [apply regexMatch_trim|].
  unfold parseNumRaw. cbv zeta. rewrite regexMatch_trim. split.
  - rewrite <- regexMatch_none. destruct (regexMatch s); split; (discriminate || reflexivity).
  - intros m0 E. rewrite E. split; [reflexivity|].
    apply regexMatch_shape in E as (sign & a & -> & Hs & Ha).
    apply removeCommas_token; assumption.
Qed.

(** Texts without a number, a signed amount inside a sentence, a second
    dot, a dot without digits, and matches that hold only commas. *)
Example regexMatch_samples :
  regexMatch "no figures" = None
  /\ regexMatch "Bank: $-1,250.75 today" = Some "-1,250.75"
  /\ regexMatch "1.2.3" = Some "1.2"
  /\ regexMatch "5." = Some "5"
  /\ regexMatch "a - 7" = Some "7"
  /\ regexMatch "," = Some ","
  /\ removeCommas "," = ""
  /\ regexMatch "-," = Some "-,"
  /\ removeCommas "-," = "-".
Proof. vm_compute. repeat split; reflexivity. Qed.

(** X16.  An amount as the extractors capture it (digits and commas, then
    possibly a dot and digits) is read whole: [parseNumRaw] hands
    [Number] the entire capture with the commas removed, and never a
    prefix of it. *)
Theorem parseNumRaw_takes_whole_amount (StringToNumber : string -> float) (s : string) :
  amountShape s ->
  regexMatch s = Some s
  /\ parseNumRaw StringToNumber (Some s) = JsNumber (StringToNumber (removeCommas s)).
Proof.
  intros Ha.
  assert (regexMatch s = Some s) as E.
  { assert (matchHere s = Some s) as Em.
    { pose proof (unsignedHere_amount s Ha) as Eu.
      destruct s as [|c s]; [exact Eu|]. cbn [matchHere].
      destruct (Ascii.eqb_spec c "-") as [->|_]; [|exact Eu].
      discriminate Eu. }
    destruct s as [|c s]; cbn [regexMatch]; rewrite Em; reflexivity. }
  split; [exact E|].
  unfold parseNumRaw. cbv zeta. rewrite regexMatch_trim, E. reflexivity.
Qed.

Lemma parseNumRaw_takes_whole_amount_witness :
  amountShape sampleAmount
  /\ regexMatch sampleAmount = Some sampleAmount
  /\ removeCommas sampleAmount = "1234.50"
  /\ forall StringToNumber,
       parseNumRaw StringToNumber (Some sampleAmount)
       = JsNumber (StringToNumber (removeCommas sampleAmount)).
Proof.
  assert (amountShape sampleAmount) as Ha.
  { exists "1,234", ".50". split; [reflexivity|]. split; [discriminate|].
    split; [reflexivity|]. right. exists "50". split; [reflexivity|].
    split; [discriminate|reflexivity]. }
  split; [exact Ha|].
  split; [exact (proj1 (parseNumRaw_takes_whole_amount (fun _ => zero) sampleAmount Ha))|].
  split; [reflexivity|].
  intros f. exact (proj2 (parseNumRaw_takes_whole_amount f sampleAmount Ha)).
Defined.
